(** * auto-intersphinx: the version-aware catalog resolution engine

    A shallow embedding of [src/auto_intersphinx/catalog.py] and of the
    resolution loop of [src/auto_intersphinx/__init__.py], with the
    properties of the specification stated and settled over it; then of
    [_parse_requirements] of [update_catalog.py] and of the loop of
    [check_packages.py], with further properties of the code.

    Conventions of the embedding:
    - a Python [str] is a Rocq [string]; every character is read as one
      code point below 256;
    - a Python [dict] is an association list in insertion order, with the
      update discipline of CPython (an existing key keeps its position and
      its key object, only the value is replaced);
    - an exception is a value of [exn] carried by [result]; in the
      fetchers and in the loop of [check_packages.py], which can raise
      after they have sent requests or printed, a call is a [run]: it
      gives its outcome, [Returns] or [Raises], together with what was
      requested and printed up to there;
    - the three network look-ups are oracles (section variables) and every
      call to them is recorded in a trace; where the fetchers themselves
      are embedded, the oracles are the installed metadata and the
      servers' answers, and for the files, [pathlib]. *)

From Stdlib Require Import List String Ascii NArith ZArith Bool Lia Permutation.
From Stdlib Require Import Sorting.Sorted.
From Stdlib Require Decimal DecimalString.
Import ListNotations.
Open Scope string_scope.
Open Scope list_scope.

Set Implicit Arguments.

(* ===================================================================== *)
(** ** Python values: exceptions, truthiness, dictionaries                *)
(* ===================================================================== *)

Inductive exn : Type :=
| KeyError (key : string)
| RuntimeError (msg : string)
| JSONDecodeError.

Inductive result (A : Type) : Type :=
| Ok (a : A)
| Raise (e : exn).
Arguments Ok {A} a.
Arguments Raise {A} e.

Definition bind {A B} (r : result A) (f : A -> result B) : result B :=
  match r with
  | Ok a => f a
  | Raise e => Raise e
  end.

Notation "x <- c1 ;; c2" := (bind c1 (fun x => c2))
  (at level 61, c1 at next level, right associativity).

Definition isSome {A} (o : option A) : bool :=
  match o with Some _ => true | None => false end.

(** [bool(s)] for a string: the empty string is false. *)
Definition truthy (s : string) : bool :=
  match s with EmptyString => false | _ => true end.

(** [a or b] where [a] may be [None] or a string and [b] is any option. *)
Definition py_or (a b : option string) : option string :=
  match a with
  | Some s => if truthy s then Some s else b
  | None => b
  end.

Module Dict.
Section Dict.
Variables K V : Type.
Variable keq : K -> K -> bool.

Definition t := list (K * V).

Definition keys (d : t) : list K := map fst d.
Definition values (d : t) : list V := map snd d.

(** [d.get(k)] *)
Fixpoint get (d : t) (k : K) : option V :=
  match d with
  | [] => None
  | (k', v) :: r => if keq k' k then Some v else get r k
  end.

(** [k in d] *)
Definition contains (d : t) (k : K) : bool := isSome (get d k).

(** [d.get(k, dflt)] *)
Definition get_default (d : t) (k : K) (dflt : V) : V :=
  match get d k with Some v => v | None => dflt end.

(** [d[k] = v]: an existing key keeps its slot and its key object. *)
Fixpoint set (d : t) (k : K) (v : V) : t :=
  match d with
  | [] => [(k, v)]
  | (k', v') :: r =>
      if keq k' k then (k', v) :: r else (k', v') :: set r k v
  end.

(** [d.update(other)] *)
Definition update (d other : t) : t :=
  fold_left (fun acc kv => set acc (fst kv) (snd kv)) other d.

(** [d.setdefault(k, v)] as a state change. *)
Definition setdefault (d : t) (k : K) (v : V) : t :=
  if contains d k then d else set d k v.
End Dict.
End Dict.

Arguments Dict.get {K V} keq d k.
Arguments Dict.contains {K V} keq d k.
Arguments Dict.get_default {K V} keq d k dflt.
Arguments Dict.set {K V} keq d k v.
Arguments Dict.update {K V} keq d other.
Arguments Dict.setdefault {K V} keq d k v.
Arguments Dict.keys {K V} d.
Arguments Dict.values {K V} d.

(** Dictionaries keyed by strings. *)
Definition sdict (V : Type) := list (string * V).
Definition sget {V} (d : sdict V) (k : string) := Dict.get String.eqb d k.
Definition shas {V} (d : sdict V) (k : string) := Dict.contains String.eqb d k.
Definition sset {V} (d : sdict V) (k : string) (v : V) := Dict.set String.eqb d k v.
Definition supdate {V} (d o : sdict V) := Dict.update String.eqb d o.

(** [d[k]], which raises [KeyError] on a missing key. *)
Definition getitem {V} (d : sdict V) (k : string) : result V :=
  match sget d k with
  | Some v => Ok v
  | None => Raise (KeyError k)
  end.

(* ===================================================================== *)
(** ** String helpers used by the catalog                                 *)
(* ===================================================================== *)

(** [s.replace(".x", "")] *)
Fixpoint replace_dotx (s : string) : string :=
  match s with
  | String "."%char (String "x"%char rest) => replace_dotx rest
  | String c rest => String c (replace_dotx rest)
  | EmptyString => EmptyString
  end.

(** [".x" in s] *)
Fixpoint contains_dotx (s : string) : bool :=
  match s with
  | String "."%char (String "x"%char _) => true
  | String _ rest => contains_dotx rest
  | EmptyString => false
  end.

(** [s.endswith(suffix)] *)
Definition endswith (s suffix : string) : bool :=
  let n := String.length s in
  let m := String.length suffix in
  if Nat.leb m n then String.eqb (substring (n - m) m s) suffix else false.

(* ===================================================================== *)
(** ** Python's ordering protocol                                         *)
(* ===================================================================== *)

(** A three-way comparison stands for [__lt__]/[__eq__] of a Python type;
    tuples compare lexicographically, a proper prefix being smaller. *)
Class Cmp (A : Type) := cmp : A -> A -> comparison.

Unset Implicit Arguments.
Class CmpLaws (A : Type) {C : Cmp A} : Prop := {
  cmp_antisym : forall x y : A, cmp y x = CompOpp (cmp x y);
  cmp_eq_l : forall x y z : A, cmp x y = Eq -> cmp x z = cmp y z;
  cmp_lt_trans : forall x y z : A, cmp x y = Lt -> cmp y z = Lt -> cmp x z = Lt
}.
Set Implicit Arguments.

(** [packaging._structures.Infinity] and [NegativeInfinity]. *)
Inductive ext (A : Type) : Type :=
| NegativeInfinity
| Fin (a : A)
| Infinity.
Arguments NegativeInfinity {A}.
Arguments Fin {A} a.
Arguments Infinity {A}.

#[export] Instance cmp_N : Cmp N := N.compare.

#[export] Instance cmp_pair {A B} `{Cmp A} `{Cmp B} : Cmp (A * B) :=
  fun p q =>
    match cmp (fst p) (fst q) with
    | Eq => cmp (snd p) (snd q)
    | c => c
    end.

Fixpoint cmp_list_fix {A} (c : A -> A -> comparison) (l m : list A) : comparison :=
  match l, m with
  | [], [] => Eq
  | [], _ :: _ => Lt
  | _ :: _, [] => Gt
  | x :: l', y :: m' =>
      match c x y with
      | Eq => cmp_list_fix c l' m'
      | r => r
      end
  end.

#[export] Instance cmp_list {A} `{Cmp A} : Cmp (list A) := cmp_list_fix cmp.

#[export] Instance cmp_ext {A} `{Cmp A} : Cmp (ext A) :=
  fun x y =>
    match x, y with
    | NegativeInfinity, NegativeInfinity => Eq
    | NegativeInfinity, _ => Lt
    | _, NegativeInfinity => Gt
    | Infinity, Infinity => Eq
    | Infinity, _ => Gt
    | _, Infinity => Lt
    | Fin a, Fin b => cmp a b
    end.

(** Strings compare by code point. *)
#[export] Instance cmp_string : Cmp string :=
  fun s t => cmp (map N_of_ascii (list_ascii_of_string s))
                 (map N_of_ascii (list_ascii_of_string t)).

(** [sorted(l)] for a list whose elements compare through [lt]: a stable
    insertion sort; [sorted(l, reverse=True)] keeps equal elements in their
    original order as well. *)
Section Sorted.
Variable A : Type.
Variable lt : A -> A -> bool.

Fixpoint insert (x : A) (l : list A) : list A :=
  match l with
  | [] => [x]
  | y :: r => if lt y x then y :: insert x r else x :: l
  end.

Definition sorted (l : list A) : list A := fold_right insert [] l.

Definition sorted_reverse (l : list A) : list A := rev (sorted (rev l)).
End Sorted.

(* ===================================================================== *)
(** ** PEP 440 versions ([packaging.version])                             *)
(* ===================================================================== *)

Module PEP440.

(** The normalised pre-release letters: ["a"], ["b"] and ["rc"]. *)
Inductive pre_letter : Type := PreA | PreB | PreRC.

Definition pre_letter_str (l : pre_letter) : string :=
  match l with PreA => "a" | PreB => "b" | PreRC => "rc" end.

#[export] Instance cmp_pre_letter : Cmp pre_letter :=
  fun x y => cmp (pre_letter_str x) (pre_letter_str y).

(** A segment of a local version label: an integer or a lower-cased word. *)
Inductive local_seg : Type :=
| LNum (n : N)
| LStr (s : string).

(** [_cmpkey] turns an integer [i] into [(i, "")] and a word [s] into
    [(NegativeInfinity, s)]. *)
Definition local_key (s : local_seg) : ext N * string :=
  match s with
  | LNum n => (Fin n, "")
  | LStr w => (NegativeInfinity, w)
  end.

(** The fields of a [Version] object. *)
Record Version : Type := mkVersion {
  epoch : N;
  release : list N;
  pre : option (pre_letter * N);
  post : option N;
  dev : option N;
  local : option (list local_seg)
}.

(** Drop the trailing zeros of the release segment. *)
Definition strip_trailing_zeros (r : list N) : list N :=
  let fix dropz (l : list N) : list N :=
    match l with
    | 0%N :: l' => dropz l'
    | _ => l
    end in
  rev (dropz (rev r)).

Definition key_t : Type :=
  N * (list N * (ext (pre_letter * N) * (ext N * (ext N * ext (list (ext N * string)))))).

(** [packaging.version._cmpkey] *)
Definition _cmpkey (v : Version) : key_t :=
  let _release := strip_trailing_zeros (release v) in
  let _pre :=
    match pre v, post v, dev v with
    | None, None, Some _ => NegativeInfinity
    | None, _, _ => Infinity
    | Some p, _, _ => Fin p
    end in
  let _post := match post v with None => NegativeInfinity | Some n => Fin n end in
  let _dev := match dev v with None => Infinity | Some n => Fin n end in
  let _local :=
    match local v with
    | None => NegativeInfinity
    | Some segs => Fin (map local_key segs)
    end in
  (epoch v, (_release, (_pre, (_post, (_dev, _local))))).

#[export] Instance cmp_Version : Cmp Version :=
  fun a b => cmp (_cmpkey a) (_cmpkey b).

(** [a < b] and [a == b] on versions; [hash] agrees with [==]. *)
Definition vlt (a b : Version) : bool :=
  match cmp a b with Lt => true | _ => false end.
Definition veq (a b : Version) : bool :=
  match cmp a b with Eq => true | _ => false end.

(** *** The regular expression [VERSION_PATTERN]

    [PEP440_RE] and [Version._regex] are the same expression,
    [^\s*  v? (epoch!)? release pre? post? dev? (+local)?  \s*$] with
    [re.IGNORECASE].  Every group is matched greedily; the expression is
    such that the first greedy match is the only one, so the matcher below
    walks the string once, one function per group. *)

Definition is_digit (c : ascii) : bool :=
  let n := N_of_ascii c in (N.leb 48 n && N.leb n 57)%bool.

Definition is_upper (c : ascii) : bool :=
  let n := N_of_ascii c in (N.leb 65 n && N.leb n 90)%bool.

Definition is_lower (c : ascii) : bool :=
  let n := N_of_ascii c in (N.leb 97 n && N.leb n 122)%bool.

Definition lower (c : ascii) : ascii :=
  if is_upper c then ascii_of_N (N_of_ascii c + 32) else c.

Definition is_alnum (c : ascii) : bool := is_digit c || is_upper c || is_lower c.

(** [\s]: the white space of [str.isspace] below code point 256. *)
Definition is_space (c : ascii) : bool :=
  let n := N_of_ascii c in
  (N.leb 9 n && N.leb n 13) || (N.leb 28 n && N.leb n 32)
  || N.eqb n 133 || N.eqb n 160.

(** [[-_\.]] *)
Definition is_sep (c : ascii) : bool :=
  Ascii.eqb c "-" || Ascii.eqb c "_" || Ascii.eqb c ".".

Fixpoint skip_spaces (s : list ascii) : list ascii :=
  match s with
  | c :: r => if is_space c then skip_spaces r else s
  | [] => []
  end.

(** [[-_\.]?] *)
Definition skip_sep (s : list ascii) : list ascii :=
  match s with
  | c :: r => if is_sep c then r else s
  | [] => []
  end.

(** [[0-9]*], with the value read so far ([int] of the digits). *)
Fixpoint digits (acc : N) (s : list ascii) : N * list ascii :=
  match s with
  | c :: r =>
      if is_digit c then digits (10 * acc + (N_of_ascii c - 48)) r
      else (acc, s)
  | [] => (acc, [])
  end.

(** [[0-9]+] *)
Definition number (s : list ascii) : option (N * list ascii) :=
  match s with
  | c :: _ => if is_digit c then Some (digits 0 s) else None
  | [] => None
  end.

(** A literal word, letters compared without case. *)
Fixpoint word (w : list ascii) (s : list ascii) : option (list ascii) :=
  match w, s with
  | [], _ => Some s
  | a :: w', c :: r => if Ascii.eqb a (lower c) then word w' r else None
  | _ :: _, [] => None
  end.

(** An alternation of words, tried from left to right. *)
Fixpoint words {T} (alts : list (string * T)) (s : list ascii)
  : option (T * list ascii) :=
  match alts with
  | [] => None
  | (w, t) :: alts' =>
      match word (list_ascii_of_string w) s with
      | Some r => Some (t, r)
      | None => words alts' s
      end
  end.

(** [[-_\.]? word [-_\.]? [0-9]*]: the shape shared by the pre, post and
    dev groups; a missing number is 0 ([_parse_letter_version]). *)
Definition letter_group {T} (alts : list (string * T)) (s : list ascii)
  : option (T * N) * list ascii :=
  match words alts (skip_sep s) with
  | Some (t, r) =>
      let r' := skip_sep r in
      match number r' with
      | Some (n, r'') => (Some (t, n), r'')
      | None => (Some (t, 0%N), r')
      end
  | None => (None, s)
  end.

(** The spellings of the pre-release letter and their normal form. *)
Definition pre_words : list (string * pre_letter) :=
  [("alpha", PreA); ("a", PreA); ("beta", PreB); ("b", PreB);
   ("preview", PreRC); ("pre", PreRC); ("c", PreRC); ("rc", PreRC)].

Definition post_words : list (string * unit) :=
  [("post", tt); ("rev", tt); ("r", tt)].

Definition dev_words : list (string * unit) := [("dev", tt)].

(** [(?:\.[0-9]+)*] *)
Fixpoint release_tail (s : list ascii) (fuel : nat) : list N * list ascii :=
  match fuel with
  | O => ([], s)
  | S fuel' =>
      match s with
      | "."%char :: r =>
          match number r with
          | Some (n, r') =>
              let (ns, r'') := release_tail r' fuel' in (n :: ns, r'')
          | None => ([], s)
          end
      | _ => ([], s)
      end
  end.

(** The post group: [-N], or the lettered form. *)
Definition post_group (s : list ascii) : option N * list ascii :=
  match s with
  | "-"%char :: r =>
      match number r with
      | Some (n, r') => (Some n, r')
      | None =>
          match letter_group post_words s with
          | (Some (_, n), r') => (Some n, r')
          | (None, r') => (None, r')
          end
      end
  | _ =>
      match letter_group post_words s with
      | (Some (_, n), r') => (Some n, r')
      | (None, r') => (None, r')
      end
  end.

Definition all_digits (s : list ascii) : bool := forallb is_digit s.

(** One segment of the local label, as [_parse_local_version] stores it. *)
Definition mk_local_seg (s : list ascii) : local_seg :=
  if all_digits s then LNum (fst (digits 0 s))
  else LStr (string_of_list_ascii (map lower s)).

(** [[a-z0-9]+(?:[-_\.][a-z0-9]+)*], entered on an alphanumeric
    character; [cur] is the segment being read, in reverse. *)
Fixpoint local_segments (cur : list ascii) (s : list ascii)
  : list local_seg * list ascii :=
  match s with
  | c :: r =>
      if is_alnum c then local_segments (c :: cur) r
      else if is_sep c then
        match r with
        | d :: _ =>
            if is_alnum d then
              let (segs, rest) := local_segments [] r in
              (mk_local_seg (rev cur) :: segs, rest)
            else ([mk_local_seg (rev cur)], s)
        | [] => ([mk_local_seg (rev cur)], s)
        end
      else ([mk_local_seg (rev cur)], s)
  | [] => ([mk_local_seg (rev cur)], [])
  end.

(** [(?:\+local)?] *)
Definition local_group (s : list ascii) : option (list local_seg) * list ascii :=
  match s with
  | "+"%char :: ((c :: _) as r) =>
      if is_alnum c then
        let (segs, rest) := local_segments [] r in (Some segs, rest)
      else (None, s)
  | _ => (None, s)
  end.

(** The whole expression; [None] when the string does not match. *)
Definition regex_match (str : string) : option Version :=
  let s0 := skip_spaces (list_ascii_of_string str) in
  let s1 := match s0 with
            | c :: r => if Ascii.eqb (lower c) "v" then r else s0
            | [] => []
            end in
  match number s1 with
  | None => None
  | Some (n0, s2) =>
      (* the digits are the epoch when a "!" and a number follow *)
      let '(ep, first, s3) :=
        match s2 with
        | "!"%char :: r =>
            match number r with
            | Some (n1, r') => (n0, n1, r')
            | None => (0%N, n0, s2)
            end
        | _ => (0%N, n0, s2)
        end in
      let (rel, s4) := release_tail s3 (List.length s3) in
      let (p, s5) := letter_group pre_words s4 in
      let (po, s6) := post_group s5 in
      let (d, s7) := letter_group dev_words s6 in
      let (lo, s8) := local_group s7 in
      match skip_spaces s8 with
      | [] => Some (mkVersion ep (first :: rel) p po
                      (match d with Some (_, n) => Some n | None => None end) lo)
      | _ :: _ => None
      end
  end.

(** [PEP440_RE.match(s)] as a truth value. *)
Definition PEP440_RE_match (s : string) : bool := isSome (regex_match s).

(** [Version(s)]: [None] stands for [InvalidVersion]. *)
Definition parse (s : string) : option Version := regex_match s.

Definition show_N (n : N) : string :=
  DecimalString.NilZero.string_of_uint (N.to_uint n).

Fixpoint join_dot (l : list N) : string :=
  match l with
  | [] => ""
  | [n] => show_N n
  | n :: r => show_N n ++ "." ++ join_dot r
  end.

(** [Version.public]: [str(self)] without the local segment. *)
Definition public (v : Version) : string :=
  (if N.eqb (epoch v) 0 then "" else show_N (epoch v) ++ "!")
  ++ join_dot (release v)
  ++ match pre v with Some (l, n) => pre_letter_str l ++ show_N n | None => "" end
  ++ match post v with Some n => ".post" ++ show_N n | None => "" end
  ++ match dev v with Some n => ".dev" ++ show_N n | None => "" end.

Definition is_devrelease (v : Version) : bool := isSome (dev v).
Definition is_prerelease (v : Version) : bool := isSome (dev v) || isSome (pre v).

End PEP440.

Import PEP440.

(* ===================================================================== *)
(** ** catalog.py: version dictionaries                                   *)
(* ===================================================================== *)

(** A [versions] dictionary: label to URL. *)
Definition versions_t : Type := sdict string.

Definition protected : list string := ["latest"; "main"; "master"; "stable"].

Definition is_protected (k : string) : bool :=
  existsb (String.eqb k) protected.

(** [{Version(k): k for k in vdict.keys()
      if (k not in protected) and PEP440_RE.match(k)}] *)
Definition reorder_version_map (vdict : versions_t) : Dict.t Version string :=
  fold_left
    (fun vm k =>
       if negb (is_protected k) && PEP440_RE_match k then
         match parse k with
         | Some ver => Dict.set veq vm ver k
         | None => vm  (* not reached: [Version] accepts what the regex does *)
         end
       else vm)
    (Dict.keys vdict) [].

(** [_reorder_versions]: the subscripts [version_map[version]] and
    [vdict[...]] cannot fail, their keys are taken from the dictionaries. *)
Definition _reorder_versions (vdict : versions_t) : versions_t :=
  (* these keys come always first, if available *)
  let retval0 :=
    fold_left
      (fun rv key =>
         match sget vdict key with
         | Some u => sset rv key u
         | None => rv
         end)
      protected [] in
  (* next, are releases in reverse order *)
  let version_map := reorder_version_map vdict in
  let retval1 :=
    fold_left
      (fun rv version =>
         match Dict.get veq version_map version with
         | Some label =>
             match sget vdict label with
             | Some u => sset rv label u
             | None => rv
             end
         | None => rv
         end)
      (sorted_reverse vlt (Dict.keys version_map)) retval0 in
  (* now, everything else *)
  supdate retval1 (filter (fun kv => negb (shas retval1 (fst kv))) vdict).

(** [_string2version] *)
Definition _string2version (v : string) : option Version :=
  parse (replace_dotx v).

(** Equality of the keys of [version_map] in [_prepare_versions]: [None]
    or a version. *)
Definition oveq (a b : option Version) : bool :=
  match a, b with
  | None, None => true
  | Some x, Some y => veq x y
  | _, _ => false
  end.

(** [{_string2version(k): k for k in versions.keys()}] *)
Definition prepare_version_map (versions : versions_t)
  : Dict.t (option Version) string :=
  fold_left (fun vm k => Dict.set oveq vm (_string2version k) k)
            (Dict.keys versions) [].

(** [[k for k in version_map.keys() if k is not None]] *)
Fixpoint not_none {A} (l : list (option A)) : list A :=
  match l with
  | [] => []
  | Some a :: r => a :: not_none r
  | None :: r => not_none r
  end.

(** [versions[version_map[k]]]; neither subscript can fail. *)
Definition label_of (version_map : Dict.t (option Version) string) (k : Version)
  : string :=
  Dict.get_default oveq version_map (Some k) "".

Definition url_of (versions : versions_t)
  (version_map : Dict.t (option Version) string) (k : Version) : string :=
  Dict.get_default String.eqb versions (label_of version_map k) "".

(** One round of the loop that fills in the versions. *)
Definition register (versions : versions_t)
  (version_map : Dict.t (option Version) string)
  (retval : versions_t) (k : Version) : versions_t :=
  let label := label_of version_map k in
  let url := url_of versions version_map k in
  let retval := sset retval label url in
  if contains_dotx label then
    (* copy to a shortened version number as well *)
    sset retval (replace_dotx label) url
  else if negb (String.eqb (public k) label) then
    (* copy a standardised version number as well *)
    sset retval (public k) url
  else retval.

(** [a or b or c or d or ""] over [versions.get]. *)
Definition alias_chain (versions : versions_t) (order : list string) : string :=
  match fold_right (fun key acc => py_or (sget versions key) acc) None order with
  | Some u => u
  | None => ""
  end.

(** [_prepare_versions] *)
Definition _prepare_versions (versions : versions_t) : versions_t :=
  match versions with
  | [] => versions
  | _ :: _ =>
      (* see what each valid number means *)
      let version_map := prepare_version_map versions in
      let sorted_versions := sorted vlt (not_none (Dict.keys version_map)) in
      match rev sorted_versions with
      | latest :: _ =>
          (* there is at least 1 (valid) version number *)
          let retval :=
            sset [] "latest"
              (Dict.get_default String.eqb versions "latest"
                 (url_of versions version_map latest)) in
          let stable_versions :=
            filter (fun k => negb (is_prerelease k || is_devrelease k))
                   sorted_versions in
          let stable :=
            match rev stable_versions with
            | s :: _ => s
            | [] => latest
            end in
          let retval :=
            sset retval "stable"
              (Dict.get_default String.eqb versions "stable"
                 (url_of versions version_map stable)) in
          (* fill-in the remainder of the versions, leave latest on top *)
          fold_left (register versions version_map) (rev sorted_versions) retval
      | [] =>
          (* there is either nothing, or just aliases such as stable/latest *)
          let retval :=
            sset [] "latest"
              (alias_chain versions ["latest"; "stable"; "master"; "main"]) in
          sset retval "stable"
            (alias_chain versions ["stable"; "latest"; "master"; "main"])
      end
  end.

Definition numpy_versions : versions_t :=
  [("stable", "https://numpy.org/doc/stable/");
   ("devdocs", "https://numpy.org/devdocs/")].

(* ===================================================================== *)
(** ** catalog.py: the [Catalog] class                                    *)
(* ===================================================================== *)

(** [PackageDictionaryType]: the keys in use are ["versions"] and
    ["sources"]. *)
Definition PackageDictionaryType : Type := sdict (sdict string).

(** The [_data] attribute of a [Catalog]. *)
Definition Catalog : Type := sdict PackageDictionaryType.

(** What the program asks of the outside world, in the order it asks. *)
Inductive catalog_id : Type := UserCatalog | BuiltinCatalog.

Inductive event : Type :=
| FetchEnvironment (name : string)
| FetchRtd (name : string)
| FetchPypi (name : string) (max_entries : Z)
| Lookup (which : catalog_id) (pkg : string) (version : option string).

(** A catalog together with the history of the run. *)
Record cstate : Type := mkCstate {
  data : Catalog;
  calls : list event
}.

Definition empty_record : PackageDictionaryType :=
  [("versions", []); ("sources", [])].

(** [Catalog._ensure_defaults] *)
Definition _ensure_defaults (d : Catalog) (pkg : string) : Catalog :=
  let d := Dict.setdefault String.eqb d pkg empty_record in
  match sget d pkg with
  | Some rec =>
      let rec := Dict.setdefault String.eqb rec "versions" [] in
      let rec := Dict.setdefault String.eqb rec "sources" [] in
      sset d pkg rec
  | None => d  (* not reached: the key was just set *)
  end.

(** [name or pkg] *)
Definition name_or (name : option string) (pkg : string) : string :=
  match name with
  | Some n => if truthy n then n else pkg
  | None => pkg
  end.

Definition nonempty {A} (l : list A) : bool :=
  match l with [] => false | _ :: _ => true end.

Section Fetchers.

(** The three Source Fetchers reach the network and the installed
    environment; here they are oracles that may answer differently as
    the run proceeds (they see the history). *)
Variable docurls_from_environment : list event -> string -> versions_t.
Variable docurls_from_rtd : list event -> string -> versions_t.
Variable docurls_from_pypi : list event -> string -> Z -> versions_t.

(** The body shared by the three [update_versions_from_*] methods, which
    differ in the fetcher called and in the key written under
    ["sources"]. *)
Definition update_versions_from (source : string) (versions : versions_t)
  (ev : event) (st : cstate) (pkg name : string) : result (bool * cstate) :=
  let d := _ensure_defaults (data st) pkg in
  let tr := calls st ++ [ev] in
  if nonempty versions then
    rec <- getitem d pkg ;;
    vs <- getitem rec "versions" ;;
    let rec := sset rec "versions" (_reorder_versions (supdate vs versions)) in
    srcs <- getitem rec "sources" ;;
    let rec := sset rec "sources" (sset srcs source name) in
    Ok (true, mkCstate (sset d pkg rec) tr)
  else Ok (false, mkCstate d tr).

(** [Catalog.update_versions_from_environment] *)
Definition update_versions_from_environment (st : cstate) (pkg : string)
  (name : option string) : result (bool * cstate) :=
  let name := name_or name pkg in
  update_versions_from "environment"
    (docurls_from_environment (calls st) name)
    (FetchEnvironment name) st pkg name.

(** [Catalog.update_versions_from_rtd] *)
Definition update_versions_from_rtd (st : cstate) (pkg : string)
  (name : option string) : result (bool * cstate) :=
  let name := name_or name pkg in
  update_versions_from "readthedocs"
    (docurls_from_rtd (calls st) name)
    (FetchRtd name) st pkg name.

(** [Catalog.update_versions_from_pypi] *)
Definition update_versions_from_pypi (st : cstate) (pkg : string)
  (name : option string) (max_entries : Z) : result (bool * cstate) :=
  let name := name_or name pkg in
  update_versions_from "pypi"
    (docurls_from_pypi (calls st) name max_entries)
    (FetchPypi name max_entries) st pkg name.

(** The [names] argument of [update_versions]: source, then package, to
    the external name; [None] is the marker that skips the source. *)
Definition names_t : Type := sdict (sdict (option string)).

(** [names.get(action, {}).get(pkg, pkg)] *)
Definition name_for (names : names_t) (action pkg : string) : option string :=
  match sget (Dict.get_default String.eqb names action []) pkg with
  | Some n => n
  | None => Some pkg
  end.

(** The loop over [order] for one package; [break] ends it. *)
Fixpoint update_package (names : names_t) (pypi_max_entries : Z)
  (keep_going : bool) (pkg : string) (order : list string) (st : cstate)
  : result cstate :=
  match order with
  | [] => Ok st
  | action :: rest =>
      let continue st' := update_package names pypi_max_entries keep_going
                            pkg rest st' in
      let attempt (run : string -> result (bool * cstate)) :=
        match name_for names action pkg with
        | Some name =>
            r <- run name ;;
            let (ok, st') := r in
            if ok && negb keep_going then Ok st' else continue st'
        | None => continue st
        end in
      if String.eqb action "environment" then
        attempt (fun name => update_versions_from_environment st pkg (Some name))
      else if String.eqb action "readthedocs" then
        attempt (fun name => update_versions_from_rtd st pkg (Some name))
      else if String.eqb action "pypi" then
        attempt (fun name =>
                   update_versions_from_pypi st pkg (Some name) pypi_max_entries)
      else Raise (RuntimeError ("Unrecognized source: " ++ action)%string)
  end.

Definition default_order : list string := ["environment"; "readthedocs"; "pypi"].

(** [Catalog.update_versions] *)
Fixpoint update_versions (pkgs : list string) (order : list string)
  (names : names_t) (pypi_max_entries : Z) (keep_going : bool) (st : cstate)
  : result cstate :=
  match pkgs with
  | [] => Ok st
  | pkg :: pkgs' =>
      st' <- update_package names pypi_max_entries keep_going pkg order st ;;
      update_versions pkgs' order names pypi_max_entries keep_going st'
  end.

(** The [names] built by [self_update]: [info["sources"].get(src)] for
    every package and every source. *)
Fixpoint self_update_names (items : Catalog) (names : names_t) : result names_t :=
  match items with
  | [] => Ok names
  | (pkg, info) :: items' =>
      srcs <- getitem info "sources" ;;
      let names :=
        fold_left
          (fun nm src =>
             sset nm src (sset (Dict.get_default String.eqb nm src []) pkg
                               (sget srcs src)))
          default_order names in
      self_update_names items' names
  end.

(** [Catalog.self_update] *)
Definition self_update (st : cstate) : result cstate :=
  names <- self_update_names (data st)
             [("environment", []); ("readthedocs", []); ("pypi", [])] ;;
  update_versions (Dict.keys (data st)) default_order names 0 false st.

End Fetchers.

(* ===================================================================== *)
(** ** catalog.py: the [LookupCatalog] class                              *)
(* ===================================================================== *)

Record LookupCatalog : Type := mkLookup {
  _version_map : sdict versions_t;
  _package_map : sdict string
}.

(** [LookupCatalog.reset], reading the catalog the view was built over. *)
Fixpoint reset_from (items : Catalog) (catalog : Catalog) (lk : LookupCatalog)
  : result LookupCatalog :=
  match items with
  | [] => Ok lk
  | (pkg, _) :: items' =>
      rec <- getitem catalog pkg ;;
      vs <- getitem rec "versions" ;;
      let vm := sset (_version_map lk) pkg (_prepare_versions vs) in
      (* translations from Python, rtd.org or pypi.org names *)
      let pm := sset (_package_map lk) pkg pkg in
      srcs <- getitem rec "sources" ;;
      let pm := fold_left (fun acc v => sset acc v pkg) (Dict.values srcs) pm in
      reset_from items' catalog (mkLookup vm pm)
  end.

Definition reset (catalog : Catalog) : result LookupCatalog :=
  reset_from catalog catalog (mkLookup [] []).

(** [LookupCatalog.get]; the second test subscripts [_version_map] with the
    name as given. *)
Definition get (lk : LookupCatalog) (pkg : string) (version : option string)
  (default : option string) : result (option string) :=
  if negb (shas (_package_map lk) pkg) then Ok default
  else
    vm <- getitem (_version_map lk) pkg ;;
    match version with
    | None => Ok default  (* [None] is the key of no version *)
    | Some v =>
        if negb (shas vm v) then Ok default
        else
          canonical <- getitem (_package_map lk) pkg ;;
          vm' <- getitem (_version_map lk) canonical ;;
          u <- getitem vm' v ;;
          Ok (Some u)
    end.

(* ===================================================================== *)
(** ** __init__.py: the resolution driver                                 *)
(* ===================================================================== *)

(** [intersphinx_mapping]: name to [(address, objects_inv)]. *)
Definition mapping_t : Type := sdict (string * option string).

Inductive level : Type := INFO | WARNING | ERROR.

(** The messages of [__init__.py], by their text and arguments. *)
Inductive message : Type :=
| IgnoringRepeatedSetting (name : string)
| IgnoringReset (name curr newval : string)
| VersionNotInUserCatalog (p : string) (v : option string)
| VersionNotInBuiltinCatalog (p : string) (v : option string)
| NotInEnvironment (p : string)
| NotAtReadthedocs (p : string)
| NotAtPypi (p : string)
| CannotFindEntry (name : string).

Definition log_t : Type := list (level * message).

Definition option_string_eqb (a b : option string) : bool :=
  match a, b with
  | None, None => true
  | Some x, Some y => String.eqb x y
  | _, _ => false
  end.

(** The address shown in the conflict message: the directory, a slash, and
    the inventory file name. *)
Definition shown_address (addr : string) (objects_inv : option string) : string :=
  let a := (addr ++ (if negb (endswith addr "/") then "/" else ""))%string in
  (a ++ match objects_inv with
        | Some o => if truthy o then o else "objects.inv"
        | None => "objects.inv"
        end)%string.

(** [_add_index]: the new mapping and what was logged. *)
Definition _add_index (mapping : mapping_t) (name addr : string)
  (objects_inv : option string) : mapping_t * log_t :=
  match sget mapping name with
  | None => (sset mapping name (addr, objects_inv), [])
  | Some (a, o) =>
      if String.eqb a addr && option_string_eqb o objects_inv then
        (mapping, [(INFO, IgnoringRepeatedSetting name)])
      else
        (mapping,
         [(ERROR, IgnoringReset name (shown_address a o)
                    (shown_address addr objects_inv))])
  end.

(** An entry of [auto_intersphinx_packages]: a name, or a pair. *)
Inductive request : Type :=
| Name (p : string)
| Pair (p : string) (v : option string).

(** [p, v = k if isinstance(k, (tuple, list)) else (k, "stable")] *)
Definition unpack (k : request) : string * option string :=
  match k with
  | Name p => (p, Some "stable")
  | Pair p v => (p, v)
  end.

(** The objects the loop of [populate_intersphinx_mapping] works on. *)
Record dstate : Type := mkDstate {
  m : mapping_t;
  user_catalog : Catalog;
  user_lookup : LookupCatalog;
  log : log_t;
  history : list event
}.

Section Driver.

Variable docurls_from_environment : list event -> string -> versions_t.
Variable docurls_from_rtd : list event -> string -> versions_t.
Variable docurls_from_pypi : list event -> string -> Z -> versions_t.

Variable builtin_catalog : Catalog.
Variable builtin_lookup : LookupCatalog.

Definition add_index (st : dstate) (p addr : string) : dstate :=
  let (m', l) := _add_index (m st) p addr None in
  mkDstate m' (user_catalog st) (user_lookup st) (log st ++ l) (history st).

Definition logged (st : dstate) (lv : level) (msg : message) : dstate :=
  mkDstate (m st) (user_catalog st) (user_lookup st) (log st ++ [(lv, msg)])
           (history st).

Definition consulted (st : dstate) (which : catalog_id) (p : string)
  (v : option string) : dstate :=
  mkDstate (m st) (user_catalog st) (user_lookup st) (log st)
           (history st ++ [Lookup which p v]).

(** One of the three stages that fetch into the user catalog, rebuild
    the view and look the package up again. *)
Definition fetch_stage
  (update : cstate -> result (bool * cstate)) (st : dstate)
  (p : string) (v : option string) : result (option string * dstate) :=
  r <- update (mkCstate (user_catalog st) (history st)) ;;
  let cs := snd r in
  lk <- reset (data cs) ;;
  let st := mkDstate (m st) (data cs) lk (log st) (calls cs) in
  let st := consulted st UserCatalog p v in
  addr <- get lk p v None ;;
  Ok (addr, st).

(** The body of the loop over [auto_intersphinx_packages]; [continue]
    is the early [Ok]. *)
Definition resolve (st : dstate) (k : request) : result dstate :=
  let (p, v) := unpack k in
  let st := consulted st UserCatalog p v in
  addr <- get (user_lookup st) p v None ;;
  match addr with
  | Some a => Ok (add_index st p a)
  | None =>
  let st := if shas (user_catalog st) p
            then logged st WARNING (VersionNotInUserCatalog p v) else st in
  let st := consulted st BuiltinCatalog p v in
  addr <- get builtin_lookup p v None ;;
  match addr with
  | Some a => Ok (add_index st p a)
  | None =>
  let st := if shas builtin_catalog p
            then logged st INFO (VersionNotInBuiltinCatalog p v) else st in
  (* try to see if the package is installed using the user catalog *)
  r <- fetch_stage
         (fun cs => update_versions_from_environment
                      docurls_from_environment cs p None) st p v ;;
  let (addr, st) := r in
  match addr with
  | Some a => Ok (add_index st p a)
  | None =>
  let st := logged st INFO (NotInEnvironment p) in
  (* try to see if the package is available on readthedocs.org *)
  r <- fetch_stage
         (fun cs => update_versions_from_rtd docurls_from_rtd cs p None)
         st p v ;;
  let (addr, st) := r in
  match addr with
  | Some a => Ok (add_index st p a)
  | None =>
  let st := logged st INFO (NotAtReadthedocs p) in
  r <- fetch_stage
         (fun cs => update_versions_from_pypi docurls_from_pypi cs p None 0)
         st p v ;;
  let (addr, st) := r in
  match addr with
  | Some a => Ok (add_index st p a)
  | None =>
  let st := logged st INFO (NotAtPypi p) in
  (* the package name was not resolved - emit an error and continue *)
  let name := match v with
              | Some v' => (p ++ "@" ++ v')%string
              | None => p
              end in
  Ok (logged st ERROR (CannotFindEntry name))
  end end end end end.

(** The loop of [populate_intersphinx_mapping]. *)
Fixpoint resolve_all (st : dstate) (ks : list request) : result dstate :=
  match ks with
  | [] => Ok st
  | k :: ks' => st' <- resolve st k ;; resolve_all st' ks'
  end.

End Driver.

(** [populate_intersphinx_mapping] from the catalogs as loaded (the
    built-in one, and the user's or an empty one) to the end of the loop;
    reading the files before and saving the user catalog after are left
    out. *)
Definition populate_intersphinx_mapping
  (docurls_from_environment docurls_from_rtd : list event -> string -> versions_t)
  (docurls_from_pypi : list event -> string -> Z -> versions_t)
  (intersphinx_mapping : mapping_t) (builtin_catalog user_catalog : Catalog)
  (auto_intersphinx_packages : list request) : result dstate :=
  builtin_lookup <- reset builtin_catalog ;;
  user_lookup <- reset user_catalog ;;
  resolve_all docurls_from_environment docurls_from_rtd docurls_from_pypi
    builtin_catalog builtin_lookup
    (mkDstate intersphinx_mapping user_catalog user_lookup [] [])
    auto_intersphinx_packages.

(* ===================================================================== *)
(** ** catalog.py: [Catalog.dumps] and [Catalog.loads]                    *)
(* ===================================================================== *)

(** The two methods hand the data to [json.dumps(..., indent=2)] and take
    it back from [json.loads]; the module below writes and reads the
    documents these produce for the data of a catalog. *)
Module JSON.

Definition dquote : ascii := ascii_of_N 34.
Definition backslash : ascii := ascii_of_N 92.
Definition newline : ascii := ascii_of_N 10.

(** A lower-case hexadecimal digit, as ['{0:04x}'.format] prints it. *)
Definition hex_char (n : N) : ascii :=
  if N.ltb n 10 then ascii_of_N (48 + n)%N else ascii_of_N (87 + n)%N.

(** [int(c, 16)] for one digit, in either case. *)
Definition hex_value (c : ascii) : option N :=
  let n := N_of_ascii c in
  if N.leb 48 n && N.leb n 57 then Some (n - 48)%N
  else if N.leb 97 n && N.leb n 102 then Some (n - 87)%N
  else if N.leb 65 n && N.leb n 70 then Some (n - 55)%N
  else None.

(** [ESCAPE_DCT] of [json.encoder] with [ensure_ascii]: the quote, the
    backslash and every character outside [' '..'~'] are escaped. *)
Definition escape (c : ascii) : list ascii :=
  let n := N_of_ascii c in
  if N.eqb n 34 then [backslash; dquote]
  else if N.eqb n 92 then [backslash; backslash]
  else if N.eqb n 10 then [backslash; "n"%char]
  else if N.eqb n 13 then [backslash; "r"%char]
  else if N.eqb n 9 then [backslash; "t"%char]
  else if N.eqb n 12 then [backslash; "f"%char]
  else if N.eqb n 8 then [backslash; "b"%char]
  else if N.ltb n 32 || N.ltb 126 n then
    [backslash; "u"%char; "0"%char; "0"%char; hex_char (n / 16)%N; hex_char (n mod 16)%N]
  else [c].

(** The encoders write in front of the text that follows ([tail]), the
    way the chunks of [_iterencode] follow one another. *)
Fixpoint escape_all (cs : list ascii) (tail : list ascii) : list ascii :=
  match cs with
  | [] => tail
  | c :: cs' => escape c ++ escape_all cs' tail
  end.

Definition encode_string (s : string) (tail : list ascii) : list ascii :=
  dquote :: escape_all (list_ascii_of_string s) (dquote :: tail).

Fixpoint spaces (n : nat) (tail : list ascii) : list ascii :=
  match n with
  | O => tail
  | S n' => " "%char :: spaces n' tail
  end.

(** ['\n' + ' ' * (2 * level)] *)
Definition newline_indent (level : nat) (tail : list ascii) : list ascii :=
  newline :: spaces (2 * level) tail.

(** The items of a non-empty dictionary, [item_separator] between them
    and [": "] after each key. *)
Fixpoint encode_members {V} (ev : V -> list ascii -> list ascii) (level : nat)
  (ms : list (string * V)) (tail : list ascii) : list ascii :=
  match ms with
  | [] => tail
  | (k, v) :: ms' =>
      encode_string k
        (":"%char :: " "%char ::
         ev v (match ms' with
               | [] => tail
               | _ :: _ => ","%char :: newline_indent level
                                         (encode_members ev level ms' tail)
               end))
  end.

(** [_iterencode_dict] at nesting depth [level], with [indent=2]. *)
Definition encode_object {V} (ev : nat -> V -> list ascii -> list ascii)
  (level : nat) (d : sdict V) (tail : list ascii) : list ascii :=
  match d with
  | [] => "{"%char :: "}"%char :: tail
  | _ :: _ =>
      "{"%char ::
      newline_indent (S level)
        (encode_members (ev (S level)) (S level) d
           (newline_indent level ("}"%char :: tail)))
  end.

(** JSON white space. *)
Definition is_ws (c : ascii) : bool :=
  let n := N_of_ascii c in
  N.eqb n 32 || N.eqb n 9 || N.eqb n 10 || N.eqb n 13.

Fixpoint skip_ws (s : list ascii) : list ascii :=
  match s with
  | c :: r => if is_ws c then skip_ws r else s
  | [] => []
  end.

(** [BACKSLASH] of [json.decoder]. *)
Definition unescape (c : ascii) : option ascii :=
  let n := N_of_ascii c in
  if N.eqb n 34 then Some dquote
  else if N.eqb n 92 then Some backslash
  else if N.eqb n 47 then Some "/"%char
  else if N.eqb n 98 then Some (ascii_of_N 8)
  else if N.eqb n 102 then Some (ascii_of_N 12)
  else if N.eqb n 110 then Some (ascii_of_N 10)
  else if N.eqb n 114 then Some (ascii_of_N 13)
  else if N.eqb n 116 then Some (ascii_of_N 9)
  else None.

(** [scanstring], entered after the opening quote, in strict mode: a raw
    control character is an error; a [\uXXXX] above 255 is outside the
    characters of this embedding and is refused as well. *)
Fixpoint scan_string (s : list ascii) : option (list ascii * list ascii) :=
  match s with
  | [] => None
  | c :: r =>
      if Ascii.eqb c dquote then Some ([], r)
      else if Ascii.eqb c backslash then
        match r with
        | [] => None
        | e :: r' =>
            if Ascii.eqb e "u" then
              match r' with
              | h1 :: h2 :: h3 :: h4 :: r'' =>
                  match hex_value h1, hex_value h2, hex_value h3, hex_value h4 with
                  | Some a, Some b, Some x, Some y =>
                      if N.eqb a 0 && N.eqb b 0 then
                        match scan_string r'' with
                        | Some (cs, rest) => Some (ascii_of_N (16 * x + y)%N :: cs, rest)
                        | None => None
                        end
                      else None
                  | _, _, _, _ => None
                  end
              | _ => None
              end
            else
              match unescape e with
              | Some ch =>
                  match scan_string r' with
                  | Some (cs, rest) => Some (ch :: cs, rest)
                  | None => None
                  end
              | None => None
              end
        end
      else if N.ltb (N_of_ascii c) 32 then None
      else
        match scan_string r with
        | Some (cs, rest) => Some (c :: cs, rest)
        | None => None
        end
  end.

(** A JSON string, where a string is the only value accepted. *)
Definition decode_string (s : list ascii) : option (string * list ascii) :=
  match s with
  | c :: r =>
      if Ascii.eqb c dquote then
        match scan_string r with
        | Some (cs, rest) => Some (string_of_list_ascii cs, rest)
        | None => None
        end
      else None
  | [] => None
  end.

(** The loop of [JSONObject], entered on the quote of a key; the pairs go
    into a dictionary as they come. *)
Fixpoint decode_members {V} (pv : list ascii -> option (V * list ascii))
  (fuel : nat) (acc : sdict V) (s : list ascii) : option (sdict V * list ascii) :=
  match fuel with
  | O => None
  | S fuel' =>
      match decode_string s with
      | None => None
      | Some (key, r1) =>
          match skip_ws r1 with
          | ":"%char :: r2 =>
              match pv (skip_ws r2) with
              | None => None
              | Some (v, r3) =>
                  let acc' := sset acc key v in
                  match skip_ws r3 with
                  | "}"%char :: r4 => Some (acc', r4)
                  | ","%char :: r4 => decode_members pv fuel' acc' (skip_ws r4)
                  | _ => None
                  end
              end
          | _ => None
          end
      end
  end.

(** [JSONObject], where an object is the only value accepted. *)
Definition decode_object {V} (pv : list ascii -> option (V * list ascii))
  (s : list ascii) : option (sdict V * list ascii) :=
  match s with
  | "{"%char :: r =>
      match skip_ws r with
      | "}"%char :: r' => Some ([], r')
      | r' => decode_members pv (List.length r') [] r'
      end
  | _ => None
  end.

(** The values of the three levels of a catalog. *)
Definition encode_versions (level : nat) (d : sdict string) :=
  encode_object (fun _ s => encode_string s) level d.
Definition encode_record (level : nat) (d : PackageDictionaryType) :=
  encode_object encode_versions level d.
Definition encode_catalog (d : Catalog) : list ascii :=
  encode_object encode_record 0 d [].

Definition decode_versions := decode_object decode_string.
Definition decode_record := decode_object decode_versions.
Definition decode_catalog := decode_object decode_record.

(** [json.dumps(data, indent=2)] for the data of a catalog. *)
Definition dumps (d : Catalog) : string :=
  string_of_list_ascii (encode_catalog d).

(** [json.loads(contents)], typed: a document that is not an object of
    objects of objects of strings is refused here ([json.loads] itself
    would return a value that is no catalog). *)
Definition loads (contents : string) : result Catalog :=
  match decode_catalog (skip_ws (list_ascii_of_string contents)) with
  | Some (d, rest) =>
      match skip_ws rest with
      | [] => Ok d
      | _ :: _ => Raise JSONDecodeError
      end
  | None => Raise JSONDecodeError
  end.

End JSON.

(** [Catalog.dumps] *)
Definition Catalog_dumps (self : Catalog) : string := JSON.dumps self.

(** [Catalog.loads]: the new [_data]; the previous one is dropped. *)
Definition Catalog_loads (self : Catalog) (contents : string) : result Catalog :=
  JSON.loads contents.

(** A kind of value of the serialized catalog: how it is written at a
    nesting depth, how it is read, and which values are well formed. *)
Class Codec (V : Type) : Type := {
  enc : nat -> V -> list ascii -> list ascii;
  dec : list ascii -> option (V * list ascii);
  wf : V -> Prop
}.

Unset Implicit Arguments.
Class CodecLaws (V : Type) {C : Codec V} : Prop := {
  dec_enc : forall level v tail, wf v -> dec (enc level v tail) = Some (v, tail);
  enc_head : forall level v tail,
    JSON.skip_ws (enc level v tail) = enc level v tail;
  enc_length : forall level v tail,
    List.length tail <= List.length (enc level v tail)
}.
Set Implicit Arguments.

(** A dictionary is well formed when its keys are pairwise different and
    its values are well formed. *)
Definition wf_dict {V} (wfv : V -> Prop) (d : sdict V) : Prop :=
  NoDup (Dict.keys d) /\ forall k v, In (k, v) d -> wfv v.

#[export] Instance Codec_string : Codec string := {
  enc := fun _ s => JSON.encode_string s;
  dec := JSON.decode_string;
  wf := fun _ => True
}.

#[export] Instance Codec_dict {V} {CV : Codec V} : Codec (sdict V) := {
  enc := JSON.encode_object enc;
  dec := JSON.decode_object dec;
  wf := wf_dict wf
}.

(** The catalogs a program can hold: at each of the three levels the
    keys of a dictionary are pairwise different. *)
Definition wf_catalog (c : Catalog) : Prop :=
  NoDup (Dict.keys c)
  /\ forall pkg rec, In (pkg, rec) c ->
       NoDup (Dict.keys rec)
       /\ forall key d, In (key, d) rec -> NoDup (Dict.keys d).

(* ===================================================================== *)
(** ** catalog.py: [_ensure_webdir]                                       *)
(* ===================================================================== *)

(** [s.rfind(c)]: the index of the last [c], or [-1]. *)
Fixpoint rfind_index (c : ascii) (s : string) : option nat :=
  match s with
  | EmptyString => None
  | String a r =>
      match rfind_index c r with
      | Some i => Some (S i)
      | None => if Ascii.eqb a c then Some O else None
      end
  end.

Definition rfind (c : ascii) (s : string) : Z :=
  match rfind_index c s with
  | Some i => Z.of_nat i
  | None => (-1)%Z
  end.

(** [s[:i]]: a negative [i] counts from the end. *)
Definition slice_to (s : string) (i : Z) : string :=
  if (i <? 0)%Z then substring 0 (String.length s - Z.to_nat (- i)) s
  else substring 0 (Z.to_nat i) s.

(** [_ensure_webdir] *)
Definition _ensure_webdir (addr : string) : string :=
  let addr := if endswith addr ".html" then slice_to addr (rfind "/" addr)
              else addr in
  if negb (endswith addr "/") then (addr ++ "/")%string else addr.

(* ===================================================================== *)
(** ** catalog.py: [Catalog.load] and [Catalog.dump]                      *)
(* ===================================================================== *)

(** The files the two methods touch: path to contents. Opening a file
    that a directory or a permission refuses is left out. *)
Definition files_t : Type := sdict string.

Inductive file_exn : Type :=
| FileNotFoundError (path : string)
| ValueError
| Other (e : exn).

Inductive file_result (A : Type) : Type :=
| Done (a : A)
| Failed (e : file_exn).
Arguments Done {A} a.
Arguments Failed {A} e.

Section Files.

(** [pathlib] is not part of the program: [path.suffix] and
    [path.with_suffix(s)], where [None] stands for its [ValueError]. *)
Variable suffix : string -> string.
Variable with_suffix : string -> string -> option string.

(** [Catalog.load]: the new [_data]. *)
Definition Catalog_load (fs : files_t) (self : Catalog) (path : string)
  : file_result Catalog :=
  match sget fs path with
  | None => Failed (FileNotFoundError path)
  | Some contents =>
      match JSON.loads contents with
      | Ok d => Done d
      | Raise e => Failed (Other e)
      end
  end.

(** [Catalog.dump]: the files afterwards. *)
Definition Catalog_dump (fs : files_t) (self : Catalog) (path : string)
  : file_result files_t :=
  let backed_up :=
    match sget fs path with
    | Some contents =>
        match with_suffix path (suffix path ++ "~")%string with
        | Some backup => Done (sset fs backup contents)  (* backup *)
        | None => Failed ValueError
        end
    | None => Done fs
    end in
  match backed_up with
  | Done fs =>
      Done (sset fs path (JSON.dumps self ++ String JSON.newline "")%string)
  | Failed e => Failed e
  end.

(** The end of [populate_intersphinx_mapping]: the user catalog is saved
    when a path was configured and the catalog is not empty.
    [user_catalog_file] is the path as resolved against the configuration
    directory, [None] when no path was configured; the answer tells
    whether the file was written. *)
Definition save_user_catalog (fs : files_t) (user_catalog_file : option string)
  (user_catalog : Catalog) : file_result (files_t * bool) :=
  match user_catalog_file with
  | Some file =>
      if nonempty user_catalog then
        let current_contents :=
          match sget fs file with
          | Some contents => contents
          | None => ""%string
          end in
        if negb (String.eqb current_contents (Catalog_dumps user_catalog)) then
          match Catalog_dump fs user_catalog file with
          | Done fs' => Done (fs', true)
          | Failed e => Failed e
          end
        else Done (fs, false)
      else Done (fs, false)
  | None => Done (fs, false)
  end.

End Files.

(* ===================================================================== *)
(** ** update_catalog.py: [_parse_requirements]                           *)
(* ===================================================================== *)

(** [s.split()]: the maximal runs of characters that are no white space
    ([is_space] of the version pattern is [str.isspace]). *)
Fixpoint split_ws (s : string) : list string :=
  match s with
  | EmptyString => []
  | String c r =>
      if is_space c then split_ws r
      else
        match r with
        | EmptyString => [String c EmptyString]
        | String c' _ =>
            if is_space c' then String c EmptyString :: split_ws r
            else
              match split_ws r with
              | w :: ws => String c w :: ws
              | [] => [String c EmptyString]  (* not reached *)
              end
        end
  end.

Fixpoint lstrip (s : string) : string :=
  match s with
  | EmptyString => EmptyString
  | String c r => if is_space c then lstrip r else s
  end.

Fixpoint rstrip (s : string) : string :=
  match s with
  | EmptyString => EmptyString
  | String c r =>
      match rstrip r with
      | EmptyString => if is_space c then EmptyString else String c EmptyString
      | r' => String c r'
      end
  end.

(** [s.strip()] *)
Definition strip (s : string) : string := rstrip (lstrip s).

(** [s.startswith(prefix)] *)
Definition startswith (s prefix : string) : bool := String.prefix prefix s.

(** [re.compile(r"[=\s]+").split(k)[0]]: what comes before the first
    [=] or white space. *)
Fixpoint before_separator (k : string) : string :=
  match k with
  | EmptyString => EmptyString
  | String c r =>
      if Ascii.eqb c "=" || is_space c then EmptyString
      else String c (before_separator r)
  end.

(** [_parse_requirements] *)
Definition _parse_requirements (contents : string) : list string :=
  let lines := split_ws contents in
  let lines :=
    map strip (filter (fun k => negb (startswith (strip k) "#")) lines) in
  map before_separator lines.

(* ===================================================================== *)
(** ** catalog.py: the three fetchers                                     *)
(* ===================================================================== *)

(** What the fetchers and the command line raise: the exceptions of the
    catalogs, and those of the libraries they call. *)
Inductive error : Type :=
| Exn (e : exn)
| RequestException
| AttributeError
| TypeError
| ParserError.

(** How a call ends. *)
Inductive outcome (A : Type) : Type :=
| Returns (a : A)
| Raises (e : error).
Arguments Returns {A} a.
Arguments Raises {A} e.

(** A computation over a state that an exception leaves as it is: what
    was requested or printed before the exception stays requested or
    printed. *)
Definition run (S A : Type) : Type := S -> outcome A * S.

Definition ret {S A : Type} (a : A) : run S A := fun st => (Returns a, st).

Definition raise {S A : Type} (e : error) : run S A := fun st => (Raises e, st).

(** A value read from the outside world, or the exception of reading it. *)
Definition read {S A : Type} (o : outcome A) : run S A := fun st => (o, st).

Definition and_then {S A B : Type} (c : run S A) (k : A -> run S B) : run S B :=
  fun st =>
    match c st with
    | (Returns a, st') => k a st'
    | (Raises e, st') => (Raises e, st')
    end.

Notation "x <~ c1 ;; c2" := (and_then c1 (fun x => c2))
  (at level 61, c1 at next level, right associativity).

(** [md["version"]] on the metadata of an installed package: the header,
    or for a package without one, [None] or a [KeyError], by the version
    of [importlib.metadata]. *)
Inductive version_header : Type :=
| Header (v : string)
| HeaderNone
| HeaderKeyError.

(** What [importlib.metadata.metadata] gives for an installed package:
    the [Project-URL] entries ([None] when [get_all] finds none) and the
    [version] entry. *)
Record package_metadata : Type := mkMetadata {
  project_url : option (list string);
  md_version : version_header
}.

(** A link of class [module-item-title] of a page of readthedocs.org: its
    text ([k.text] is [None] for a link that starts with an element) and
    its [href] attribute, if it has one. *)
Record link : Type := mkLink {
  link_text : option string;
  link_href : option string
}.

(** The answer of readthedocs.org to [requests.get]: nothing ([ok] is
    false, or a [RequestException]), a text that [lxml.html.fromstring]
    refuses with an exception, or a page with its links. *)
Inductive page : Type :=
| NoPage
| Unparsable (e : error)
| Links (links : list link).

(** The part of a JSON reply of pypi.org that the program reads, each
    with the exception that reading it raises, if any:
    [data["info"]["project_urls"]] (an object with strings as values, or
    [null]), [data["info"]["version"]] and the keys of
    [data["releases"]]. *)
Record pypi_reply : Type := mkReply {
  project_urls : outcome (option (sdict string));
  info_version : outcome string;
  releases : outcome (list string)
}.

(** The calls to the outside world, in order. *)
Inductive web_request : Type :=
| Metadata (package : string)
| Head (url : string)
| Get (url : string).

(** What a fetcher returns: a dictionary from labels to URLs, where a
    label is a string, or [None] where the program takes as key a value
    that is [None]. *)
Definition found_t : Type := Dict.t (option string) string.

(** An integer or a string, as [argparse] gives them. *)
Inductive pyval : Type :=
| PyInt (n : Z)
| PyStr (s : string).

(** [v >= 0] *)
Definition ge_zero (v : pyval) : outcome bool :=
  match v with
  | PyInt n => Returns (0 <=? n)%Z
  | PyStr _ => Raises TypeError
  end.

(** [l[:v]] where [v >= 0] holds. *)
Definition slice_upto (A : Type) (l : list A) (v : pyval) : list A :=
  match v with
  | PyInt n => firstn (Z.to_nat n) l
  | PyStr _ => l
  end.

(** [k.split(",", 1)[1]] for a string with a comma. *)
Fixpoint after_comma (k : string) : string :=
  match k with
  | EmptyString => EmptyString
  | String c r => if Ascii.eqb c "," then r else after_comma r
  end.

Section World.

(** The outside world: the installed packages ([None] for
    [PackageNotFoundError]); the answer to [requests.head(url).ok]
    ([None] for a [RequestException], which no fetcher catches around
    it); the pages of readthedocs.org; and what [requests.get(url)]
    followed by [r.json()] gives at pypi.org: [Returns None] for an
    answer that is not [ok] or a [RequestException], [Raises] for an
    exception of [r.json()] that is no [RequestException]. *)
Variable metadata : string -> option package_metadata.
Variable head : string -> option bool.
Variable get_page : string -> page.
Variable get_json : string -> outcome (option pypi_reply).

(** [requests.head(url).ok] *)
Definition requests_head (url : string) : run (list web_request) bool :=
  fun trace =>
    (match head url with
     | Some ok => Returns ok
     | None => Raises RequestException
     end,
     trace ++ [Head url]).

(** The loop of [docurls_from_environment] over the [Project-URL]
    entries; the first documentation address whose inventory answers
    ends it. *)
Fixpoint first_documentation (md : package_metadata) (urls : list string)
  : run (list web_request) found_t :=
  match urls with
  | [] => ret []
  | k :: rest =>
      if startswith k "documentation, " || startswith k "Documentation, " then
        let addr := _ensure_webdir (strip (after_comma k)) in
        ok <~ requests_head (addr ++ "/objects.inv")%string ;;
        if ok then
          match md_version md with
          | Header v => ret [(Some v, addr)]
          | HeaderNone => ret [(None, addr)]
          | HeaderKeyError => ret [(Some "latest", addr)]
          end
        else first_documentation md rest
      else first_documentation md rest
  end.

(** [docurls_from_environment] *)
Definition docurls_from_environment (package : string)
  : run (list web_request) found_t :=
  fun trace =>
    let trace := trace ++ [Metadata package] in
    match metadata package with
    | Some md =>
        match project_url md with
        | None => (Returns [], trace)
        | Some urls => first_documentation md urls trace
        end
    | None => (Returns [], trace)
    end.

(** The dictionary comprehension of [docurls_from_rtd]: a link without
    [href] raises [KeyError]. *)
Fixpoint rtd_links (links : list link) (d : found_t) : outcome found_t :=
  match links with
  | [] => Returns d
  | k :: rest =>
      match link_href k with
      | None => Raises (Exn (KeyError "href"))
      | Some href =>
          if startswith href "http"
          then rtd_links rest
                 (Dict.set option_string_eqb d (link_text k) (_ensure_webdir href))
          else rtd_links rest d
      end
  end.

(** [docurls_from_rtd] *)
Definition docurls_from_rtd (package : string) : run (list web_request) found_t :=
  fun trace =>
    let url := ("https://readthedocs.org/projects/" ++ package ++ "/versions/")%string in
    let trace := trace ++ [Get url] in
    match get_page url with
    | Links links => (rtd_links links [], trace)
    | Unparsable e => (Raises e, trace)
    | NoPage => (Returns [], trace)
    end.

(** [_get_json] *)
Definition _get_json (url : string) : run (list web_request) (option pypi_reply) :=
  fun trace => (get_json url, trace ++ [Get url]).

(** The lines of [docurls_from_pypi] that read the documentation address
    of a reply and keep it when its inventory answers. *)
Definition record_documentation (data : pypi_reply) (versions : found_t)
  : run (list web_request) found_t :=
  urls <~ read (project_urls data) ;;
  match urls with
  | None => raise AttributeError
  | Some urls =>
      match py_or (sget urls "Documentation") (sget urls "documentation") with
      | Some addr =>
          let addr := _ensure_webdir addr in
          ok <~ requests_head (addr ++ "/objects.inv")%string ;;
          if ok then
            version <~ read (info_version data) ;;
            ret (Dict.set option_string_eqb versions (Some version) addr)
          else ret versions
      | None => ret versions
      end
  end.

(** [{Version(k): k for k in data["releases"].keys() if PEP440_RE.match(k)}] *)
Definition releases_version_map (labels : list string) : Dict.t Version string :=
  fold_left
    (fun vm k =>
       if PEP440_RE_match k then
         match parse k with
         | Some ver => Dict.set veq vm ver k
         | None => vm  (* not reached: [Version] accepts what the regex does *)
         end
       else vm)
    labels [].

(** The loop of [docurls_from_pypi] over [versions_to_probe]. *)
Fixpoint probe_releases (package : string) (version_map : Dict.t Version string)
  (versions_to_probe : list Version) (versions : found_t)
  : run (list web_request) found_t :=
  match versions_to_probe with
  | [] => ret versions
  | k :: rest =>
      data <~ _get_json ("https://pypi.org/pypi/" ++ package ++ "/"
                         ++ Dict.get_default veq version_map k "" ++ "/json")%string ;;
      match data with
      | None => probe_releases package version_map rest versions
      | Some data =>
          versions <~ record_documentation data versions ;;
          probe_releases package version_map rest versions
      end
  end.

(** [docurls_from_pypi] *)
Definition docurls_from_pypi (package : string) (max_entries : pyval)
  : run (list web_request) found_t :=
  data <~ _get_json ("https://pypi.org/pypi/" ++ package ++ "/json")%string ;;
  match data with
  | None => ret []
  | Some data =>
      versions <~ record_documentation data [] ;;
      (* download further versions, if requested by user *)
      labels <~ read (releases data) ;;
      let version_map := releases_version_map labels in
      let versions_to_probe := sorted_reverse vlt (Dict.keys version_map) in
      limited <~ read (ge_zero max_entries) ;;
      let versions_to_probe :=
        if limited then slice_upto versions_to_probe max_entries
        else versions_to_probe in
      probe_releases package version_map versions_to_probe versions
  end.

End World.

(* ===================================================================== *)
(** ** check_packages.py: the loop of [_main]                             *)
(* ===================================================================== *)

(** What [_main] prints, by its text and arguments. *)
Inductive report : Type :=
| FoundInUserCatalog (p : string) (versions : versions_t)
| FoundInBuiltinCatalog (p : string) (versions : versions_t)
| FoundInEnvironment (p : string) (versions : found_t)
| FoundAtReadthedocs (p : string) (versions : found_t)
| LookingUpPypi (p : string)
| FoundAtPypi (p : string) (versions : found_t).

(** The options of the command that the loop reads; [--pypi-max-entries]
    is declared without a type: it is the integer 0 by default and a
    string when given on the command line. *)
Record check_args : Type := mkCheckArgs {
  keep_going : bool;
  no_environment : bool;
  no_rtd : bool;
  no_pypi : bool;
  pypi_max_entries : pyval
}.

(** What the command has printed and requested. *)
Definition check_state : Type := (list report * list web_request)%type.

Definition print (r : report) : run check_state unit :=
  fun st => (Returns tt, (fst st ++ [r], snd st)).

(** The call of a fetcher. *)
Definition fetch (A : Type) (c : run (list web_request) A) : run check_state A :=
  fun st => let (r, trace) := c (snd st) in (r, (fst st, trace)).

(** [d[k]] on a catalog. *)
Definition subscript (S A : Type) (r : result A) : run S A :=
  fun st =>
    (match r with
     | Ok a => Returns a
     | Raise e => Raises (Exn e)
     end, st).

Section CheckPackages.

Variable metadata : string -> option package_metadata.
Variable head : string -> option bool.
Variable get_page : string -> page.
Variable get_json : string -> outcome (option pypi_reply).

Variable args : check_args.
Variable builtin_catalog : Catalog.
Variable user_catalog : Catalog.

(** The body of the loop over [args.packages]; [continue] is the early
    [ret tt]. *)
Definition check_package (p : string) : run check_state unit :=
  found <~ (if shas user_catalog p then
              rec <~ subscript (getitem user_catalog p) ;;
              versions <~ subscript (getitem rec "versions") ;;
              u <~ print (FoundInUserCatalog p versions) ;;
              ret true
            else ret false) ;;
  if found && negb (keep_going args) then ret tt else
  found <~ (if shas builtin_catalog p then
              rec <~ subscript (getitem builtin_catalog p) ;;
              versions <~ subscript (getitem rec "versions") ;;
              u <~ print (FoundInBuiltinCatalog p versions) ;;
              ret true
            else ret false) ;;
  if found && negb (keep_going args) then ret tt else
  found <~ (if negb (no_environment args) then
              versions <~ fetch (docurls_from_environment metadata head p) ;;
              if nonempty versions then
                u <~ print (FoundInEnvironment p versions) ;;
                ret true
              else ret false
            else ret false) ;;
  if found && negb (keep_going args) then ret tt else
  found <~ (if negb (no_rtd args) then
              versions <~ fetch (docurls_from_rtd get_page p) ;;
              if nonempty versions then
                u <~ print (FoundAtReadthedocs p versions) ;;
                ret true
              else ret false
            else ret false) ;;
  if found && negb (keep_going args) then ret tt else
  if negb (no_pypi args) then
    u <~ print (LookingUpPypi p) ;;
    versions <~ fetch (docurls_from_pypi head get_json p (pypi_max_entries args)) ;;
    if nonempty versions then print (FoundAtPypi p versions) else ret tt
  else ret tt.

(** The loop of [_main]. *)
Fixpoint check_packages (packages : list string) : run check_state unit :=
  match packages with
  | [] => ret tt
  | p :: rest => u <~ check_package p ;; check_packages rest
  end.

End CheckPackages.

(* ===================================================================== *)
(** ** Notions used to state the properties                               *)
(* ===================================================================== *)

(** No two keys of a dictionary are equivalent. *)
Definition distinct_keys {K : Type} (keq : K -> K -> bool) (l : list K) : Prop :=
  ForallOrdPairs (fun a b => keq a b = false) l.

(** The fallback chain read by presence alone: the first of the listed
    entries that is present, else the empty string. *)
Fixpoint first_present (entries : list (option string)) : string :=
  match entries with
  | [] => ""
  | Some u :: _ => u
  | None :: rest => first_present rest
  end.

(** The fallback chain as the code evaluates it: the first of the listed
    entries that is present with a non-empty URL, else the empty string. *)
Fixpoint first_nonempty (entries : list (option string)) : string :=
  match entries with
  | [] => ""
  | Some (String c u) :: _ => String c u
  | _ :: rest => first_nonempty rest
  end.

Inductive source_kind : Type := Environment | Readthedocs | Pypi.

Definition kind_key (kind : source_kind) : string :=
  match kind with
  | Environment => "environment"
  | Readthedocs => "readthedocs"
  | Pypi => "pypi"
  end.

Definition all_kinds : list source_kind := [Environment; Readthedocs; Pypi].

Section RelookupKnown.
Variable docurls_from_environment : list event -> string -> versions_t.
Variable docurls_from_rtd : list event -> string -> versions_t.
Variable docurls_from_pypi : list event -> string -> Z -> versions_t.

(** The per-source update operation, by kind; [self_update] leaves
    [pypi_max_entries] at 0. *)
Definition update_from (kind : source_kind) (st : cstate) (pkg name : string)
  : result (bool * cstate) :=
  match kind with
  | Environment =>
      update_versions_from_environment docurls_from_environment st pkg (Some name)
  | Readthedocs => update_versions_from_rtd docurls_from_rtd st pkg (Some name)
  | Pypi => update_versions_from_pypi docurls_from_pypi st pkg (Some name) 0
  end.

(** What [self_update] does for one package, told from the names recorded
    under its ["sources"]: a source with a recorded name is looked up again
    under that name, a source without one is passed over, and the first
    look-up that finds versions ends the package. *)
Fixpoint relookup_known (pkg : string) (srcs : sdict string)
  (kinds : list source_kind) (st : cstate) : result cstate :=
  match kinds with
  | [] => Ok st
  | kind :: rest =>
      match sget srcs (kind_key kind) with
      | None => relookup_known pkg srcs rest st
      | Some name =>
          r <- update_from kind st pkg name ;;
          if fst r then Ok (snd r) else relookup_known pkg srcs rest (snd r)
      end
  end.

Fixpoint relookup_all (rs : list (string * sdict string)) (st : cstate)
  : result cstate :=
  match rs with
  | [] => Ok st
  | (pkg, srcs) :: rs' =>
      st' <- relookup_known pkg srcs all_kinds st ;;
      relookup_all rs' st'
  end.

End RelookupKnown.

(** The recorded sources of every package, read before any look-up. *)
Fixpoint recorded_sources (items : Catalog) : result (list (string * sdict string)) :=
  match items with
  | [] => Ok []
  | (pkg, info) :: items' =>
      srcs <- getitem info "sources" ;;
      rs <- recorded_sources items' ;;
      Ok ((pkg, srcs) :: rs)
  end.

Definition names_table (E R P : sdict (option string)) : names_t :=
  [("environment", E); ("readthedocs", R); ("pypi", P)].

(** The column of [names] for one source after the packages [rs]. *)
Definition column (key : string) (rs : list (string * sdict string))
  (C : sdict (option string)) : sdict (option string) :=
  fold_left (fun acc ps => sset acc (fst ps) (sget (snd ps) key)) rs C.

(** The ["versions"] and ["sources"] of a package, empty when absent. *)
Definition versions_of (d : Catalog) (pkg : string) : versions_t :=
  match sget d pkg with
  | Some rec => Dict.get_default String.eqb rec "versions" []
  | None => []
  end.

Definition sources_of (d : Catalog) (pkg : string) : sdict string :=
  match sget d pkg with
  | Some rec => Dict.get_default String.eqb rec "sources" []
  | None => []
  end.

(** What is asked of one update, [found] being the fetcher's answer
    and [r] the outcome of the call from state [st]. *)
Definition keeps_versions (st : cstate) (pkg : string) (found : versions_t)
  (r : result (bool * cstate)) : Prop :=
  exists st',
    r = Ok (nonempty found, st')
    /\ (forall label, In label (Dict.keys (versions_of (data st) pkg)) ->
        In label (Dict.keys (versions_of (data st') pkg)))
    /\ (forall q, q <> pkg -> sget (data st') q = sget (data st) q)
    /\ (found = [] ->
        r = Ok (false, st')
        /\ data st' = _ensure_defaults (data st) pkg
        /\ versions_of (data st') pkg = versions_of (data st) pkg
        /\ sources_of (data st') pkg = sources_of (data st) pkg).

(** The versions in the order in which the loop of [_prepare_versions]
    visits them. *)
Definition visit_order (versions : versions_t) : list Version :=
  rev (sorted vlt (not_none (Dict.keys (prepare_version_map versions)))).

(** A string that does not start with [l] or [s]. *)
Definition head_ok (s : string) : bool :=
  match s with
  | EmptyString => true
  | String c _ => negb (Ascii.eqb c "l") && negb (Ascii.eqb c "s")
  end.

(** The keys written for the version [k] whose label is [label]: the
    label, the label without [".x"] when it has one, and otherwise the
    canonical string when it is not the label. *)
Definition registers (label : string) (k : Version) (x : string) : bool :=
  String.eqb label x
  || (if contains_dotx label then String.eqb (replace_dotx label) x
      else negb (String.eqb (public k) label) && String.eqb (public k) x).

(** The test of [stable_versions]. *)
Definition is_final (k : Version) : bool :=
  negb (is_prerelease k || is_devrelease k).

(** [L], parsed as [k], is a label of greatest version among the labels
    whose version passes [ok]. *)
Definition greatest (versions : versions_t) (ok : Version -> bool)
  (L : string) (k : Version) : Prop :=
  In L (Dict.keys versions) /\ _string2version L = Some k /\ ok k = true
  /\ forall l' k', In l' (Dict.keys versions) -> _string2version l' = Some k' ->
                   ok k' = true -> vlt k k' = false.

(** No two labels parse to equal versions. *)
Definition distinct_versions (versions : versions_t) : Prop :=
  forall l1 l2 k1 k2,
    In l1 (Dict.keys versions) -> In l2 (Dict.keys versions) ->
    _string2version l1 = Some k1 -> _string2version l2 = Some k2 ->
    veq k1 k2 = true -> l1 = l2.

(** The last character of a string, if any. *)
Fixpoint last_char (s : string) : option ascii :=
  match s with
  | EmptyString => None
  | String c EmptyString => Some c
  | String _ r => last_char r
  end.

(** What a successful update leaves behind, [found] being the fetcher's
    answer, [source] the key of the fetcher and [r] the outcome of the
    call from state [st]: the labels found are mapped to the URLs found,
    the other labels are mapped as before, and the name looked up is
    recorded under the source. *)
Definition merges_versions (source : string) (st : cstate) (pkg name : string)
  (found : versions_t) (r : result (bool * cstate)) : Prop :=
  exists st',
    r = Ok (true, st')
    /\ (forall label,
          sget (versions_of (data st') pkg) label
          = match sget found label with
            | Some u => Some u
            | None => sget (versions_of (data st) pkg) label
            end)
    /\ sources_of (data st') pkg = sset (sources_of (data st) pkg) source name
    /\ (forall q, q <> pkg -> sget (data st') q = sget (data st) q).

(** Every label of every package of [d] is a label of that package in
    [d']. *)
Definition keeps_labels (d d' : Catalog) : Prop :=
  forall pkg label,
    In label (Dict.keys (versions_of d pkg)) ->
    In label (Dict.keys (versions_of d' pkg)).

(** The record of a package holds both sub-mappings. *)
Definition complete_record (d : Catalog) (pkg : string) : Prop :=
  exists rec,
    sget d pkg = Some rec
    /\ shas rec "versions" = true /\ shas rec "sources" = true.

(** Every package of the catalog has a record with both sub-mappings. *)
Definition complete (d : Catalog) : Prop :=
  forall pkg, In pkg (Dict.keys d) -> complete_record d pkg.

(** The calls of [st'] are those of [st] followed by at most [n] more. *)
Definition calls_extend (st st' : cstate) (n : nat) : Prop :=
  exists new, calls st' = calls st ++ new /\ List.length new <= n.

(** No package of the catalog is recorded as the external name of
    another package. *)
Definition no_name_clash (d : Catalog) : Prop :=
  forall pkg q,
    In pkg (Dict.keys d) -> In q (Dict.keys d) ->
    In pkg (Dict.values (sources_of d q)) -> q = pkg.

(** [name] is a package of the catalog or an external name recorded for
    one. *)
Definition known_name (d : Catalog) (name : string) : Prop :=
  In name (Dict.keys d)
  \/ exists pkg, In pkg (Dict.keys d) /\ In name (Dict.values (sources_of d pkg)).

(** [name] is a package of the catalog, or a name the catalog does not
    know at all: it is not merely an external name of some package. *)
Definition plain_name (d : Catalog) (name : string) : Prop :=
  In name (Dict.keys d) \/ ~ known_name d name.

(** The URL that the expansion of a package's versions gives to the
    version asked for. *)
Definition expansion_url (d : Catalog) (pkg : string) (version : option string)
  : option string :=
  match version with
  | Some v => sget (_prepare_versions (versions_of d pkg)) v
  | None => None
  end.

(** The state of the driver is consistent: the records of the user
    catalog are complete, no package is an external name of another one,
    and the view is the one built over the catalog. *)
Definition consistent (st : dstate) : Prop :=
  complete (user_catalog st) /\ no_name_clash (user_catalog st)
  /\ reset (user_catalog st) = Ok (user_lookup st).

(** The name shown when a package is not found. *)
Definition shown_name (p : string) (v : option string) : string :=
  match v with
  | Some v' => (p ++ "@" ++ v')%string
  | None => p
  end.

(** What the driver keeps from state [st] to state [st']: the entries of
    the mapping, the entries for names other than those in [asked], the
    messages logged and the history so far, and the labels and packages
    of the user catalog. *)
Definition driver_keeps (asked : list string) (st st' : dstate) : Prop :=
  (forall n e, sget (m st) n = Some e -> sget (m st') n = Some e)
  /\ (forall n, ~ In n asked -> sget (m st') n = sget (m st) n)
  /\ (exists l, log st' = log st ++ l)
  /\ (exists h, history st' = history st ++ h)
  /\ keeps_labels (user_catalog st) (user_catalog st')
  /\ (forall q, In q (Dict.keys (user_catalog st)) ->
                In q (Dict.keys (user_catalog st'))).

(** The names asked for by a list of requests. *)
Definition asked_names (ks : list request) : list string :=
  map (fun k => fst (unpack k)) ks.

(** Every character of the string passes the test. *)
Fixpoint all_chars (p : ascii -> bool) (s : string) : bool :=
  match s with
  | EmptyString => true
  | String c r => p c && all_chars p r
  end.

(** A token: a non-empty string without white space. *)
Definition is_token (s : string) : bool :=
  negb (String.eqb s "") && all_chars (fun c => negb (is_space c)) s.

(** A package name as a requirements file gives it: a token without [=]
    that does not start a comment. *)
Definition is_requirement_name (s : string) : bool :=
  is_token s && all_chars (fun c => negb (Ascii.eqb c "=")) s
  && negb (startswith s "#").

(** A line of a requirements file: the name, or the name pinned to a
    version with [==]. *)
Definition requirement_line (name : string) (pin : option string) : string :=
  match pin with
  | Some version => (name ++ "==" ++ version)%string
  | None => name
  end.

Fixpoint requirement_lines (lines : list (string * option string)) : string :=
  match lines with
  | [] => ""
  | (name, pin) :: rest =>
      (requirement_line name pin ++ String JSON.newline (requirement_lines rest))%string
  end.

(** The number of [requests.get] calls in a trace. *)
Fixpoint count_gets (trace : list web_request) : nat :=
  match trace with
  | [] => 0
  | Get _ :: rest => S (count_gets rest)
  | _ :: rest => count_gets rest
  end.

(** Every URL of the mapping ends in a slash. *)
Definition directories (K : Type) (versions : Dict.t K string) : Prop :=
  forall label url, In (label, url) versions -> endswith url "/" = true.

(** The reports that announce documentation found. *)
Definition is_found (r : report) : bool :=
  match r with
  | LookingUpPypi _ => false
  | _ => true
  end.

Definition count_found (out : list report) : nat :=
  List.length (filter is_found out).

(** The part of the result of [_reorder_versions] built by its first two
    loops: the aliases, then the releases. *)
Definition reorder_head (vdict : versions_t) : versions_t :=
  fold_left
    (fun rv version =>
       match Dict.get veq (reorder_version_map vdict) version with
       | Some label =>
           match sget vdict label with
           | Some u => sset rv label u
           | None => rv
           end
       | None => rv
       end)
    (sorted_reverse vlt (Dict.keys (reorder_version_map vdict)))
    (fold_left
       (fun rv key =>
          match sget vdict key with
          | Some u => sset rv key u
          | None => rv
          end)
       protected []).

(** A label that [_reorder_versions] sorts as a release. *)
Definition is_release (k : string) : bool :=
  negb (is_protected k) && PEP440_RE_match k.

(** No two of the labels sorted as releases are equal as versions. *)
Definition distinct_releases (labels : list string) : Prop :=
  forall l1 l2 k1 k2,
    In l1 labels -> In l2 labels ->
    is_release l1 = true -> is_release l2 = true ->
    parse l1 = Some k1 -> parse l2 = Some k2 ->
    veq k1 k2 = true -> l1 = l2.

(** The dictionary of releases of [_reorder_versions], from the list of
    labels: [reorder_version_map vdict] is [version_map_of] of the keys
    of [vdict]. *)
Definition version_map_of (labels : list string) : Dict.t Version string :=
  fold_left
    (fun vm k =>
       if negb (is_protected k) && PEP440_RE_match k then
         match parse k with
         | Some ver => Dict.set veq vm ver k
         | None => vm
         end
       else vm)
    labels [].

(** The order of two labels that parse as versions. *)
Definition label_lt (a b : string) : bool :=
  match parse a, parse b with
  | Some x, Some y => vlt x y
  | _, _ => false
  end.

(* ===================================================================== *)
(** ** Catalogs and mappings used as examples                             *)
(* ===================================================================== *)

Definition sklearn_catalog : Catalog :=
  [("sklearn",
    [("versions", [("stable", "https://scikit-learn.org/stable/")]);
     ("sources", [("pypi", "scikit-learn")])])].

Definition numpy_user_catalog : Catalog :=
  [("numpy",
    [("versions", [("stable", "https://user.example/numpy/")]);
     ("sources", [])])].

Definition numpy_builtin_catalog : Catalog :=
  [("numpy", [("versions", numpy_versions); ("sources", [])])].

Definition numpy_user_lookup : LookupCatalog :=
  mkLookup
    [("numpy", [("latest", "https://user.example/numpy/");
                ("stable", "https://user.example/numpy/")])]
    [("numpy", "numpy")].

Definition numpy_builtin_lookup : LookupCatalog :=
  mkLookup
    [("numpy", [("latest", "https://numpy.org/doc/stable/");
                ("stable", "https://numpy.org/doc/stable/")])]
    [("numpy", "numpy")].

Definition numpy_recorded_catalog : Catalog :=
  [("numpy",
    [("versions", [("stable", "https://numpy.org/doc/stable/")]);
     ("sources", [("environment", "numpy"); ("pypi", "numpy")])])].

Definition rtd_versions : versions_t :=
  [("latest", "https://p.readthedocs.io/en/latest/");
   ("stable", "https://p.readthedocs.io/en/stable/");
   ("1.0", "https://p.readthedocs.io/en/1.0/")].

Definition release_versions : versions_t :=
  [("v2.2.0", "https://p.example/v2.2.0/");
   ("3.0rc1", "https://p.example/3.0rc1/")].

Definition tagged_versions : versions_t :=
  [("v2.2.0", "https://p.readthedocs.io/en/v2.2.0/");
   ("2.1.0", "https://p.example/2.1.0/");
   ("2.2.0", "https://p.example/2.2.0/")].

(* ===================================================================== *)
(** * Properties                                                          *)
(* ===================================================================== *)

Unset Implicit Arguments.

(** ** Dictionaries keyed by strings *)

Lemma sget_sset V (d : sdict V) k v k' :
  sget (sset d k v) k' = if String.eqb k k' then Some v else sget d k'.
Proof.
  unfold sget, sset.
  induction d as [|[k0 v0] r IH]; simpl; [reflexivity|].
  destruct (String.eqb k0 k) eqn:E0; simpl.
  - apply String.eqb_eq in E0; subst k0.
    destruct (String.eqb k k'); reflexivity.
  - rewrite IH.
    destruct (String.eqb k0 k') eqn:E1; [|reflexivity].
    apply String.eqb_eq in E1; subst k'.
    now rewrite String.eqb_sym, E0.
Qed.

Lemma sget_sset_same V (d : sdict V) k v : sget (sset d k v) k = Some v.
Proof. now rewrite sget_sset, String.eqb_refl. Qed.

Lemma sget_sset_other V (d : sdict V) k v k' :
  k <> k' -> sget (sset d k v) k' = sget d k'.
Proof.
  intros H. rewrite sget_sset.
  destruct (String.eqb k k') eqn:E; [apply String.eqb_eq in E; contradiction|reflexivity].
Qed.

Lemma shas_sset V (d : sdict V) k v k' :
  shas (sset d k v) k' = String.eqb k k' || shas d k'.
Proof.
  unfold shas, Dict.contains. fold (sget (sset d k v) k'). fold (sget d k').
  rewrite sget_sset. now destruct (String.eqb k k').
Qed.

Lemma sget_In V (d : sdict V) k v : sget d k = Some v -> In (k, v) d.
Proof.
  unfold sget. induction d as [|[k0 v0] r IH]; simpl; [discriminate|].
  destruct (String.eqb k0 k) eqn:E.
  - apply String.eqb_eq in E. intros [= ->]. left. now subst.
  - intros H. right. now apply IH.
Qed.

Lemma sget_None_keys V (d : sdict V) k :
  sget d k = None <-> ~ In k (Dict.keys d).
Proof.
  unfold sget, Dict.keys. induction d as [|[k0 v0] r IH]; simpl.
  - split; [intros _ []|reflexivity].
  - destruct (String.eqb k0 k) eqn:E.
    + apply String.eqb_eq in E. split; [discriminate|]. intros H. exfalso. apply H. now left.
    + apply String.eqb_neq in E. rewrite IH. split.
      * intros H [H1|H1]; [now apply E|now apply H].
      * intros H H1. apply H. now right.
Qed.

Lemma shas_keys V (d : sdict V) k : shas d k = true <-> In k (Dict.keys d).
Proof.
  unfold shas, Dict.contains. fold (sget d k).
  destruct (sget d k) eqn:E; simpl.
  - split; [intros _|reflexivity].
    apply sget_In in E. unfold Dict.keys. now apply (in_map fst) in E.
  - apply sget_None_keys in E. split; [discriminate|contradiction].
Qed.

Lemma prefix_append (s t : string) : String.prefix s (s ++ t) = true.
Proof.
  induction s as [|c s IH]; simpl.
  - now destruct t.
  - destruct (ascii_dec c c); [exact IH|contradiction].
Qed.

Lemma append_assoc (s t u : string) : ((s ++ t) ++ u = s ++ (t ++ u))%string.
Proof. induction s as [|c s IH]; simpl; [reflexivity|now rewrite IH]. Qed.

(* ===================================================================== *)
(** ** The conflict policy of [_add_index]                                *)
(* ===================================================================== *)

(** The address in the conflict message starts with the URL it reports. *)
Lemma shown_address_names addr o : String.prefix addr (shown_address addr o) = true.
Proof.
  unfold shown_address. rewrite append_assoc. apply prefix_append.
Qed.

Lemma option_string_eqb_refl o : option_string_eqb o o = true.
Proof. destruct o; simpl; [apply String.eqb_refl|reflexivity]. Qed.

(** C8, counterexample: a package registered with an inventory file name of
    its own and registered again with the identical URL (and the default
    inventory name) is reported at error severity, not as an informational
    message. *)
Lemma add_index_same_url_other_inventory_is_error :
  let mp : mapping_t :=
    [("numpy", ("https://numpy.org/doc/stable/", Some "numpy.inv"))] in
  sget mp "numpy" = Some ("https://numpy.org/doc/stable/", Some "numpy.inv")
  /\ _add_index mp "numpy" "https://numpy.org/doc/stable/" None
     = (mp, [(ERROR, IgnoringReset "numpy"
                       "https://numpy.org/doc/stable/numpy.inv"
                       "https://numpy.org/doc/stable/objects.inv")])
  /\ _add_index mp "numpy" "https://numpy.org/doc/stable/" None
     <> (mp, [(INFO, IgnoringRepeatedSetting "numpy")]).
Proof. repeat split; try reflexivity. discriminate. Qed.

(** C8, amended: when [name] is already registered with URL [A] (and
    inventory name [o]), registering it with a different URL [B] leaves the
    mapping as it is and logs exactly one record, of error severity, whose
    arguments are the current and the new address (each starting with its
    URL); registering it again with the identical URL and the identical
    inventory name leaves the mapping as it is and logs exactly one record,
    of informational severity.  [_add_index] is total: it never raises. *)
Theorem add_index_conflict_policy
  (mapping : mapping_t) (name A B : string) (o o' : option string) :
  sget mapping name = Some (A, o) ->
  (B <> A ->
     _add_index mapping name B o'
     = (mapping, [(ERROR, IgnoringReset name (shown_address A o) (shown_address B o'))])
     /\ String.prefix A (shown_address A o) = true
     /\ String.prefix B (shown_address B o') = true)
  /\ _add_index mapping name A o = (mapping, [(INFO, IgnoringRepeatedSetting name)]).
Proof.
  intros Hreg. unfold _add_index. rewrite Hreg. split.
  - intros Hne.
    destruct (String.eqb A B) eqn:E.
    + apply String.eqb_eq in E. now subst.
    + simpl. repeat split; apply shown_address_names.
  - now rewrite String.eqb_refl, option_string_eqb_refl.
Qed.

Lemma add_index_conflict_policy_witness :
  let mp : mapping_t := [("numpy", ("https://numpy.org/doc/stable/", None))] in
  (_add_index mp "numpy" "https://numpy.org/devdocs/" None
   = (mp, [(ERROR, IgnoringReset "numpy"
                     "https://numpy.org/doc/stable/objects.inv"
                     "https://numpy.org/devdocs/objects.inv")]))
  /\ _add_index mp "numpy" "https://numpy.org/doc/stable/" None
     = (mp, [(INFO, IgnoringRepeatedSetting "numpy")]).
Proof.
  intro mp.
  pose proof (@add_index_conflict_policy mp "numpy"
                "https://numpy.org/doc/stable/" "https://numpy.org/devdocs/"
                None None eq_refl) as [H1 H2].
  split.
  - apply H1. discriminate.
  - exact H2.
Defined.

(* ===================================================================== *)
(** ** [LookupCatalog.get] on a recorded source alias                     *)
(* ===================================================================== *)

(** C2, the code at the failing input: the view built over a catalog whose
    package [sklearn] records the PyPI name [scikit-learn] knows the alias,
    answers for the canonical name, and raises [KeyError] for the alias,
    whether the version asked for exists or not, instead of returning the
    URL or the default. *)
Theorem get_by_source_alias_raises :
  exists lk,
    reset sklearn_catalog = Ok lk
    /\ sget (_package_map lk) "scikit-learn" = Some "sklearn"
    /\ get lk "sklearn" (Some "stable") None
       = Ok (Some "https://scikit-learn.org/stable/")
    /\ get lk "scikit-learn" (Some "stable") None
       = Raise (KeyError "scikit-learn")
    /\ get lk "scikit-learn" (Some "0.0") (Some "default")
       = Raise (KeyError "scikit-learn").
Proof. eexists. repeat split; reflexivity. Qed.

(* ===================================================================== *)
(** ** The stop policy of the driver                                      *)
(* ===================================================================== *)

(** C7, counterexample: two versions of numpy are asked for, one after
    the other, and the user catalog has both, at different URLs. The
    second one resolves in the user catalog's view, and yet its URL is
    not recorded: the mapping keeps the entry made for the first, and an
    error is logged. Neither the built-in catalog nor a fetcher is
    consulted. *)
Lemma resolve_keeps_registered_entry :
  let user : Catalog :=
    [("numpy",
      [("versions", [("1.0", "https://user.example/numpy/1.0/");
                     ("2.0", "https://user.example/numpy/2.0/")]);
       ("sources", [])])] in
  exists lk st,
    reset user = Ok lk
    /\ get lk "numpy" (Some "2.0") None = Ok (Some "https://user.example/numpy/2.0/")
    /\ populate_intersphinx_mapping (fun _ _ => []) (fun _ _ => []) (fun _ _ _ => [])
         [] numpy_builtin_catalog user
         [Pair "numpy" (Some "1.0"); Pair "numpy" (Some "2.0")] = Ok st
    /\ user_lookup st = lk
    /\ m st = [("numpy", ("https://user.example/numpy/1.0/", None))]
    /\ sget (m st) "numpy" <> Some ("https://user.example/numpy/2.0/", None)
    /\ log st = [(ERROR, IgnoringReset "numpy"
                           "https://user.example/numpy/1.0/objects.inv"
                           "https://user.example/numpy/2.0/objects.inv")]
    /\ history st = [Lookup UserCatalog "numpy" (Some "1.0");
                     Lookup UserCatalog "numpy" (Some "2.0")].
Proof.
  intros user. eexists. eexists.
  split; [vm_compute; reflexivity|]. split; [vm_compute; reflexivity|].
  split; [vm_compute; reflexivity|]. split; [reflexivity|].
  split; [reflexivity|]. split; [discriminate|]. split; reflexivity.
Qed.

(** C7: when the requested version resolves in the user catalog's view,
    the driver registers the URL the view returned through [_add_index]
    and goes on with the next package. A package not yet in the mapping is
    mapped to that URL and nothing is logged; for a package already in the
    mapping the entry stays as it is and one message is logged, an
    information for the same URL without inventory and an error otherwise.
    The only thing added to the history is the look-up in the user
    catalog, hence the built-in catalog is not consulted and no fetcher is
    called, whatever the built-in catalog holds; the user catalog and its
    view are left as they were. *)
Theorem resolve_stops_at_user_catalog
  (fenv frtd : list event -> string -> versions_t)
  (fpypi : list event -> string -> Z -> versions_t)
  (builtin_catalog : Catalog) (builtin_lookup : LookupCatalog)
  (st : dstate) (k : request) (ks : list request) (addr : string) :
  get (user_lookup st) (fst (unpack k)) (snd (unpack k)) None = Ok (Some addr) ->
  exists st',
    resolve fenv frtd fpypi builtin_catalog builtin_lookup st k = Ok st'
    /\ resolve_all fenv frtd fpypi builtin_catalog builtin_lookup st (k :: ks)
       = resolve_all fenv frtd fpypi builtin_catalog builtin_lookup st' ks
    /\ (m st', log st')
       = (let (m', l) := _add_index (m st) (fst (unpack k)) addr None in
          (m', log st ++ l))
    /\ (sget (m st) (fst (unpack k)) = None ->
        sget (m st') (fst (unpack k)) = Some (addr, None)
        /\ m st' = sset (m st) (fst (unpack k)) (addr, None)
        /\ log st' = log st)
    /\ (forall a o, sget (m st) (fst (unpack k)) = Some (a, o) ->
        m st' = m st
        /\ log st'
           = log st
             ++ [if String.eqb a addr && option_string_eqb o None
                 then (INFO, IgnoringRepeatedSetting (fst (unpack k)))
                 else (ERROR, IgnoringReset (fst (unpack k)) (shown_address a o)
                                (shown_address addr None))])
    /\ history st' = history st ++ [Lookup UserCatalog (fst (unpack k)) (snd (unpack k))]
    /\ user_catalog st' = user_catalog st
    /\ user_lookup st' = user_lookup st.
Proof.
  intros Hget.
  assert (Hr : resolve fenv frtd fpypi builtin_catalog builtin_lookup st k
               = Ok (add_index (consulted st UserCatalog (fst (unpack k))
                                          (snd (unpack k)))
                               (fst (unpack k)) addr)).
  { unfold resolve. destruct (unpack k) as [p v]; cbn [fst snd] in *.
    change (user_lookup (consulted st UserCatalog p v)) with (user_lookup st).
    now rewrite Hget. }
  eexists. split; [exact Hr|].
  split; [cbn [resolve_all]; now rewrite Hr|].
  unfold add_index, consulted. cbn [m log history user_catalog user_lookup].
  unfold _add_index.
  destruct (sget (m st) (fst (unpack k))) as [[a o]|] eqn:E.
  - destruct (String.eqb a addr && option_string_eqb o None) eqn:Eb;
      cbn [m log history user_catalog user_lookup];
      (split; [reflexivity|]); (split; [discriminate|]);
      (split; [|repeat split]);
      intros a' o' [= <- <-]; rewrite Eb; split; reflexivity.
  - cbn [m log history user_catalog user_lookup].
    split; [reflexivity|]. split.
    + intros _. split; [apply sget_sset_same|]. split; [reflexivity|].
      now rewrite app_nil_r.
    + split; [discriminate|]. repeat split.
Qed.

Lemma resolve_stops_at_user_catalog_witness :
  reset numpy_user_catalog = Ok numpy_user_lookup
  /\ reset numpy_builtin_catalog = Ok numpy_builtin_lookup
  /\ exists st',
       resolve_all (fun _ _ => []) (fun _ _ => []) (fun _ _ _ => [])
                   numpy_builtin_catalog numpy_builtin_lookup
                   (mkDstate [] numpy_user_catalog numpy_user_lookup [] [])
                   [Name "numpy"] = Ok st'
       /\ m st' = [("numpy", ("https://user.example/numpy/", None))]
       /\ log st' = []
       /\ history st' = [Lookup UserCatalog "numpy" (Some "stable")].
Proof.
  split; [reflexivity|]. split; [reflexivity|].
  destruct (@resolve_stops_at_user_catalog
              (fun _ _ => []) (fun _ _ => []) (fun _ _ _ => [])
              numpy_builtin_catalog numpy_builtin_lookup
              (mkDstate [] numpy_user_catalog numpy_user_lookup [] [])
              (Name "numpy") [] "https://user.example/numpy/" eq_refl)
    as (st' & _ & Hall & _ & Hm & _ & Hh & _).
  exists st'. split; [exact Hall|].
  destruct (Hm eq_refl) as (_ & H1 & H2).
  split; [exact H1|]. split; [exact H2|exact Hh].
Defined.

(** The scenario of the stop policy on the whole function: numpy is in the
    user catalog and in the built-in catalog with different URLs; the
    mapping gets the user's URL and the history holds the one look-up. *)
Lemma populate_prefers_user_catalog :
  exists st,
    populate_intersphinx_mapping (fun _ _ => []) (fun _ _ => []) (fun _ _ _ => [])
      [] numpy_builtin_catalog numpy_user_catalog [Name "numpy"] = Ok st
    /\ m st = [("numpy", ("https://user.example/numpy/", None))]
    /\ log st = []
    /\ history st = [Lookup UserCatalog "numpy" (Some "stable")].
Proof. eexists. repeat split; reflexivity. Qed.

(* ===================================================================== *)
(** ** Keys of the dictionaries built by comprehension                    *)
(* ===================================================================== *)

Section DictKeys.
Variables K V : Type.
Variable keq : K -> K -> bool.

Lemma keys_set_inv (d : Dict.t K V) k v k' :
  In k' (Dict.keys (Dict.set keq d k v)) -> In k' (Dict.keys d) \/ k' = k.
Proof.
  induction d as [|[k0 v0] r IH]; simpl.
  - intros [<-|[]]. now right.
  - destruct (keq k0 k); simpl.
    + intros [<-|H]; left; [now left|now right].
    + intros [<-|H]; [left; now left|].
      destruct (IH H) as [H1|H1]; [left; now right|now right].
Qed.

Lemma keys_set_keep (d : Dict.t K V) k v k' :
  In k' (Dict.keys d) -> In k' (Dict.keys (Dict.set keq d k v)).
Proof.
  induction d as [|[k0 v0] r IH]; simpl; [intros []|].
  destruct (keq k0 k); simpl; intros [<-|H]; auto.
Qed.

End DictKeys.

Lemma prepare_version_map_keys_from (labels : list string) acc k :
  In k (Dict.keys
          (fold_left (fun vm l => Dict.set oveq vm (_string2version l) l)
                     labels acc)) ->
  In k (Dict.keys acc) \/ exists l, In l labels /\ k = _string2version l.
Proof.
  revert acc. induction labels as [|l labels IH]; simpl; intros acc H.
  - now left.
  - destruct (IH _ H) as [H1|(l' & Hl' & ->)].
    + apply keys_set_inv in H1. destruct H1 as [H1| ->]; [now left|].
      right. exists l. split; [now left|reflexivity].
    + right. exists l'. split; [now right|reflexivity].
Qed.

(** Every key of [version_map] is the parse of a label. *)
Lemma prepare_version_map_keys (versions : versions_t) k :
  In k (Dict.keys (prepare_version_map versions)) ->
  exists l, In l (Dict.keys versions) /\ k = _string2version l.
Proof.
  intros H. apply prepare_version_map_keys_from in H.
  destruct H as [[]|H]. exact H.
Qed.

Lemma not_none_all_None A (l : list (option A)) :
  (forall k, In k l -> k = None) -> not_none l = [].
Proof.
  induction l as [|[a|] l IH]; simpl; intros H; [reflexivity| |].
  - specialize (H (Some a) (or_introl eq_refl)). discriminate.
  - apply IH. intros k Hk. apply H. now right.
Qed.

(* ===================================================================== *)
(** ** Expansion without any parseable label                              *)
(* ===================================================================== *)

Lemma alias_chain_first_nonempty (versions : versions_t) order :
  alias_chain versions order = first_nonempty (map (sget versions) order).
Proof.
  unfold alias_chain.
  induction order as [|key order IH]; simpl; [reflexivity|].
  destruct (sget versions key) as [[|c u]|]; simpl; auto.
Qed.

(** C6, counterexample: the empty mapping has no parseable label and its
    expansion has no ["latest"] entry at all; and an existing ["latest"]
    entry whose URL is the empty string is passed over for ["stable"]. *)
Lemma latest_fallback_counterexample :
  ((forall l, In l (Dict.keys ([] : versions_t)) -> _string2version l = None)
   /\ sget (_prepare_versions []) "latest" = None
   /\ sget (_prepare_versions []) "latest"
      <> Some (first_present [sget [] "latest"; sget [] "stable";
                              sget [] "master"; sget [] "main"]))
  /\ let vs : versions_t := [("latest", ""); ("stable", "https://s/")] in
     (forall l, In l (Dict.keys vs) -> _string2version l = None)
     /\ sget (_prepare_versions vs) "latest" = Some "https://s/"
     /\ sget (_prepare_versions vs) "latest"
        <> Some (first_present [sget vs "latest"; sget vs "stable";
                                sget vs "master"; sget vs "main"]).
Proof.
  split.
  - split; [intros l []|]. split; [reflexivity|discriminate].
  - intro vs. split; [|split; [reflexivity|discriminate]].
    intros l [<-|[<-|[]]]; reflexivity.
Qed.

(** C6, amended: for every non-empty mapping none of whose labels parses
    as a version, the ["latest"] entry of the expansion is the first of the
    entries ["latest"], ["stable"], ["master"], ["main"] that is present
    with a non-empty URL, and the empty string when there is none; the
    numpy mapping of the scenario expands ["latest"] to the URL of its
    ["stable"] entry. *)
Theorem latest_fallback_chain (versions : versions_t) :
  versions <> [] ->
  (forall l, In l (Dict.keys versions) -> _string2version l = None) ->
  sget (_prepare_versions versions) "latest"
  = Some (first_nonempty [sget versions "latest"; sget versions "stable";
                          sget versions "master"; sget versions "main"])
  /\ sget (_prepare_versions numpy_versions) "latest"
     = Some "https://numpy.org/doc/stable/".
Proof.
  intros Hne Hnone. split; [|reflexivity].
  unfold _prepare_versions.
  destruct versions as [|e r]; [contradiction|].
  rewrite (@not_none_all_None _ (Dict.keys (prepare_version_map (e :: r)))).
  - simpl rev. cbv iota.
    rewrite sget_sset_other by discriminate.
    rewrite sget_sset_same. now rewrite alias_chain_first_nonempty.
  - intros k Hk. apply prepare_version_map_keys in Hk.
    destruct Hk as (l & Hl & ->). now apply Hnone.
Qed.

Lemma latest_fallback_chain_witness :
  sget (_prepare_versions numpy_versions) "latest"
  = Some (first_nonempty [sget numpy_versions "latest"; sget numpy_versions "stable";
                          sget numpy_versions "master"; sget numpy_versions "main"]).
Proof.
  refine (proj1 (@latest_fallback_chain numpy_versions _ _)).
  - discriminate.
  - intros l [<-|[<-|[]]]; reflexivity.
Defined.

(* ===================================================================== *)
(** ** [self_update]                                                      *)
(* ===================================================================== *)

Section SelfUpdate.
Variable docurls_from_environment : list event -> string -> versions_t.
Variable docurls_from_rtd : list event -> string -> versions_t.
Variable docurls_from_pypi : list event -> string -> Z -> versions_t.

Lemma self_update_names_columns (items : Catalog) E R P :
  self_update_names items (names_table E R P)
  = (rs <- recorded_sources items ;;
     Ok (names_table (column "environment" rs E) (column "readthedocs" rs R)
                     (column "pypi" rs P))).
Proof.
  revert E R P. induction items as [|[pkg info] items IH]; intros E R P; simpl.
  - reflexivity.
  - destruct (getitem info "sources") as [srcs|e]; simpl; [|reflexivity].
    unfold names_table in IH. cbn -[recorded_sources column sset sget].
    rewrite IH. destruct (recorded_sources items); reflexivity.
Qed.

Lemma column_other key rs C pkg :
  ~ In pkg (map fst rs) -> sget (column key rs C) pkg = sget C pkg.
Proof.
  unfold column. revert C. induction rs as [|[p s] rs IH]; intros C H; simpl.
  - reflexivity.
  - rewrite IH by (intros H1; apply H; now right).
    apply sget_sset_other. intros ->. apply H. now left.
Qed.

Lemma column_here key rs C pkg srcs :
  NoDup (map fst rs) -> In (pkg, srcs) rs ->
  sget (column key rs C) pkg = Some (sget srcs key).
Proof.
  unfold column. revert C. induction rs as [|[p s] rs IH]; intros C Hnd Hin; simpl.
  - destruct Hin.
  - inversion Hnd as [|? ? Hnotin Hnd']; subst.
    destruct Hin as [[= -> ->]|Hin].
    + fold (column key rs (sset C pkg (sget srcs key))).
      rewrite column_other by exact Hnotin. apply sget_sset_same.
    + now apply IH.
Qed.

Lemma recorded_sources_keys items rs :
  recorded_sources items = Ok rs -> map fst rs = Dict.keys items.
Proof.
  revert rs. induction items as [|[pkg info] items IH]; simpl; intros rs H.
  - now injection H as <-.
  - destruct (getitem info "sources"); simpl in H; [|discriminate].
    destruct (recorded_sources items) as [rs'|]; simpl in H; [|discriminate].
    injection H as <-. simpl. f_equal. now apply IH.
Qed.

(** With the names of [self_update], the loop over the three sources is
    the re-look-up of the recorded ones. *)
Lemma update_package_relookup names pkg srcs st :
  name_for names "environment" pkg = sget srcs "environment" ->
  name_for names "readthedocs" pkg = sget srcs "readthedocs" ->
  name_for names "pypi" pkg = sget srcs "pypi" ->
  update_package docurls_from_environment docurls_from_rtd docurls_from_pypi
                 names 0 false pkg default_order st
  = relookup_known docurls_from_environment docurls_from_rtd docurls_from_pypi pkg srcs all_kinds st.
Proof.
  intros He Hr Hp.
  unfold default_order, all_kinds.
  cbn [update_package relookup_known String.eqb Ascii.eqb Bool.eqb kind_key].
  rewrite He, Hr, Hp.
  destruct (sget srcs "environment") as [ne|]; cbn [update_from].
  - destruct (update_versions_from_environment _ st pkg (Some ne)) as [[ok st1]|e];
      simpl; [|reflexivity].
    destruct ok; simpl; [reflexivity|].
    destruct (sget srcs "readthedocs") as [nr|].
    + destruct (update_versions_from_rtd _ st1 pkg (Some nr)) as [[ok2 st2]|e];
        simpl; [|reflexivity].
      destruct ok2; simpl; [reflexivity|].
      destruct (sget srcs "pypi") as [np|]; [|reflexivity].
      destruct (update_versions_from_pypi _ st2 pkg (Some np) 0) as [[ok3 st3]|e];
        simpl; [|reflexivity].
      now destruct ok3.
    + destruct (sget srcs "pypi") as [np|]; [|reflexivity].
      destruct (update_versions_from_pypi _ st1 pkg (Some np) 0) as [[ok3 st3]|e];
        simpl; [|reflexivity].
      now destruct ok3.
  - destruct (sget srcs "readthedocs") as [nr|].
    + destruct (update_versions_from_rtd _ st pkg (Some nr)) as [[ok2 st2]|e];
        simpl; [|reflexivity].
      destruct ok2; simpl; [reflexivity|].
      destruct (sget srcs "pypi") as [np|]; [|reflexivity].
      destruct (update_versions_from_pypi _ st2 pkg (Some np) 0) as [[ok3 st3]|e];
        simpl; [|reflexivity].
      now destruct ok3.
    + destruct (sget srcs "pypi") as [np|]; [|reflexivity].
      destruct (update_versions_from_pypi _ st pkg (Some np) 0) as [[ok3 st3]|e];
        simpl; [|reflexivity].
      now destruct ok3.
Qed.

Lemma update_versions_relookup names (rs : list (string * sdict string)) st :
  (forall pkg srcs, In (pkg, srcs) rs ->
     name_for names "environment" pkg = sget srcs "environment"
     /\ name_for names "readthedocs" pkg = sget srcs "readthedocs"
     /\ name_for names "pypi" pkg = sget srcs "pypi") ->
  update_versions docurls_from_environment docurls_from_rtd docurls_from_pypi
                  (map fst rs) default_order names 0 false st
  = relookup_all docurls_from_environment docurls_from_rtd docurls_from_pypi rs st.
Proof.
  revert st. induction rs as [|[pkg srcs] rs IH]; intros st H;
    cbn [update_versions relookup_all map fst].
  - reflexivity.
  - destruct (H pkg srcs (or_introl eq_refl)) as (He & Hr & Hp).
    rewrite (update_package_relookup names pkg srcs st He Hr Hp).
    destruct (relookup_known docurls_from_environment docurls_from_rtd docurls_from_pypi pkg srcs all_kinds st) as [st'|e];
      cbn [bind]; [|reflexivity].
    apply IH. intros p s Hin. apply H. now right.
Qed.

End SelfUpdate.

(** C4, counterexample: with fetchers that find nothing, the self-update of
    a catalog whose package [sklearn] records a PyPI name only calls the
    PyPI fetcher and nothing else: the environment and readthedocs.org,
    whose names were never recorded, are not attempted under the package's
    own name.  And with an environment fetcher that finds a version, a
    package that records an environment and a PyPI name is looked up in
    the environment only: the update for PyPI is not issued. *)
Lemma self_update_skips_unrecorded_sources :
  (exists st',
     self_update (fun _ _ => []) (fun _ _ => []) (fun _ _ _ => [])
                 (mkCstate sklearn_catalog []) = Ok st'
     /\ calls st' = [FetchPypi "scikit-learn" 0]
     /\ ~ In (FetchEnvironment "sklearn") (calls st')
     /\ ~ In (FetchRtd "sklearn") (calls st'))
  /\ (exists st',
        self_update (fun _ _ => [("1.26.0", "https://numpy.org/doc/1.26/")])
                    (fun _ _ => []) (fun _ _ _ => [])
                    (mkCstate numpy_recorded_catalog []) = Ok st'
        /\ calls st' = [FetchEnvironment "numpy"]
        /\ ~ In (FetchPypi "numpy" 0) (calls st')).
Proof.
  split; eexists; (split; [reflexivity|]); (split; [reflexivity|]); simpl.
  - split; intros [H|[]]; discriminate.
  - intros [H|[]]; discriminate.
Qed.

(** C4, amended: [self_update] reads the names recorded under ["sources"]
    of every package present, then visits the packages in catalog order
    and, for each, the sources environment, readthedocs, pypi in that
    order: a source with a recorded external name is looked up again under
    that name, a source without a recorded name is passed over, and the
    package is done at the first look-up that finds versions. *)
Theorem self_update_relooks_known_sources
  (fenv frtd : list event -> string -> versions_t)
  (fpypi : list event -> string -> Z -> versions_t) (st : cstate) :
  NoDup (Dict.keys (data st)) ->
  self_update fenv frtd fpypi st
  = (rs <- recorded_sources (data st) ;; relookup_all fenv frtd fpypi rs st).
Proof.
  intros Hnd. unfold self_update.
  change [("environment", []); ("readthedocs", []); ("pypi", [])]
    with (names_table [] [] []).
  rewrite self_update_names_columns.
  destruct (recorded_sources (data st)) as [rs|e] eqn:Hrs; cbn [bind]; [|reflexivity].
  pose proof (recorded_sources_keys _ _ Hrs) as Hkeys.
  rewrite <- Hkeys in *.
  apply update_versions_relookup.
  intros pkg srcs Hin.
  unfold name_for, names_table.
  cbn [Dict.get_default Dict.get String.eqb Ascii.eqb Bool.eqb].
  rewrite !(column_here _ rs [] pkg srcs Hnd Hin). auto.
Qed.

Lemma self_update_relooks_known_sources_witness :
  self_update (fun _ _ => []) (fun _ _ => []) (fun _ _ _ => [])
              (mkCstate sklearn_catalog [])
  = relookup_known (fun _ _ => []) (fun _ _ => []) (fun _ _ _ => [])
      "sklearn" [("pypi", "scikit-learn")] all_kinds
      (mkCstate sklearn_catalog []).
Proof.
  rewrite self_update_relooks_known_sources.
  - reflexivity.
  - simpl. constructor; [intros []|constructor].
Defined.

(* ===================================================================== *)
(** ** The per-source updates never lose a version                        *)
(* ===================================================================== *)

Lemma sset_keys_new V (d : sdict V) k v : In k (Dict.keys (sset d k v)).
Proof. apply shas_keys. now rewrite shas_sset, String.eqb_refl. Qed.

Lemma sset_keys_keep V (d : sdict V) k v k' :
  In k' (Dict.keys d) -> In k' (Dict.keys (sset d k v)).
Proof. apply keys_set_keep. Qed.

Lemma supdate_keys_keep V (d o : sdict V) k :
  In k (Dict.keys d) -> In k (Dict.keys (supdate d o)).
Proof.
  unfold supdate, Dict.update. revert d.
  induction o as [|[k0 v0] o IH]; intros d H; simpl; [exact H|].
  apply IH. now apply sset_keys_keep.
Qed.

Lemma supdate_keys_new V (d o : sdict V) k :
  In k (Dict.keys o) -> In k (Dict.keys (supdate d o)).
Proof.
  unfold supdate, Dict.update. revert d.
  induction o as [|[k0 v0] o IH]; intros d H; simpl in *; [destruct H|].
  destruct H as [->|H].
  - apply (supdate_keys_keep _ _ o). apply sset_keys_new.
  - now apply IH.
Qed.

(** [_reorder_versions] drops no key. *)
Lemma reorder_versions_keeps_keys (vdict : versions_t) k :
  In k (Dict.keys vdict) -> In k (Dict.keys (_reorder_versions vdict)).
Proof.
  intros Hin. unfold _reorder_versions.
  match goal with |- context [supdate ?r _] => set (retval1 := r) end.
  destruct (shas retval1 k) eqn:E.
  - apply supdate_keys_keep. now apply shas_keys.
  - apply supdate_keys_new.
    unfold Dict.keys in *. apply in_map_iff in Hin.
    destruct Hin as ([k' v] & Hk & Hin). simpl in Hk. subst k'.
    apply in_map_iff. exists (k, v). split; [reflexivity|].
    apply filter_In. split; [exact Hin|]. simpl. now rewrite E.
Qed.

Lemma supdate_keys_inv V (d o : sdict V) k :
  In k (Dict.keys (supdate d o)) -> In k (Dict.keys d) \/ In k (Dict.keys o).
Proof.
  unfold supdate, Dict.update. revert d.
  induction o as [|[k0 v0] o IH]; intros d H; simpl in *; [now left|].
  destruct (IH _ H) as [H1|H1]; [|right; now right].
  apply keys_set_inv in H1. destruct H1 as [H1| ->]; [now left|right; now left].
Qed.

Lemma sget_Some_keys V (d : sdict V) k v : sget d k = Some v -> In k (Dict.keys d).
Proof.
  intros H. apply sget_In in H. unfold Dict.keys. now apply (in_map fst) in H.
Qed.

(** [_reorder_versions] adds no key: with [reorder_versions_keeps_keys],
    the keys of the result are the keys of the argument. *)
Lemma reorder_versions_no_new_key (vdict : versions_t) k :
  In k (Dict.keys (_reorder_versions vdict)) -> In k (Dict.keys vdict).
Proof.
  unfold _reorder_versions. intros H.
  apply supdate_keys_inv in H. destruct H as [H|H].
  - revert H.
    generalize (sorted_reverse vlt (Dict.keys (reorder_version_map vdict))).
    intros l.
    assert (H0 : forall k, In k (Dict.keys
                (fold_left (fun rv key => match sget vdict key with
                                          | Some u => sset rv key u
                                          | None => rv
                                          end) protected [])) ->
                           In k (Dict.keys vdict)).
    { generalize protected. intros ps.
      assert (Hnil : forall k, In k (Dict.keys ([] : versions_t)) ->
                               In k (Dict.keys vdict)) by (intros ? []).
      revert Hnil. generalize ([] : versions_t).
      induction ps as [|key ps IH]; intros rv Hrv k0; simpl; [apply Hrv|].
      apply IH. intros k1 Hk1.
      destruct (sget vdict key) as [u|] eqn:E; [|now apply Hrv].
      apply keys_set_inv in Hk1. destruct Hk1 as [Hk1| ->]; [now apply Hrv|].
      now apply sget_Some_keys in E. }
    revert H0.
    generalize (fold_left (fun rv key => match sget vdict key with
                                         | Some u => sset rv key u
                                         | None => rv
                                         end) protected []).
    induction l as [|ver l IH]; intros rv Hrv; simpl; [apply Hrv|].
    apply IH. intros k1 Hk1.
    destruct (Dict.get veq (reorder_version_map vdict) ver) as [label|];
      [|now apply Hrv].
    destruct (sget vdict label) as [u|] eqn:E; [|now apply Hrv].
    apply keys_set_inv in Hk1. destruct Hk1 as [Hk1| ->]; [now apply Hrv|].
    now apply sget_Some_keys in E.
  - unfold Dict.keys in *. apply in_map_iff in H.
    destruct H as (kv & <- & Hin). apply filter_In in Hin.
    apply in_map. exact (proj1 Hin).
Qed.

Lemma setdefault_sget V (d : sdict V) k v k' :
  sget (Dict.setdefault String.eqb d k v) k'
  = if String.eqb k k' then Some (Dict.get_default String.eqb d k v) else sget d k'.
Proof.
  unfold Dict.setdefault, Dict.contains, Dict.get_default.
  fold (sget d k). fold (sset d k v).
  destruct (sget d k) eqn:E; simpl.
  - destruct (String.eqb k k') eqn:E1; [|reflexivity].
    apply String.eqb_eq in E1. now subst.
  - now rewrite sget_sset.
Qed.

(** After [_ensure_defaults] the package has a record with both
    sub-mappings, holding what they held before; other packages are not
    touched. *)
Lemma ensure_defaults_spec (d : Catalog) (pkg : string) :
  (exists rec,
     sget (_ensure_defaults d pkg) pkg = Some rec
     /\ sget rec "versions" = Some (versions_of d pkg)
     /\ sget rec "sources" = Some (sources_of d pkg))
  /\ forall q, q <> pkg -> sget (_ensure_defaults d pkg) q = sget d q.
Proof.
  unfold _ensure_defaults, versions_of, sources_of.
  rewrite setdefault_sget, String.eqb_refl.
  unfold Dict.get_default at 1. fold (sget d pkg).
  split.
  - eexists. rewrite sget_sset_same. split; [reflexivity|].
    rewrite !setdefault_sget. cbn [String.eqb Ascii.eqb Bool.eqb].
    destruct (sget d pkg) as [rec|]; [|split; reflexivity].
    split; [reflexivity|].
    unfold Dict.get_default at 1.
    fold (sget (Dict.setdefault String.eqb rec "versions" []) "sources").
    rewrite setdefault_sget. reflexivity.
  - intros q Hq. rewrite sget_sset_other by congruence.
    rewrite setdefault_sget.
    destruct (String.eqb pkg q) eqn:E; [|reflexivity].
    apply String.eqb_eq in E. congruence.
Qed.

Lemma versions_of_ensure_defaults d pkg :
  versions_of (_ensure_defaults d pkg) pkg = versions_of d pkg.
Proof.
  destruct (ensure_defaults_spec d pkg) as [(rec & H1 & H2 & _) _].
  unfold versions_of at 1. rewrite H1. unfold Dict.get_default.
  fold (sget rec "versions"). now rewrite H2.
Qed.

Lemma sources_of_ensure_defaults d pkg :
  sources_of (_ensure_defaults d pkg) pkg = sources_of d pkg.
Proof.
  destruct (ensure_defaults_spec d pkg) as [(rec & H1 & _ & H3) _].
  unfold sources_of at 1. rewrite H1. unfold Dict.get_default.
  fold (sget rec "sources"). now rewrite H3.
Qed.

(** The contract of the shared body: it returns, says whether the fetcher
    found anything, keeps every label, and on an empty answer only makes
    sure the defaults exist. *)
Lemma update_versions_from_keeps source versions ev st pkg name :
  exists st',
    update_versions_from source versions ev st pkg name
    = Ok (nonempty versions, st')
    /\ calls st' = calls st ++ [ev]
    /\ (forall label, In label (Dict.keys (versions_of (data st) pkg)) ->
        In label (Dict.keys (versions_of (data st') pkg)))
    /\ (forall q, q <> pkg -> sget (data st') q = sget (data st) q)
    /\ (versions = [] ->
        data st' = _ensure_defaults (data st) pkg
        /\ versions_of (data st') pkg = versions_of (data st) pkg
        /\ sources_of (data st') pkg = sources_of (data st) pkg).
Proof.
  unfold update_versions_from.
  destruct (ensure_defaults_spec (data st) pkg) as [(rec & H1 & H2 & H3) Hframe].
  destruct versions as [|kv versions]; cbn [nonempty].
  - eexists. split; [reflexivity|]. cbn [data calls].
    split; [reflexivity|]. split.
    + intros label. now rewrite versions_of_ensure_defaults.
    + split; [exact Hframe|]. intros _. split; [reflexivity|].
      split; [apply versions_of_ensure_defaults|apply sources_of_ensure_defaults].
  - unfold getitem. rewrite H1. cbn [bind]. rewrite H2. cbn [bind].
    rewrite sget_sset_other by discriminate. rewrite H3. cbn [bind].
    eexists. split; [reflexivity|]. cbn [data calls].
    split; [reflexivity|]. split; [|split].
    + intros label Hl. unfold versions_of at 1.
      rewrite sget_sset_same. unfold Dict.get_default.
      fold (sget (sset (sset rec "versions"
                          (_reorder_versions (supdate (versions_of (data st) pkg)
                                                      (kv :: versions))))
                       "sources" (sset (sources_of (data st) pkg) source name))
                 "versions").
      rewrite sget_sset_other by discriminate. rewrite sget_sset_same.
      apply reorder_versions_keeps_keys. now apply supdate_keys_keep.
    + intros q Hq. rewrite sget_sset_other by congruence. now apply Hframe.
    + discriminate.
Qed.

(** C10: each per-source update returns, keeps every version label the
    package had before the call, and leaves the other packages alone; when
    the fetcher answers with the empty mapping it returns [False] and the
    catalog is the one before the call with the default sub-mappings made
    sure of, the package's versions and sources being what they were. *)
Theorem update_versions_never_lose_versions
  (fenv frtd : list event -> string -> versions_t)
  (fpypi : list event -> string -> Z -> versions_t)
  (st : cstate) (pkg : string) (name : option string) (max_entries : Z) :
  keeps_versions st pkg (fenv (calls st) (name_or name pkg))
    (update_versions_from_environment fenv st pkg name)
  /\ keeps_versions st pkg (frtd (calls st) (name_or name pkg))
       (update_versions_from_rtd frtd st pkg name)
  /\ keeps_versions st pkg (fpypi (calls st) (name_or name pkg) max_entries)
       (update_versions_from_pypi fpypi st pkg name max_entries).
Proof.
  unfold keeps_versions.
  unfold update_versions_from_environment, update_versions_from_rtd,
    update_versions_from_pypi.
  repeat split.
  all: match goal with
       | |- exists _, update_versions_from ?s ?v ?e ?st ?p ?n = _ /\ _ =>
           destruct (update_versions_from_keeps s v e st p n)
             as (st' & Hr & _ & Hk & Hf & He);
           exists st'; split; [exact Hr|]; split; [exact Hk|];
           split; [exact Hf|]; intros Hv;
           split; [rewrite Hr, Hv; reflexivity|now apply He]
       end.
Qed.

(* ===================================================================== *)
(** ** The order of versions is a total preorder                          *)
(* ===================================================================== *)

Section CmpFacts.
Context {A : Type} {C : Cmp A} {L : CmpLaws A}.

Lemma cmp_refl (x : A) : cmp x x = Eq.
Proof.
  pose proof (cmp_antisym x x) as H.
  destruct (cmp x x); simpl in H; congruence.
Qed.

Lemma cmp_eq_sym (x y : A) : cmp x y = Eq -> cmp y x = Eq.
Proof. intros H. now rewrite cmp_antisym, H. Qed.

Lemma cmp_eq_r (x y z : A) : cmp y z = Eq -> cmp x y = cmp x z.
Proof.
  intros H. rewrite (cmp_antisym y x), (cmp_antisym z x).
  f_equal. now apply cmp_eq_l.
Qed.

Lemma cmp_gt_lt (x y : A) : cmp x y = Gt <-> cmp y x = Lt.
Proof.
  rewrite (cmp_antisym x y). destruct (cmp x y); simpl; split; congruence.
Qed.

(** [not (z < x)] follows from [not (y < x)] and [not (z < y)]. *)
Lemma cmp_le_trans (x y z : A) :
  cmp x y <> Gt -> cmp y z <> Gt -> cmp x z <> Gt.
Proof.
  intros H1 H2 H3.
  destruct (cmp x y) eqn:E1; [| |congruence].
  - rewrite (cmp_eq_l x y z E1) in H3. congruence.
  - destruct (cmp y z) eqn:E2; [| |congruence].
    + rewrite <- (cmp_eq_r x y z E2) in H3. congruence.
    + rewrite (cmp_lt_trans x y z E1 E2) in H3. discriminate.
Qed.

End CmpFacts.

(** Laws are inherited along any key function. *)
Lemma CmpLaws_via {A B} (f : A -> B) {CB : Cmp B} {LB : CmpLaws B} :
  @CmpLaws A (fun x y => cmp (f x) (f y)).
Proof.
  split.
  - intros x y. exact (cmp_antisym (f x) (f y)).
  - intros x y z. exact (cmp_eq_l (f x) (f y) (f z)).
  - intros x y z. exact (cmp_lt_trans (f x) (f y) (f z)).
Qed.

#[export] Instance CmpLaws_N : CmpLaws N.
Proof.
  split; unfold cmp, cmp_N.
  - intros x y. apply N.compare_antisym.
  - intros x y z H. apply N.compare_eq in H. now subst.
  - intros x y z H1 H2. rewrite N.compare_lt_iff in *. now apply N.lt_trans with y.
Qed.

Lemma cmp_pair_unfold {A B} {CA : Cmp A} {CB : Cmp B} (a a' : A) (b b' : B) :
  cmp (a, b) (a', b') = match cmp a a' with Eq => cmp b b' | c => c end.
Proof. reflexivity. Qed.

Lemma cmp_cons_unfold {A} {CA : Cmp A} (a b : A) (x y : list A) :
  cmp (a :: x) (b :: y) = match cmp a b with Eq => cmp x y | c => c end.
Proof. reflexivity. Qed.

Lemma cmp_Fin_unfold {A} {CA : Cmp A} (a b : A) : cmp (Fin a) (Fin b) = cmp a b.
Proof. reflexivity. Qed.

#[export] Instance CmpLaws_pair {A B} {CA : Cmp A} {CB : Cmp B}
  {LA : CmpLaws A} {LB : CmpLaws B} : CmpLaws (A * B).
Proof.
  split.
  - intros [a b] [a' b']. rewrite !cmp_pair_unfold.
    rewrite (cmp_antisym a a'). destruct (cmp a a'); simpl; auto.
    apply cmp_antisym.
  - intros [a b] [a' b'] [a'' b'']. rewrite !cmp_pair_unfold.
    destruct (cmp a a') eqn:E; try discriminate.
    intros H. rewrite (cmp_eq_l a a' a'' E).
    destruct (cmp a' a''); auto. now apply cmp_eq_l.
  - intros [a b] [a' b'] [a'' b'']. rewrite !cmp_pair_unfold.
    destruct (cmp a a') eqn:E1; try discriminate; intros H1.
    + rewrite (cmp_eq_l a a' a'' E1).
      destruct (cmp a' a''); try discriminate; auto.
      intros H2. now apply (cmp_lt_trans b b' b'').
    + destruct (cmp a' a'') eqn:E2; try discriminate; intros H2.
      * now rewrite <- (cmp_eq_r a a' a'' E2), E1.
      * now rewrite (cmp_lt_trans a a' a'' E1 E2).
Qed.

#[export] Instance CmpLaws_list {A} {CA : Cmp A} {LA : CmpLaws A} : CmpLaws (list A).
Proof.
  split.
  - intros x. induction x as [|a x IH]; intros [|b y]; try reflexivity.
    rewrite !cmp_cons_unfold, (cmp_antisym a b).
    destruct (cmp a b); simpl; auto.
  - intros x. induction x as [|a x IH]; intros [|b y] [|c z];
      try discriminate; try reflexivity.
    rewrite !cmp_cons_unfold.
    destruct (cmp a b) eqn:E; try discriminate.
    intros H. rewrite (cmp_eq_l a b c E).
    destruct (cmp b c); auto.
  - intros x. induction x as [|a x IH]; intros [|b y] [|c z];
      try discriminate; try reflexivity.
    rewrite !cmp_cons_unfold.
    destruct (cmp a b) eqn:E1; try discriminate; intros H1.
    + rewrite (cmp_eq_l a b c E1).
      destruct (cmp b c); try discriminate; auto.
      intros H2. now apply (IH y z).
    + destruct (cmp b c) eqn:E2; try discriminate; intros H2.
      * now rewrite <- (cmp_eq_r a b c E2), E1.
      * now rewrite (cmp_lt_trans a b c E1 E2).
Qed.

#[export] Instance CmpLaws_ext {A} {CA : Cmp A} {LA : CmpLaws A} : CmpLaws (ext A).
Proof.
  split.
  - intros [|a|] [|b|]; try reflexivity.
    rewrite !cmp_Fin_unfold. apply cmp_antisym.
  - intros [|a|] [|b|] [|c|]; try discriminate; try reflexivity.
    rewrite !cmp_Fin_unfold. apply cmp_eq_l.
  - intros [|a|] [|b|] [|c|]; try discriminate; try reflexivity.
    rewrite !cmp_Fin_unfold. apply cmp_lt_trans.
Qed.

#[export] Instance CmpLaws_string : CmpLaws string :=
  CmpLaws_via (fun s => map N_of_ascii (list_ascii_of_string s)).

#[export] Instance CmpLaws_pre_letter : CmpLaws pre_letter :=
  CmpLaws_via pre_letter_str.

#[export] Instance CmpLaws_Version : CmpLaws Version := CmpLaws_via _cmpkey.

(** [<] and [==] on versions. *)
Lemma vlt_irrefl k : vlt k k = false.
Proof. unfold vlt. now rewrite cmp_refl. Qed.

Lemma vlt_asym a b : vlt a b = true -> vlt b a = false.
Proof.
  unfold vlt. rewrite (cmp_antisym a b). now destruct (cmp a b).
Qed.

Lemma vlt_trans a b c : vlt a b = true -> vlt b c = true -> vlt a c = true.
Proof.
  unfold vlt. destruct (cmp a b) eqn:E1; try discriminate.
  destruct (cmp b c) eqn:E2; try discriminate.
  now rewrite (cmp_lt_trans a b c E1 E2).
Qed.

(** [a <= b] read as [not (b < a)] is transitive. *)
Lemma vle_trans a b c : vlt b a = false -> vlt c b = false -> vlt c a = false.
Proof.
  unfold vlt. intros H1 H2.
  assert (Hab : cmp a b <> Gt).
  { intros H. apply cmp_gt_lt in H. now rewrite H in H1. }
  assert (Hbc : cmp b c <> Gt).
  { intros H. apply cmp_gt_lt in H. now rewrite H in H2. }
  pose proof (cmp_le_trans a b c Hab Hbc) as Hac.
  destruct (cmp c a) eqn:E; auto.
  exfalso. apply Hac. now apply cmp_gt_lt.
Qed.

Lemma veq_refl k : veq k k = true.
Proof. unfold veq. now rewrite cmp_refl. Qed.

Lemma veq_sym a b : veq a b = veq b a.
Proof. unfold veq. rewrite (cmp_antisym a b). now destruct (cmp a b). Qed.

Lemma veq_trans a b c : veq a b = true -> veq b c = true -> veq a c = true.
Proof.
  unfold veq. destruct (cmp a b) eqn:E; try discriminate. intros _.
  now rewrite (cmp_eq_l a b c E).
Qed.

(** Versions are equal, or one is smaller. *)
Lemma vlt_total a b : veq a b = false -> vlt a b = false -> vlt b a = true.
Proof.
  unfold veq, vlt. rewrite (cmp_antisym a b). now destruct (cmp a b).
Qed.

Lemma veq_vlt_l a b c : veq a b = true -> vlt a c = vlt b c.
Proof.
  unfold veq, vlt. destruct (cmp a b) eqn:E; try discriminate. intros _.
  now rewrite (cmp_eq_l a b c E).
Qed.

Lemma veq_vlt_r a b c : veq b c = true -> vlt a b = vlt a c.
Proof.
  unfold veq, vlt. destruct (cmp b c) eqn:E; try discriminate. intros _.
  now rewrite (cmp_eq_r a b c E).
Qed.

Lemma oveq_refl k : oveq k k = true.
Proof. destruct k; simpl; [apply veq_refl|reflexivity]. Qed.

Lemma oveq_sym a b : oveq a b = oveq b a.
Proof. destruct a, b; simpl; auto. apply veq_sym. Qed.

Lemma oveq_trans a b c : oveq a b = true -> oveq b c = true -> oveq a c = true.
Proof. destruct a, b, c; simpl; try discriminate; auto. apply veq_trans. Qed.

(* ===================================================================== *)
(** ** [sorted] sorts                                                     *)
(* ===================================================================== *)

Section SortedFacts.
Variable A : Type.
Variable lt : A -> A -> bool.
Hypothesis lt_asym : forall a b, lt a b = true -> lt b a = false.
Hypothesis le_trans :
  forall a b c, lt b a = false -> lt c b = false -> lt c a = false.

(** [a <= b], that is [not (b < a)]. *)
Let le (a b : A) : Prop := lt b a = false.

Lemma insert_In x l y : In y (insert lt x l) <-> y = x \/ In y l.
Proof.
  induction l as [|z l IH]; simpl.
  - intuition.
  - destruct (lt z x); simpl; [rewrite IH|]; intuition.
Qed.

Lemma sorted_In l y : In y (sorted lt l) <-> In y l.
Proof.
  induction l as [|x l IH]; simpl; [reflexivity|].
  rewrite insert_In, IH. intuition.
Qed.

Lemma insert_sorted x l :
  StronglySorted le l -> StronglySorted le (insert lt x l).
Proof.
  induction 1 as [|z l Hs IH Hall]; simpl.
  - constructor; constructor.
  - destruct (lt z x) eqn:E.
    + constructor; [exact IH|].
      apply Forall_forall. intros y Hy. apply insert_In in Hy.
      destruct Hy as [->|Hy].
      * unfold le. now apply lt_asym.
      * rewrite Forall_forall in Hall. now apply Hall.
    + constructor; [now constructor|].
      constructor; [exact E|].
      rewrite Forall_forall in *. intros y Hy.
      unfold le. apply le_trans with z; [exact E|now apply Hall].
Qed.

Lemma sorted_StronglySorted l : StronglySorted le (sorted lt l).
Proof.
  induction l as [|x l IH]; simpl; [constructor|now apply insert_sorted].
Qed.

Lemma StronglySorted_filter (R : A -> A -> Prop) p l :
  StronglySorted R l -> StronglySorted R (filter p l).
Proof.
  induction 1 as [|z l Hs IH Hall]; simpl; [constructor|].
  destruct (p z); [|exact IH].
  constructor; [exact IH|].
  rewrite Forall_forall in *. intros y Hy. apply filter_In in Hy. now apply Hall.
Qed.

Lemma StronglySorted_last (R : A -> A -> Prop) l x :
  StronglySorted R (l ++ [x]) -> forall y, In y l -> R y x.
Proof.
  induction l as [|z l IH]; simpl; intros Hs y Hy; [destruct Hy|].
  inversion Hs as [|? ? Hs' Hall]; subst.
  destruct Hy as [->|Hy].
  - rewrite Forall_forall in Hall. apply Hall. apply in_or_app. right. now left.
  - now apply IH.
Qed.

Lemma StronglySorted_snoc (R : A -> A -> Prop) l x :
  StronglySorted R l -> Forall (fun y => R y x) l -> StronglySorted R (l ++ [x]).
Proof.
  induction 1 as [|w m Hs IH Hw]; simpl; intros Hall.
  - constructor; constructor.
  - inversion Hall as [|? ? Hwx Hall']; subst.
    constructor; [now apply IH|].
    apply Forall_forall. intros y Hy. apply in_app_or in Hy.
    destruct Hy as [Hy|[<-|[]]]; [|exact Hwx].
    rewrite Forall_forall in Hw. now apply Hw.
Qed.

Lemma StronglySorted_rev (R : A -> A -> Prop) l :
  StronglySorted R l -> StronglySorted (fun a b => R b a) (rev l).
Proof.
  induction 1 as [|z l Hs IH Hall]; simpl; [constructor|].
  apply StronglySorted_snoc; [exact IH|].
  rewrite Forall_forall in *. intros y Hy. apply Hall. now apply in_rev.
Qed.

(** The last element of the sorted list that passes a test is a greatest
    element among those of the list that pass it. *)
Lemma sorted_filter_last p l s rest :
  rev (filter p (sorted lt l)) = s :: rest ->
  In s l /\ p s = true /\ forall y, In y l -> p y = true -> lt s y = false.
Proof.
  intros H.
  assert (Hf : filter p (sorted lt l) = rev rest ++ [s]).
  { rewrite <- (rev_involutive (filter p (sorted lt l))), H. reflexivity. }
  assert (Hin : In s (filter p (sorted lt l))).
  { rewrite Hf. apply in_or_app. right. now left. }
  apply filter_In in Hin. destruct Hin as [Hin Hp].
  split; [now apply sorted_In|]. split; [exact Hp|].
  intros y Hy Hpy.
  assert (Hy' : In y (filter p (sorted lt l))).
  { apply filter_In. split; [now apply sorted_In|exact Hpy]. }
  rewrite Hf in Hy'. apply in_app_or in Hy'. destruct Hy' as [Hy'|[<-|[]]].
  - pose proof (StronglySorted_filter le p _ (sorted_StronglySorted l)) as Hs.
    rewrite Hf in Hs. exact (StronglySorted_last le _ _ Hs y Hy').
  - destruct (lt s s) eqn:E; [|reflexivity].
    now rewrite (lt_asym _ _ E) in E.
Qed.

Lemma filter_true (l : list A) : filter (fun _ => true) l = l.
Proof. induction l as [|x l IH]; simpl; [reflexivity|now rewrite IH]. Qed.

Lemma sorted_last l s rest :
  rev (sorted lt l) = s :: rest ->
  In s l /\ forall y, In y l -> lt s y = false.
Proof.
  intros H. rewrite <- (filter_true (sorted lt l)) in H.
  apply sorted_filter_last in H. destruct H as (H1 & _ & H2).
  split; [exact H1|]. intros y Hy. now apply H2.
Qed.

End SortedFacts.

(* ===================================================================== *)
(** ** Dictionaries whose keys compare through an equivalence             *)
(* ===================================================================== *)

Section DictEquiv.
Variables K V : Type.
Variable keq : K -> K -> bool.
Hypothesis keq_refl : forall a, keq a a = true.
Hypothesis keq_sym : forall a b, keq a b = keq b a.
Hypothesis keq_trans : forall a b c, keq a b = true -> keq b c = true -> keq a c = true.

Lemma keq_congr a b c : keq a b = true -> keq a c = keq b c.
Proof.
  intros H. destruct (keq b c) eqn:E.
  - now apply keq_trans with b.
  - destruct (keq a c) eqn:E'; [|reflexivity].
    rewrite keq_sym in H. now rewrite (keq_trans _ _ _ H E') in E.
Qed.

Lemma get_set (d : Dict.t K V) k v k' :
  Dict.get keq (Dict.set keq d k v) k'
  = if keq k k' then Some v else Dict.get keq d k'.
Proof.
  induction d as [|[k0 v0] r IH]; simpl; [reflexivity|].
  destruct (keq k0 k) eqn:E0; simpl.
  - rewrite (keq_congr _ _ k' E0). now destruct (keq k k').
  - rewrite IH. destruct (keq k0 k') eqn:E1; [|reflexivity].
    destruct (keq k k') eqn:E2; [|reflexivity].
    rewrite keq_sym in E2. now rewrite (keq_trans _ _ _ E1 E2) in E0.
Qed.

Lemma get_Some_key (d : Dict.t K V) k v :
  Dict.get keq d k = Some v ->
  exists k0, In k0 (Dict.keys d) /\ keq k0 k = true.
Proof.
  induction d as [|[k0 v0] r IH]; simpl; [discriminate|].
  destruct (keq k0 k) eqn:E.
  - intros _. exists k0. split; [now left|exact E].
  - intros H. destruct (IH H) as (k1 & H1 & H2). exists k1. split; [now right|exact H2].
Qed.

Lemma key_get_Some (d : Dict.t K V) k0 :
  In k0 (Dict.keys d) -> exists v, Dict.get keq d k0 = Some v.
Proof.
  induction d as [|[k1 v1] r IH]; simpl; [intros []|].
  intros [->|H].
  - rewrite keq_refl. now exists v1.
  - destruct (keq k1 k0); [now exists v1|now apply IH].
Qed.

Lemma keys_set_cases (d : Dict.t K V) k v :
  (exists k0, In k0 (Dict.keys d) /\ keq k0 k = true
              /\ Dict.keys (Dict.set keq d k v) = Dict.keys d)
  \/ ((forall k0, In k0 (Dict.keys d) -> keq k0 k = false)
      /\ Dict.keys (Dict.set keq d k v) = Dict.keys d ++ [k]).
Proof.
  induction d as [|[k0 v0] r IH]; simpl.
  - right. split; [intros ? []|reflexivity].
  - destruct (keq k0 k) eqn:E; simpl.
    + left. exists k0. auto.
    + destruct IH as [(k1 & H1 & H2 & H3)|[H1 H2]].
      * left. exists k1. rewrite H3. auto.
      * right. rewrite H2. split; [|reflexivity].
        intros k1 [<-|H]; auto.
Qed.

Lemma distinct_keys_snoc l k :
  distinct_keys keq l -> (forall k0, In k0 l -> keq k0 k = false) ->
  distinct_keys keq (l ++ [k]).
Proof.
  induction 1 as [|a l Ha Hl IH]; simpl; intros Hk.
  - constructor; constructor.
  - constructor.
    + apply Forall_forall. intros y Hy. apply in_app_or in Hy.
      destruct Hy as [Hy|[<-|[]]].
      * rewrite Forall_forall in Ha. now apply Ha.
      * apply Hk. now left.
    + apply IH. intros k0 Hk0. apply Hk. now right.
Qed.

Lemma distinct_keys_set (d : Dict.t K V) k v :
  distinct_keys keq (Dict.keys d) -> distinct_keys keq (Dict.keys (Dict.set keq d k v)).
Proof.
  intros H. destruct (keys_set_cases d k v) as [(k1 & _ & _ & ->)|[H1 ->]].
  - exact H.
  - now apply distinct_keys_snoc.
Qed.

End DictEquiv.

(* ===================================================================== *)
(** ** The [version_map] of [_prepare_versions]                           *)
(* ===================================================================== *)

Lemma get_oveq (d : Dict.t (option Version) string) k v k' :
  Dict.get oveq (Dict.set oveq d k v) k'
  = if oveq k k' then Some v else Dict.get oveq d k'.
Proof. apply get_set; [apply oveq_sym|apply oveq_trans]. Qed.

Lemma version_map_get_from (labels : list string) acc k L :
  Dict.get oveq
    (fold_left (fun vm l => Dict.set oveq vm (_string2version l) l) labels acc) k
  = Some L ->
  (In L labels /\ oveq (_string2version L) k = true)
  \/ Dict.get oveq acc k = Some L.
Proof.
  revert acc. induction labels as [|l labels IH]; simpl; intros acc H.
  - now right.
  - destruct (IH _ H) as [[H1 H2]|H1].
    + left. split; [now right|exact H2].
    + rewrite get_oveq in H1.
      destruct (oveq (_string2version l) k) eqn:E.
      * injection H1 as <-. left. split; [now left|exact E].
      * now right.
Qed.

(** The label stored for a key is a label of the mapping that parses to an
    equal version. *)
Lemma version_map_get (versions : versions_t) k L :
  Dict.get oveq (prepare_version_map versions) k = Some L ->
  In L (Dict.keys versions) /\ oveq (_string2version L) k = true.
Proof.
  intros H. apply version_map_get_from in H.
  destruct H as [H|H]; [exact H|discriminate].
Qed.

Lemma version_map_has_from (labels : list string) acc k :
  (Dict.get oveq acc k <> None
   \/ exists l, In l labels /\ oveq (_string2version l) k = true) ->
  Dict.get oveq
    (fold_left (fun vm l => Dict.set oveq vm (_string2version l) l) labels acc) k
  <> None.
Proof.
  revert acc. induction labels as [|l labels IH]; simpl; intros acc H.
  - destruct H as [H|(l & [] & _)]. exact H.
  - apply IH. rewrite get_oveq.
    destruct (oveq (_string2version l) k) eqn:E; [left; discriminate|].
    destruct H as [H|(l' & [->|Hl'] & H2)].
    + now left.
    + congruence.
    + right. now exists l'.
Qed.

(** Every label has a key. *)
Lemma version_map_has (versions : versions_t) l :
  In l (Dict.keys versions) ->
  exists k0 L,
    In k0 (Dict.keys (prepare_version_map versions))
    /\ oveq k0 (_string2version l) = true
    /\ Dict.get oveq (prepare_version_map versions) k0 = Some L.
Proof.
  intros Hl.
  destruct (Dict.get oveq (prepare_version_map versions) (_string2version l))
    as [L|] eqn:E.
  - destruct (get_Some_key _ _ oveq _ _ _ E) as (k0 & Hk0 & Heq).
    destruct (key_get_Some _ _ oveq oveq_refl _ _ Hk0) as [L0 HL0].
    exists k0, L0. auto.
  - exfalso. revert E. apply version_map_has_from. right.
    exists l. split; [exact Hl|apply oveq_refl].
Qed.

Lemma version_map_distinct (versions : versions_t) :
  distinct_keys oveq (Dict.keys (prepare_version_map versions)).
Proof.
  unfold prepare_version_map.
  assert (H : distinct_keys oveq (Dict.keys ([] : Dict.t (option Version) string)))
    by constructor.
  revert H. generalize ([] : Dict.t (option Version) string).
  induction (Dict.keys versions) as [|l labels IH]; simpl; intros acc H.
  - exact H.
  - apply IH. now apply distinct_keys_set.
Qed.

Lemma not_none_In A (l : list (option A)) a : In a (not_none l) <-> In (Some a) l.
Proof.
  induction l as [|[b|] l IH]; simpl.
  - reflexivity.
  - rewrite IH. split; intros [H|H]; auto; left; congruence.
  - rewrite IH. split; [auto|]. intros [H|H]; [discriminate|exact H].
Qed.

Lemma not_none_distinct (l : list (option Version)) :
  distinct_keys oveq l ->
  ForallOrdPairs (fun a b => veq a b = false) (not_none l).
Proof.
  induction 1 as [|a l Ha Hl IH]; simpl; [constructor|].
  destruct a as [a|]; [|exact IH].
  constructor; [|exact IH].
  apply Forall_forall. intros b Hb. apply not_none_In in Hb.
  rewrite Forall_forall in Ha. exact (Ha _ Hb).
Qed.

(** Sorting versions no two of which are equal gives a strictly
    increasing list. *)
Lemma insert_strict x l :
  StronglySorted (fun a b => vlt a b = true) l ->
  (forall y, In y l -> veq x y = false) ->
  StronglySorted (fun a b => vlt a b = true) (insert vlt x l).
Proof.
  induction 1 as [|z l Hs IH Hall]; simpl; intros Hx.
  - constructor; constructor.
  - rewrite Forall_forall in Hall.
    destruct (vlt z x) eqn:E.
    + constructor; [apply IH; intros y Hy; apply Hx; now right|].
      apply Forall_forall. intros y Hy. apply insert_In in Hy.
      destruct Hy as [->|Hy]; [exact E|now apply Hall].
    + assert (Hxz : vlt x z = true).
      { apply vlt_total; [|exact E]. rewrite veq_sym. apply Hx. now left. }
      constructor; [constructor; [exact Hs|now apply Forall_forall]|].
      constructor; [exact Hxz|].
      apply Forall_forall. intros y Hy. apply vlt_trans with z; auto.
Qed.

Lemma sorted_strict l :
  ForallOrdPairs (fun a b => veq a b = false) l ->
  StronglySorted (fun a b => vlt a b = true) (sorted vlt l).
Proof.
  induction 1 as [|x l Hx Hl IH]; simpl; [constructor|].
  apply insert_strict; [exact IH|].
  intros y Hy. apply sorted_In in Hy. rewrite Forall_forall in Hx. now apply Hx.
Qed.

Lemma visit_order_decreasing (versions : versions_t) :
  StronglySorted (fun a b => vlt b a = true) (visit_order versions).
Proof.
  unfold visit_order.
  apply (StronglySorted_rev _ (fun a b => vlt a b = true)).
  apply sorted_strict, not_none_distinct, version_map_distinct.
Qed.

Lemma visit_order_In (versions : versions_t) k :
  In k (visit_order versions)
  <-> In (Some k) (Dict.keys (prepare_version_map versions)).
Proof.
  unfold visit_order. rewrite <- in_rev, sorted_In. apply not_none_In.
Qed.

(** A visited version is the parse of a label, and its entry in
    [version_map] is a label that parses to an equal version. *)
Lemma visit_order_entry (versions : versions_t) k :
  In k (visit_order versions) ->
  (exists l0, In l0 (Dict.keys versions) /\ _string2version l0 = Some k)
  /\ exists L kL,
       In L (Dict.keys versions)
       /\ _string2version L = Some kL /\ veq kL k = true
       /\ label_of (prepare_version_map versions) k = L.
Proof.
  intros Hk. apply visit_order_In in Hk. split.
  - apply prepare_version_map_keys in Hk. destruct Hk as (l0 & H1 & H2). eauto.
  - destruct (key_get_Some _ _ oveq oveq_refl _ _ Hk) as [L HL].
    pose proof (version_map_get _ _ _ HL) as [H1 H2].
    destruct (_string2version L) as [kL|] eqn:E; [|discriminate].
    exists L, kL. repeat split; auto.
    unfold label_of, Dict.get_default. now rewrite HL.
Qed.

(** Every parseable label is represented in the visit order. *)
Lemma visit_order_covers (versions : versions_t) l k :
  In l (Dict.keys versions) -> _string2version l = Some k ->
  exists k0, In k0 (visit_order versions) /\ veq k0 k = true.
Proof.
  intros Hl Hp. destruct (version_map_has _ _ Hl) as (k0 & L & H1 & H2 & _).
  rewrite Hp in H2. destruct k0 as [k0|]; [|discriminate].
  exists k0. split; [now apply visit_order_In|exact H2].
Qed.

(* ===================================================================== *)
(** ** The canonical string is never an alias                             *)
(* ===================================================================== *)

Lemma head_ok_append s t : head_ok s = true -> head_ok t = true -> head_ok (s ++ t) = true.
Proof. destruct s; simpl; auto. Qed.

Lemma head_ok_show_N n : head_ok (show_N n) = true.
Proof. unfold show_N. destruct (N.to_uint n); reflexivity. Qed.

Lemma head_ok_join_dot l : head_ok (join_dot l) = true.
Proof.
  destruct l as [|n [|m r]]; simpl; [reflexivity|apply head_ok_show_N|].
  apply head_ok_append; [apply head_ok_show_N|reflexivity].
Qed.

Lemma head_ok_public v : head_ok (public v) = true.
Proof.
  unfold public. repeat apply head_ok_append.
  - destruct (N.eqb (epoch v) 0); [reflexivity|].
    apply head_ok_append; [apply head_ok_show_N|reflexivity].
  - apply head_ok_join_dot.
  - destruct (pre v) as [[[] n]|]; reflexivity.
  - destruct (post v); reflexivity.
  - destruct (dev v); reflexivity.
Qed.

Lemma public_not_alias v : public v <> "latest" /\ public v <> "stable".
Proof.
  pose proof (head_ok_public v) as H.
  split; intros E; rewrite E in H; discriminate.
Qed.

(* ===================================================================== *)
(** ** The loop that registers the versions                               *)
(* ===================================================================== *)

Section RegisterLoop.
Variable versions : versions_t.
Let vm := prepare_version_map versions.

Lemma register_other rv k x :
  registers (label_of vm k) k x = false ->
  sget (register versions vm rv k) x = sget rv x.
Proof.
  unfold registers, register. fold vm.
  destruct (String.eqb (label_of vm k) x) eqn:E1; [discriminate|]. simpl.
  destruct (contains_dotx (label_of vm k)).
  - intros E2. rewrite !sget_sset, E2, E1. reflexivity.
  - destruct (String.eqb (public k) (label_of vm k)); simpl.
    + intros _. now rewrite sget_sset, E1.
    + intros E2. now rewrite !sget_sset, E2, E1.
Qed.

Lemma register_hit rv k x :
  registers (label_of vm k) k x = true ->
  sget (register versions vm rv k) x = Some (url_of versions vm k).
Proof.
  unfold registers, register. fold vm.
  destruct (contains_dotx (label_of vm k)).
  - rewrite !sget_sset.
    destruct (String.eqb (replace_dotx (label_of vm k)) x); [reflexivity|].
    rewrite orb_false_r. now intros ->.
  - destruct (String.eqb (public k) (label_of vm k)); simpl.
    + rewrite orb_false_r, sget_sset. now intros ->.
    + rewrite !sget_sset.
      destruct (String.eqb (public k) x); [reflexivity|].
      rewrite orb_false_r. now intros ->.
Qed.

Lemma register_keys rv k x :
  In x (Dict.keys (register versions vm rv k)) <->
  In x (Dict.keys rv) \/ registers (label_of vm k) k x = true.
Proof.
  rewrite <- !shas_keys.
  unfold shas, Dict.contains.
  fold (sget (register versions vm rv k) x). fold (sget rv x).
  destruct (registers (label_of vm k) k x) eqn:E.
  - rewrite (register_hit _ _ _ E). simpl. intuition.
  - rewrite (register_other _ _ _ E). intuition discriminate.
Qed.

Lemma fold_register_other l rv x :
  (forall k, In k l -> registers (label_of vm k) k x = false) ->
  sget (fold_left (register versions vm) l rv) x = sget rv x.
Proof.
  revert rv. induction l as [|k l IH]; simpl; intros rv H; [reflexivity|].
  rewrite IH by (intros k' Hk'; apply H; now right).
  apply register_other. apply H. now left.
Qed.

Lemma fold_register_keys l rv x :
  In x (Dict.keys (fold_left (register versions vm) l rv)) <->
  In x (Dict.keys rv) \/ exists k, In k l /\ registers (label_of vm k) k x = true.
Proof.
  revert rv. induction l as [|k l IH]; simpl; intros rv.
  - split; [auto|]. intros [H|(k & [] & _)]. exact H.
  - rewrite IH, register_keys. split.
    + intros [[H|H]|(k' & H1 & H2)]; eauto.
    + intros [H|(k' & [<-|H1] & H2)]; eauto.
Qed.

(** Later rounds win: a key is left with the URL of the smallest version
    that registers it. *)
Lemma fold_register_smallest l rv x :
  StronglySorted (fun a b => vlt b a = true) l ->
  (exists k, In k l /\ registers (label_of vm k) k x = true) ->
  exists k,
    In k l /\ registers (label_of vm k) k x = true
    /\ sget (fold_left (register versions vm) l rv) x = Some (url_of versions vm k)
    /\ forall k', In k' l -> registers (label_of vm k') k' x = true ->
                  vlt k' k = false.
Proof.
  intros Hs. revert rv. induction Hs as [|a l Hs IH Ha]; intros rv Hex.
  - destruct Hex as (k & [] & _).
  - rewrite Forall_forall in Ha. simpl.
    destruct (existsb (fun k => registers (label_of vm k) k x) l) eqn:E.
    + apply existsb_exists in E.
      destruct (IH (register versions vm rv a) E) as (k & H1 & H2 & H3 & H4).
      exists k. split; [now right|]. split; [exact H2|]. split; [exact H3|].
      intros k' [<-|Hk'] Hr; [|now apply H4].
      apply vlt_asym. now apply Ha.
    + assert (Hnone : forall k, In k l -> registers (label_of vm k) k x = false).
      { intros k Hk. destruct (registers (label_of vm k) k x) eqn:E'; [|reflexivity].
        assert (existsb (fun k => registers (label_of vm k) k x) l = true)
          by (apply existsb_exists; eauto).
        congruence. }
      destruct Hex as (k & [<-|Hk] & Hr); [|rewrite (Hnone _ Hk) in Hr; discriminate].
      exists a. split; [now left|]. split; [exact Hr|]. split.
      * rewrite (fold_register_other _ _ _ Hnone). now apply register_hit.
      * intros k' [<-|Hk'] Hr'; [apply vlt_irrefl|].
        rewrite (Hnone _ Hk') in Hr'. discriminate.
Qed.

End RegisterLoop.

(* ===================================================================== *)
(** ** ["latest"] and ["stable"] when a label parses                      *)
(* ===================================================================== *)

Lemma cmp_pair_Eq {A B} {CA : Cmp A} {CB : Cmp B} (a a' : A) (b b' : B) :
  cmp (a, b) (a', b') = Eq -> cmp a a' = Eq /\ cmp b b' = Eq.
Proof.
  rewrite cmp_pair_unfold. destruct (cmp a a'); try discriminate. auto.
Qed.

(** Equal versions are pre-releases, and dev-releases, together. *)
Lemma veq_same_kind a b :
  veq a b = true ->
  is_prerelease a = is_prerelease b /\ is_devrelease a = is_devrelease b.
Proof.
  unfold veq. destruct (cmp a b) eqn:E; try discriminate. intros _.
  unfold cmp, cmp_Version, _cmpkey in E.
  apply cmp_pair_Eq in E. destruct E as [_ E].
  apply cmp_pair_Eq in E. destruct E as [_ E].
  apply cmp_pair_Eq in E. destruct E as [Hpre E].
  apply cmp_pair_Eq in E. destruct E as [_ E].
  apply cmp_pair_Eq in E. destruct E as [Hdev _].
  unfold is_prerelease, is_devrelease.
  destruct (pre a), (post a), (dev a), (pre b), (post b), (dev b);
    try discriminate; split; reflexivity.
Qed.

Lemma veq_is_final a b : veq a b = true -> is_final a = is_final b.
Proof.
  intros H. destruct (veq_same_kind _ _ H) as [H1 H2].
  unfold is_final. now rewrite H1, H2.
Qed.

Lemma sget_of_key V (d : sdict V) k : In k (Dict.keys d) -> exists v, sget d k = Some v.
Proof.
  intros H. destruct (sget d k) eqn:E; [eauto|].
  apply sget_None_keys in E. contradiction.
Qed.

(** The loop writes neither ["latest"] nor ["stable"]. *)
Lemma registers_not_alias (versions : versions_t) k :
  In k (visit_order versions) ->
  registers (label_of (prepare_version_map versions) k) k "latest" = false
  /\ registers (label_of (prepare_version_map versions) k) k "stable" = false.
Proof.
  intros Hk.
  destruct (visit_order_entry _ _ Hk) as [_ (L & kL & _ & HL & _ & ->)].
  destruct (public_not_alias k) as [Hp1 Hp2].
  apply String.eqb_neq in Hp1, Hp2.
  assert (H1 : forall a, _string2version a = None -> String.eqb L a = false).
  { intros a Ha. apply String.eqb_neq. intros ->. congruence. }
  assert (H2 : forall a, parse a = None -> String.eqb (replace_dotx L) a = false).
  { intros a Ha. apply String.eqb_neq. intros E.
    unfold _string2version in HL. rewrite E in HL. congruence. }
  unfold registers.
  rewrite (H1 "latest" eq_refl), (H1 "stable" eq_refl),
    (H2 "latest" eq_refl), (H2 "stable" eq_refl), Hp1, Hp2.
  rewrite !andb_false_r. now destruct (contains_dotx L).
Qed.

(** The expansion when the visit order starts with [latest]. *)
Lemma prepare_versions_parseable (versions : versions_t) latest rest :
  visit_order versions = latest :: rest ->
  let vm := prepare_version_map versions in
  let stable :=
    match rev (filter (fun k => negb (is_prerelease k || is_devrelease k))
                      (sorted vlt (not_none (Dict.keys vm)))) with
    | s :: _ => s
    | [] => latest
    end in
  _prepare_versions versions
  = fold_left (register versions vm) (visit_order versions)
      (sset (sset [] "latest"
               (Dict.get_default String.eqb versions "latest"
                  (url_of versions vm latest)))
            "stable"
            (Dict.get_default String.eqb versions "stable"
               (url_of versions vm stable))).
Proof.
  intros Hvo vm stable. subst vm stable. unfold _prepare_versions.
  destruct versions as [|e r]; [discriminate|].
  unfold visit_order in *. now rewrite Hvo.
Qed.

(** The label stored for a greatest visited version is a greatest label. *)
Lemma greatest_of_visited (versions : versions_t) (ok : Version -> bool) s :
  (forall a b, veq a b = true -> ok a = ok b) ->
  In s (visit_order versions) -> ok s = true ->
  (forall y, In y (visit_order versions) -> ok y = true -> vlt s y = false) ->
  exists L k,
    greatest versions ok L k
    /\ label_of (prepare_version_map versions) s = L.
Proof.
  intros Hok Hs Hoks Hmax.
  destruct (visit_order_entry _ _ Hs) as [_ (L & kL & HL & Hp & Heq & Hlab)].
  exists L, kL. split; [|exact Hlab].
  split; [exact HL|]. split; [exact Hp|]. split.
  - now rewrite (Hok _ _ Heq).
  - intros l' k' Hl' Hp' Hok'.
    destruct (visit_order_covers _ _ _ Hl' Hp') as (k0 & Hk0 & Heq0).
    rewrite (veq_vlt_l _ _ _ Heq), <- (veq_vlt_r _ _ _ Heq0).
    apply Hmax; [exact Hk0|]. now rewrite (Hok _ _ Heq0).
Qed.

(** C1, counterexample: in a mapping with the entries ["latest"],
    ["stable"] and ["1.0"], the only label that parses is ["1.0"], yet the
    expansion maps ["latest"] and ["stable"] to the URLs of the existing
    entries of those names, not to the URL of ["1.0"]. *)
Lemma expand_keeps_existing_aliases :
  (exists l k, In l (Dict.keys rtd_versions) /\ _string2version l = Some k)
  /\ sget (_prepare_versions rtd_versions) "latest"
     = Some "https://p.readthedocs.io/en/latest/"
  /\ sget (_prepare_versions rtd_versions) "stable"
     = Some "https://p.readthedocs.io/en/stable/"
  /\ ~ (exists L k,
          greatest rtd_versions (fun _ => true) L k
          /\ sget (_prepare_versions rtd_versions) "latest" = sget rtd_versions L)
  /\ ~ (exists S k,
          greatest rtd_versions is_final S k
          /\ sget (_prepare_versions rtd_versions) "stable" = sget rtd_versions S).
Proof.
  assert (Honly : forall l k, In l (Dict.keys rtd_versions) ->
                              _string2version l = Some k -> l = "1.0").
  { intros l k [<-|[<-|[<-|[]]]]; try discriminate. reflexivity. }
  split; [eexists "1.0", _; split; [simpl; auto|reflexivity]|].
  split; [reflexivity|]. split; [reflexivity|].
  split; intros (L & k & (HL & Hp & _) & H);
    rewrite (Honly L k HL Hp) in H; discriminate.
Qed.

(** C1, amended: when some label of the mapping parses as a version
    (after the removal of [".x"]), the expansion maps ["latest"] to the
    URL of the existing ["latest"] entry when there is one, and otherwise
    to the URL of a label [L] of greatest parsed version; it maps
    ["stable"] to the URL of the existing ["stable"] entry when there is
    one, and otherwise to the URL of a label of greatest parsed version
    among those that are neither pre-releases nor dev-releases, or to the
    URL of [L] when every parsed version is a pre-release or a
    dev-release. *)
Theorem expand_latest_stable (versions : versions_t) :
  (exists l k, In l (Dict.keys versions) /\ _string2version l = Some k) ->
  exists L kL,
    greatest versions (fun _ => true) L kL
    /\ sget (_prepare_versions versions) "latest"
       = match sget versions "latest" with
         | Some u => Some u
         | None => sget versions L
         end
    /\ exists S kS,
         (greatest versions is_final S kS
          \/ (S = L /\ kS = kL
              /\ forall l' k', In l' (Dict.keys versions) ->
                               _string2version l' = Some k' -> is_final k' = false))
         /\ sget (_prepare_versions versions) "stable"
            = match sget versions "stable" with
              | Some u => Some u
              | None => sget versions S
              end.
Proof.
  intros (l & k & Hl & Hp).
  destruct (visit_order_covers _ _ _ Hl Hp) as (k0 & Hk0 & _).
  destruct (visit_order versions) as [|latest rest] eqn:Hvo; [destruct Hk0|].
  pose proof (prepare_versions_parseable _ _ _ Hvo) as Hexp. cbv zeta in Hexp.
  set (vm := prepare_version_map versions) in *.
  (* the loop leaves the two aliases alone *)
  assert (Hlookup : forall x, (x = "latest" \/ x = "stable") ->
            sget (_prepare_versions versions) x
            = sget (sset (sset [] "latest"
                            (Dict.get_default String.eqb versions "latest"
                               (url_of versions vm latest)))
                         "stable"
                         (Dict.get_default String.eqb versions "stable"
                            (url_of versions vm
                               match rev (filter (fun k => negb (is_prerelease k || is_devrelease k))
                                            (sorted vlt (not_none (Dict.keys vm)))) with
                               | s :: _ => s
                               | [] => latest
                               end))) x).
  { intros x Hx. rewrite Hexp. apply fold_register_other.
    intros k1 Hk1.
    destruct (registers_not_alias _ _ Hk1) as [H1 H2].
    destruct Hx as [->| ->]; assumption. }
  (* latest *)
  pose proof Hvo as Hlast. unfold visit_order in Hlast.
  apply (sorted_last _ vlt vlt_asym vle_trans) in Hlast.
  destruct Hlast as [Hin Hmax].
  assert (Hvis : forall y, In y (visit_order versions) <-> In y (not_none (Dict.keys vm))).
  { intros y. unfold visit_order. now rewrite <- in_rev, sorted_In. }
  destruct (greatest_of_visited versions (fun _ => true) latest) as (L & kL & HgL & HlabL).
  { reflexivity. }
  { now apply Hvis. }
  { reflexivity. }
  { intros y Hy _. apply Hmax. now apply Hvis. }
  fold vm in HlabL.
  exists L, kL. split; [exact HgL|].
  destruct HgL as (HLin & HLp & _ & HLmax).
  destruct (sget_of_key _ _ _ HLin) as [uL HuL].
  assert (HurlL : url_of versions vm latest = uL).
  { unfold url_of. rewrite HlabL. unfold Dict.get_default.
    fold (sget versions L). now rewrite HuL. }
  split.
  { rewrite (Hlookup "latest") by now left.
    rewrite sget_sset_other by discriminate. rewrite sget_sset_same.
    unfold Dict.get_default. fold (sget versions "latest").
    destruct (sget versions "latest"); [reflexivity|]. now rewrite HurlL, HuL. }
  (* stable *)
  destruct (rev (filter (fun k => negb (is_prerelease k || is_devrelease k))
                        (sorted vlt (not_none (Dict.keys vm)))))
    as [|s rest'] eqn:Hst.
  - exists L, kL. split.
    + right. split; [reflexivity|]. split; [reflexivity|].
      intros l' k' Hl' Hp'.
      destruct (is_final k') eqn:Hf; [|reflexivity]. exfalso.
      destruct (visit_order_covers _ _ _ Hl' Hp') as (k1 & Hk1 & Heq1).
      assert (Hk1f : In k1 (filter (fun k => negb (is_prerelease k || is_devrelease k))
                                   (sorted vlt (not_none (Dict.keys vm))))).
      { apply filter_In. split; [apply sorted_In; now apply Hvis|].
        change (is_final k1 = true). now rewrite (veq_is_final _ _ Heq1). }
      apply in_rev in Hk1f. rewrite Hst in Hk1f. destruct Hk1f.
    + rewrite (Hlookup "stable") by now right.
      rewrite sget_sset_same.
      unfold Dict.get_default. fold (sget versions "stable").
      destruct (sget versions "stable"); [reflexivity|]. now rewrite HurlL, HuL.
  - apply (sorted_filter_last _ vlt vlt_asym vle_trans) in Hst.
    destruct Hst as (Hsin & Hsf & Hsmax).
    destruct (greatest_of_visited versions is_final s) as (S & kS & HgS & HlabS).
    { apply veq_is_final. }
    { now apply Hvis. }
    { exact Hsf. }
    { intros y Hy Hyf. apply Hsmax; [now apply Hvis|exact Hyf]. }
    fold vm in HlabS.
    exists S, kS. split; [now left|].
    destruct HgS as (HSin & _).
    destruct (sget_of_key _ _ _ HSin) as [uS HuS].
    rewrite (Hlookup "stable") by now right.
    rewrite sget_sset_same.
    unfold Dict.get_default. fold (sget versions "stable").
    destruct (sget versions "stable"); [reflexivity|].
    unfold url_of. rewrite HlabS. unfold Dict.get_default.
    fold (sget versions S). now rewrite HuS.
Qed.

Lemma expand_latest_stable_witness :
  exists L kL,
    greatest release_versions (fun _ => true) L kL
    /\ sget (_prepare_versions release_versions) "latest"
       = match sget release_versions "latest" with
         | Some u => Some u
         | None => sget release_versions L
         end
    /\ exists S kS,
         (greatest release_versions is_final S kS
          \/ (S = L /\ kS = kL
              /\ forall l' k', In l' (Dict.keys release_versions) ->
                               _string2version l' = Some k' -> is_final k' = false))
         /\ sget (_prepare_versions release_versions) "stable"
            = match sget release_versions "stable" with
              | Some u => Some u
              | None => sget release_versions S
              end.
Proof.
  apply expand_latest_stable.
  eexists "v2.2.0", _. split; [now left|reflexivity].
Defined.

(* ===================================================================== *)
(** ** What the expansion contains                                        *)
(* ===================================================================== *)

(** The expansion when no version is visited. *)
Lemma prepare_versions_aliases_only (versions : versions_t) :
  versions <> [] -> visit_order versions = [] ->
  _prepare_versions versions
  = [("latest", alias_chain versions ["latest"; "stable"; "master"; "main"]);
     ("stable", alias_chain versions ["stable"; "latest"; "master"; "main"])].
Proof.
  intros Hne Hvo. unfold _prepare_versions.
  destruct versions as [|e r]; [contradiction|].
  unfold visit_order in Hvo. now rewrite Hvo.
Qed.

Lemma registers_cases label k x :
  registers label k x = true ->
  x = label \/ x = replace_dotx label \/ x = public k.
Proof.
  unfold registers.
  destruct (String.eqb label x) eqn:E1; [apply String.eqb_eq in E1; auto|]. simpl.
  destruct (contains_dotx label).
  - intros E2. apply String.eqb_eq in E2. auto.
  - intros E2. apply andb_true_iff in E2. destruct E2 as [_ E2].
    apply String.eqb_eq in E2. auto.
Qed.

(** With distinct versions, the visited versions and their labels are the
    parseable labels and their parses. *)
Lemma distinct_entry (versions : versions_t) L k :
  distinct_versions versions ->
  In L (Dict.keys versions) -> _string2version L = Some k ->
  In k (visit_order versions)
  /\ label_of (prepare_version_map versions) k = L.
Proof.
  intros Hd HL Hp.
  destruct (visit_order_covers _ _ _ HL Hp) as (k0 & Hk0 & Heq).
  destruct (visit_order_entry _ _ Hk0)
    as [(l0 & Hl0 & Hp0) (L1 & kL1 & HL1 & Hp1 & Heq1 & Hlab)].
  assert (Hl : l0 = L) by (apply (Hd l0 L k0 k); auto).
  assert (Hk : k0 = k) by congruence.
  assert (HeqL : L1 = L) by (apply (Hd L1 L kL1 k); auto; congruence).
  rewrite <- Hk. rewrite Hlab, HeqL. auto.
Qed.

Lemma distinct_visited (versions : versions_t) k :
  distinct_versions versions -> In k (visit_order versions) ->
  In (label_of (prepare_version_map versions) k) (Dict.keys versions)
  /\ _string2version (label_of (prepare_version_map versions) k) = Some k.
Proof.
  intros Hd Hk.
  destruct (visit_order_entry _ _ Hk)
    as [(l0 & Hl0 & Hp0) (L1 & kL1 & HL1 & Hp1 & Heq1 & Hlab)].
  assert (HeqL : L1 = l0) by (apply (Hd L1 l0 kL1 k); auto).
  rewrite Hlab, HeqL. auto.
Qed.

(** C3, counterexample: the expansion of the empty mapping has no
    ["latest"] key; the expansion of the numpy mapping of the scenario does
    not contain its key ["devdocs"]; and next to a parseable label the key
    ["main"] is not carried over either. *)
Lemma expand_drops_keys :
  ~ In "latest" (Dict.keys (_prepare_versions []))
  /\ (sget numpy_versions "devdocs" = Some "https://numpy.org/devdocs/"
      /\ sget (_prepare_versions numpy_versions) "devdocs" = None)
  /\ ~ (forall k u, sget numpy_versions k = Some u ->
                    sget (_prepare_versions numpy_versions) k = Some u)
  /\ let vs : versions_t :=
       [("1.0", "https://p.example/1.0/"); ("main", "https://p.example/main/")] in
     sget vs "main" = Some "https://p.example/main/"
     /\ sget (_prepare_versions vs) "main" = None.
Proof.
  split; [intros []|]. split; [split; reflexivity|].
  split; [|split; reflexivity].
  intros H. specialize (H "devdocs" "https://numpy.org/devdocs/" eq_refl).
  discriminate.
Qed.

(** Where the keys of an expansion come from: apart from ["latest"] and
    ["stable"], each is a label that parses as a version, such a label
    with [".x"] removed, or the canonical string of the version of such a
    label. *)
Lemma expand_keys_origin (versions : versions_t) x :
  In x (Dict.keys (_prepare_versions versions)) ->
  x = "latest" \/ x = "stable"
  \/ exists L k,
       In L (Dict.keys versions) /\ _string2version L = Some k
       /\ (x = L \/ x = replace_dotx L \/ x = public k).
Proof.
  destruct versions as [|e r] eqn:Hv; [intros []|]. rewrite <- Hv.
  assert (Hne : versions <> []) by (rewrite Hv; discriminate). clear Hv.
  destruct (visit_order versions) as [|latest rest] eqn:Hvo.
  - rewrite (prepare_versions_aliases_only _ Hne Hvo).
    intros [<-|[<-|[]]]; auto.
  - pose proof (prepare_versions_parseable _ _ _ Hvo) as Hexp. cbv zeta in Hexp.
    rewrite Hexp. clear Hexp.
    intros Hx. apply fold_register_keys in Hx.
    destruct Hx as [Hx|(k1 & Hk1 & Hr)].
    + simpl in Hx. intuition.
    + right. right.
      destruct (visit_order_entry _ _ Hk1)
        as [(l0 & Hl0 & Hp0) (L1 & kL1 & HL1 & Hp1 & _ & Hlab)].
      rewrite Hlab in Hr. apply registers_cases in Hr.
      destruct Hr as [->|[->| ->]].
      * exists L1, kL1. auto.
      * exists L1, kL1. auto.
      * exists l0, k1. auto.
Qed.

(** C3, amended: for every non-empty mapping the expansion contains the
    keys ["latest"] and ["stable"]; and, when no two labels parse to equal
    versions, every label [L] that parses as a version is registered,
    together with [L] without [".x"] when [L] contains [".x"], and
    otherwise with the canonical string of its version when that is not
    [L]; each key so registered is mapped to the original URL of the label
    that registers it, of the one with the smallest version when several
    labels register the same key. *)
Theorem expand_contents (versions : versions_t) :
  versions <> [] ->
  (exists a b,
     sget (_prepare_versions versions) "latest" = Some a
     /\ sget (_prepare_versions versions) "stable" = Some b)
  /\ (distinct_versions versions ->
      forall L k x,
        In L (Dict.keys versions) -> _string2version L = Some k ->
        registers L k x = true ->
        exists L' k',
          In L' (Dict.keys versions) /\ _string2version L' = Some k'
          /\ registers L' k' x = true
          /\ sget (_prepare_versions versions) x = sget versions L'
          /\ forall L'' k'',
               In L'' (Dict.keys versions) -> _string2version L'' = Some k'' ->
               registers L'' k'' x = true -> vlt k'' k' = false).
Proof.
  intros Hne.
  destruct (visit_order versions) as [|latest rest] eqn:Hvo.
  - (* no label parses *)
    rewrite (prepare_versions_aliases_only _ Hne Hvo).
    split; [eexists _, _; split; reflexivity|].
    intros _ L k x HL Hp _.
    destruct (visit_order_covers _ _ _ HL Hp) as (k0 & Hk0 & _).
    rewrite Hvo in Hk0. destruct Hk0.
  - pose proof (prepare_versions_parseable _ _ _ Hvo) as Hexp. cbv zeta in Hexp.
    rewrite Hexp. clear Hexp.
    match goal with
    | |- context [fold_left _ _ ?r] => set (rv0 := r)
    end.
    split.
    + assert (H : forall x, (x = "latest" \/ x = "stable") ->
                sget (fold_left (register versions (prepare_version_map versions))
                                (visit_order versions) rv0) x
                = sget rv0 x).
      { intros x Hx. apply fold_register_other. intros k1 Hk1.
        destruct (registers_not_alias _ _ Hk1) as [H1 H2].
        destruct Hx as [->| ->]; assumption. }
      rewrite (H "latest") by now left. rewrite (H "stable") by now right.
      subst rv0. rewrite sget_sset_other by discriminate.
      rewrite !sget_sset_same. eauto.
    + intros Hd L k x HL Hp Hr.
      destruct (distinct_entry _ _ _ Hd HL Hp) as [Hk Hlab].
      destruct (fold_register_smallest versions (visit_order versions) rv0 x
                  (visit_order_decreasing versions))
        as (k' & Hk' & Hr' & Hget & Hmin).
      { exists k. split; [exact Hk|]. now rewrite Hlab. }
      destruct (distinct_visited _ _ Hd Hk') as [HL' Hp'].
      exists (label_of (prepare_version_map versions) k'), k'.
      split; [exact HL'|]. split; [exact Hp'|]. split; [exact Hr'|]. split.
      * rewrite Hget. unfold url_of, Dict.get_default.
        fold (sget versions (label_of (prepare_version_map versions) k')).
        destruct (sget_of_key _ _ _ HL') as [u ->]. reflexivity.
      * intros L'' k'' HL'' Hp'' Hr''.
        destruct (distinct_entry _ _ _ Hd HL'' Hp'') as [Hk'' Hlab''].
        apply Hmin; [exact Hk''|]. now rewrite Hlab''.
Qed.

Lemma expand_contents_witness :
  sget (_prepare_versions release_versions) "2.2.0"
  = Some "https://p.example/v2.2.0/".
Proof.
  assert (Hne : release_versions <> []) by discriminate.
  assert (Hd : distinct_versions release_versions).
  { intros l1 l2 k1 k2 [<-|[<-|[]]] [<-|[<-|[]]] [= <-] [= <-];
      try reflexivity; discriminate. }
  destruct (expand_contents release_versions Hne) as (_ & H).
  destruct (H Hd "v2.2.0" (mkVersion 0 [2; 2; 0]%N None None None None) "2.2.0")
    as (L' & k' & HL' & Hp' & Hr' & Hget & _);
    [now left|reflexivity|reflexivity|].
  rewrite Hget.
  destruct HL' as [<-|[<-|[]]]; [reflexivity|].
  injection Hp' as <-. discriminate Hr'.
Defined.

(* ===================================================================== *)
(** ** [_reorder_versions] on labels of equal version                     *)
(* ===================================================================== *)

(** C5, the code at the failing input: the three labels match the PEP 440
    expression and ["v2.2.0"] and ["2.2.0"] parse to equal versions; the
    re-ordered mapping lists ["2.2.0"], ["2.1.0"], ["v2.2.0"], so the
    parseable label ["v2.2.0"] comes after the smaller ["2.1.0"]; and
    re-ordering the result again exchanges ["2.2.0"] and ["v2.2.0"], so the
    operation is not idempotent on the order it establishes. *)
Theorem reorder_versions_equal_versions :
  forallb PEP440_RE_match (Dict.keys tagged_versions) = true
  /\ option_map (fun a => option_map (veq a) (parse "2.2.0")) (parse "v2.2.0")
     = Some (Some true)
  /\ option_map (fun a => option_map (vlt a) (parse "v2.2.0")) (parse "2.1.0")
     = Some (Some true)
  /\ Dict.keys (_reorder_versions tagged_versions) = ["2.2.0"; "2.1.0"; "v2.2.0"]
  /\ Dict.keys (_reorder_versions (_reorder_versions tagged_versions))
     = ["v2.2.0"; "2.1.0"; "2.2.0"]
  /\ _reorder_versions (_reorder_versions tagged_versions)
     <> _reorder_versions tagged_versions.
Proof. repeat split; try reflexivity. discriminate. Qed.


(** *** Decoding what was encoded *)

Section JsonFacts.
Import JSON.

Lemma scan_escape (c : ascii) (rest : list ascii) :
  scan_string (escape c ++ rest)
  = match scan_string rest with
    | Some (cs, r) => Some (c :: cs, r)
    | None => None
    end.
Proof.
  destruct c as [[] [] [] [] [] [] [] []]; cbn;
    destruct (scan_string rest) as [[cs r]|]; reflexivity.
Qed.

Lemma scan_escape_all (cs tail : list ascii) :
  scan_string (escape_all cs (dquote :: tail)) = Some (cs, tail).
Proof.
  induction cs as [|c cs IH]; [reflexivity|].
  cbn [escape_all]. now rewrite scan_escape, IH.
Qed.

Lemma decode_encode_string (s : string) (tail : list ascii) :
  decode_string (encode_string s tail) = Some (s, tail).
Proof.
  unfold decode_string, encode_string.
  change (Ascii.eqb dquote dquote) with true. cbv iota.
  now rewrite scan_escape_all, string_of_list_ascii_of_string.
Qed.

Lemma skip_ws_stop c r : is_ws c = false -> skip_ws (c :: r) = c :: r.
Proof. intros H. cbn [skip_ws]. now rewrite H. Qed.

Lemma skip_ws_step c r : is_ws c = true -> skip_ws (c :: r) = skip_ws r.
Proof. intros H. cbn [skip_ws]. now rewrite H. Qed.

Lemma skip_ws_spaces n tail : skip_ws (spaces n tail) = skip_ws tail.
Proof.
  induction n as [|n IH]; [reflexivity|].
  cbn [spaces]. now rewrite skip_ws_step by reflexivity.
Qed.

Lemma skip_ws_newline_indent level tail :
  skip_ws (newline_indent level tail) = skip_ws tail.
Proof.
  unfold newline_indent. rewrite skip_ws_step by reflexivity.
  apply skip_ws_spaces.
Qed.

Lemma length_escape_all cs tail :
  List.length tail <= List.length (escape_all cs tail).
Proof.
  induction cs as [|c cs IH]; cbn [escape_all]; [lia|].
  rewrite length_app. lia.
Qed.

Lemma length_encode_string s tail :
  S (List.length tail) <= List.length (encode_string s tail).
Proof.
  unfold encode_string. cbn [List.length].
  pose proof (length_escape_all (list_ascii_of_string s) (dquote :: tail)) as H.
  cbn [List.length] in H. lia.
Qed.

Lemma length_newline_indent level tail :
  List.length tail <= List.length (newline_indent level tail).
Proof.
  unfold newline_indent. cbn [List.length].
  induction (2 * level) as [|n IH]; cbn [spaces List.length]; lia.
Qed.

End JsonFacts.

#[export] Instance CodecLaws_string : CodecLaws string.
Proof.
  split.
  - intros level s tail _. apply decode_encode_string.
  - reflexivity.
  - intros level s tail. pose proof (length_encode_string s tail).
    cbn [enc Codec_string]. lia.
Qed.

Section ObjectCodec.
Import JSON.
Context {V : Type} {CV : Codec V} {LV : CodecLaws V}.

Lemma skip_ws_encode_members level ms tail :
  ms <> [] ->
  skip_ws (encode_members (enc level) level ms tail)
  = encode_members (enc level) level ms tail.
Proof. destruct ms as [|[k v] ms]; [contradiction|reflexivity]. Qed.

Lemma length_encode_members level ms tail :
  List.length ms + List.length tail
  <= List.length (encode_members (enc level) level ms tail).
Proof.
  induction ms as [|[k v] ms IH]; cbn [encode_members List.length]; [lia|].
  pose proof (length_encode_string k
    (":"%char :: " "%char ::
     enc level v (match ms with
                  | [] => tail
                  | _ :: _ => ","%char :: newline_indent level
                                (encode_members (enc level) level ms tail)
                  end))) as H1.
  cbn [List.length] in H1.
  pose proof (enc_length level v
    (match ms with
     | [] => tail
     | _ :: _ => ","%char :: newline_indent level
                   (encode_members (enc level) level ms tail)
     end)) as H2.
  destruct ms as [|m ms'].
  - cbn [List.length] in *. lia.
  - cbn [List.length] in H2.
    pose proof (length_newline_indent level
                  (encode_members (enc level) level (m :: ms') tail)) as H3.
    lia.
Qed.

Lemma decode_members_encode level ms :
  forall fuel acc tail0 tail,
    ms <> [] -> List.length ms <= fuel ->
    (forall k v, In (k, v) ms -> wf v) ->
    skip_ws tail0 = "}"%char :: tail ->
    decode_members dec fuel acc (encode_members (enc level) level ms tail0)
    = Some (fold_left (fun a kv => sset a (fst kv) (snd kv)) ms acc, tail).
Proof.
  induction ms as [|[k v] ms IH]; intros fuel acc tail0 tail Hne Hfuel Hwf Htail;
    [contradiction|].
  destruct fuel as [|fuel]; [cbn [List.length] in Hfuel; lia|].
  cbn [decode_members encode_members].
  rewrite decode_encode_string.
  rewrite (skip_ws_stop ":") by reflexivity.
  rewrite (skip_ws_step " ") by reflexivity.
  rewrite enc_head, dec_enc by (apply (Hwf k v); now left).
  destruct ms as [|m ms'].
  - rewrite Htail. reflexivity.
  - rewrite (skip_ws_stop ",") by reflexivity.
    rewrite skip_ws_newline_indent, skip_ws_encode_members by discriminate.
    cbn [fold_left fst snd].
    apply IH; [discriminate|cbn [List.length] in *; lia| |exact Htail].
    intros k' v' H. apply (Hwf k' v'). now right.
Qed.

Lemma sset_fresh (acc : sdict V) k v :
  ~ In k (Dict.keys acc) -> sset acc k v = acc ++ [(k, v)].
Proof.
  unfold sset. induction acc as [|[k0 v0] acc IH]; simpl; intros H; [reflexivity|].
  destruct (String.eqb k0 k) eqn:E.
  - apply String.eqb_eq in E. exfalso. apply H. now left.
  - f_equal. apply IH. intros H1. apply H. now right.
Qed.

Lemma fold_sset_fresh (ms acc : sdict V) :
  NoDup (Dict.keys (acc ++ ms)) ->
  fold_left (fun a kv => sset a (fst kv) (snd kv)) ms acc = acc ++ ms.
Proof.
  revert acc. induction ms as [|[k v] ms IH]; intros acc H; cbn [fold_left fst snd].
  - now rewrite app_nil_r.
  - rewrite sset_fresh.
    + rewrite IH; rewrite <- app_assoc; [reflexivity|exact H].
    + unfold Dict.keys in H. rewrite map_app in H. cbn [map fst] in H.
      apply NoDup_remove_2 in H. intros Hin. apply H.
      apply in_or_app. now left.
Qed.

Lemma decode_object_nonempty (r0 : list ascii) c r :
  skip_ws r0 = c :: r -> Ascii.eqb c "}" = false ->
  decode_object dec ("{"%char :: r0)
  = decode_members dec (List.length (c :: r)) [] (c :: r).
Proof.
  intros H Hc. unfold decode_object. rewrite H.
  destruct c as [[] [] [] [] [] [] [] []]; try reflexivity; discriminate.
Qed.

Lemma decode_encode_object level (d : sdict V) tail :
  wf_dict wf d ->
  decode_object dec (encode_object enc level d tail) = Some (d, tail).
Proof.
  intros [Hnd Hwf]. destruct d as [|[k v] ms]; [reflexivity|].
  unfold encode_object.
  set (T := newline_indent level ("}"%char :: tail)).
  set (E := encode_members (enc (S level)) (S level) ((k, v) :: ms) T).
  assert (Hhead : exists X, E = dquote :: X) by (eexists; reflexivity).
  destruct Hhead as [X HX].
  rewrite (decode_object_nonempty _ dquote X).
  - rewrite <- HX. subst E.
    rewrite (decode_members_encode (S level) ((k, v) :: ms) _ [] T tail).
    + now rewrite (fold_sset_fresh ((k, v) :: ms) []).
    + discriminate.
    + pose proof (length_encode_members (S level) ((k, v) :: ms) T). lia.
    + exact Hwf.
    + apply skip_ws_newline_indent.
  - rewrite skip_ws_newline_indent. fold E. rewrite HX. reflexivity.
  - reflexivity.
Qed.

Lemma length_encode_object level (d : sdict V) tail :
  List.length tail <= List.length (encode_object enc level d tail).
Proof.
  destruct d as [|m ms]; unfold encode_object; cbn [List.length]; [lia|].
  pose proof (length_newline_indent (S level)
                (encode_members (enc (S level)) (S level) (m :: ms)
                   (newline_indent level ("}"%char :: tail)))) as H1.
  pose proof (length_encode_members (S level) (m :: ms)
                (newline_indent level ("}"%char :: tail))) as H2.
  pose proof (length_newline_indent level ("}"%char :: tail)) as H3.
  cbn [List.length] in *. lia.
Qed.

#[export] Instance CodecLaws_dict : CodecLaws (sdict V).
Proof.
  split.
  - intros level d tail H. now apply decode_encode_object.
  - intros level [|m ms] tail; reflexivity.
  - apply length_encode_object.
Qed.

End ObjectCodec.

Lemma wf_catalog_codec (c : Catalog) : wf_catalog c -> wf c.
Proof.
  intros [H1 H2]. split; [exact H1|].
  intros pkg rec Hin. destruct (H2 pkg rec Hin) as [H3 H4].
  split; [exact H3|].
  intros key d Hin'. split; [exact (H4 key d Hin')|].
  intros k v _. exact I.
Qed.

(** C9: loading the string that [dumps] produces for a catalog gives that
    catalog back, whatever the loading catalog held before. *)
Theorem loads_dumps_roundtrip (c self : Catalog) :
  wf_catalog c -> Catalog_loads self (Catalog_dumps c) = Ok c.
Proof.
  intros Hwf. apply wf_catalog_codec in Hwf.
  unfold Catalog_loads, Catalog_dumps, JSON.loads, JSON.dumps.
  rewrite list_ascii_of_string_of_list_ascii.
  change (JSON.encode_catalog c) with (enc 0 c []).
  change JSON.decode_catalog with (@dec Catalog _).
  now rewrite enc_head, dec_enc.
Qed.

Ltac nodup_keys :=
  cbn [Dict.keys map fst];
  repeat (constructor; [cbn [In]; intuition discriminate|]);
  constructor.

Lemma loads_dumps_roundtrip_witness :
  Catalog_loads sklearn_catalog (Catalog_dumps numpy_recorded_catalog)
  = Ok numpy_recorded_catalog.
Proof.
  apply loads_dumps_roundtrip.
  split; [nodup_keys|].
  intros pkg rec [[= <- <-]|[]].
  split; [nodup_keys|].
  intros key d [[= <- <-]|[[= <- <-]|[]]]; nodup_keys.
Defined.

(* ===================================================================== *)
(** ** [_ensure_webdir]                                                   *)
(* ===================================================================== *)

Lemma substring_0_append (p t : string) :
  substring 0 (String.length p) (p ++ t) = p.
Proof.
  induction p as [|c p IH]; simpl.
  - now destruct t.
  - now rewrite IH.
Qed.

Lemma substring_skip_append (p t : string) n :
  substring (String.length p) n (p ++ t) = substring 0 n t.
Proof. induction p as [|c p IH]; simpl; [reflexivity|exact IH]. Qed.

Lemma substring_all (t : string) : substring 0 (String.length t) t = t.
Proof. induction t as [|c t IH]; simpl; [reflexivity|now rewrite IH]. Qed.

Lemma length_append (p t : string) :
  String.length (p ++ t) = String.length p + String.length t.
Proof. induction p as [|c p IH]; simpl; [reflexivity|now rewrite IH]. Qed.

Lemma substring_split (s : string) k :
  k <= String.length s ->
  s = (substring 0 k s ++ substring k (String.length s - k) s)%string.
Proof.
  revert k. induction s as [|c s IH]; intros k Hk; simpl in *.
  - assert (k = 0) by lia. subst. reflexivity.
  - destruct k as [|k]; simpl.
    + now rewrite substring_all.
    + f_equal. apply IH. lia.
Qed.

(** [s.endswith(t)] says that [s] is some prefix followed by [t]. *)
Lemma endswith_iff (s t : string) :
  endswith s t = true <-> exists p, s = (p ++ t)%string.
Proof.
  unfold endswith. split.
  - destruct (Nat.leb (String.length t) (String.length s)) eqn:E; [|discriminate].
    apply Nat.leb_le in E. intros H. apply String.eqb_eq in H.
    exists (substring 0 (String.length s - String.length t) s).
    pose proof (substring_split s (String.length s - String.length t)) as S.
    replace (String.length s - (String.length s - String.length t))
      with (String.length t) in S by lia.
    rewrite H in S. apply S. lia.
  - intros [p ->]. rewrite length_append.
    replace (Nat.leb (String.length t) (String.length p + String.length t))
      with true by (symmetry; apply Nat.leb_le; lia).
    replace (String.length p + String.length t - String.length t)
      with (String.length p) by lia.
    rewrite substring_skip_append, substring_all. apply String.eqb_refl.
Qed.

Lemma last_char_append (p t : string) :
  t <> EmptyString -> last_char (p ++ t) = last_char t.
Proof.
  intros Ht. induction p as [|c p IH]; simpl; [reflexivity|].
  rewrite IH. destruct (p ++ t)%string eqn:E; [|reflexivity].
  destruct p; simpl in E; [contradiction|discriminate].
Qed.

Lemma endswith_slash_not_html (s : string) :
  endswith s "/" = true -> endswith s ".html" = false.
Proof.
  intros H. apply endswith_iff in H. destruct H as [p ->].
  destruct (endswith (p ++ "/") ".html") eqn:E; [|reflexivity].
  apply endswith_iff in E. destruct E as [q E].
  apply (f_equal last_char) in E.
  rewrite !last_char_append in E by discriminate. discriminate.
Qed.

Lemma endswith_append_self (p t : string) : endswith (p ++ t) t = true.
Proof. apply endswith_iff. now exists p. Qed.

Lemma ensure_webdir_endswith (addr : string) :
  endswith (_ensure_webdir addr) "/" = true.
Proof.
  unfold _ensure_webdir.
  match goal with
  | |- context [negb (endswith ?a "/")] => destruct (endswith a "/") eqn:E
  end; simpl; [exact E|apply endswith_append_self].
Qed.

Lemma ensure_webdir_fixed (addr : string) :
  endswith addr "/" = true -> _ensure_webdir addr = addr.
Proof.
  intros H. unfold _ensure_webdir.
  rewrite (endswith_slash_not_html _ H), H. reflexivity.
Qed.

(** X1: the address returned always ends in a slash, and an address that
    already does (and so is no [.html] page) is returned as it is. *)
Theorem ensure_webdir_ends_with_slash (addr : string) :
  endswith (_ensure_webdir addr) "/" = true
  /\ (endswith addr "/" = true -> _ensure_webdir addr = addr).
Proof. split; [apply ensure_webdir_endswith|apply ensure_webdir_fixed]. Qed.

(** X2: normalising twice is normalising once. *)
Theorem ensure_webdir_idempotent (addr : string) :
  _ensure_webdir (_ensure_webdir addr) = _ensure_webdir addr.
Proof. apply ensure_webdir_fixed, ensure_webdir_endswith. Qed.

Lemma rfind_index_append c (p t : string) :
  rfind_index c (p ++ t)
  = match rfind_index c t with
    | Some i => Some (String.length p + i)
    | None => rfind_index c p
    end.
Proof.
  induction p as [|a p IH]; simpl.
  - now destruct (rfind_index c t).
  - rewrite IH. destruct (rfind_index c t); [reflexivity|].
    reflexivity.
Qed.

Lemma endswith_last_char (s : string) c :
  endswith s (String c EmptyString) = true <-> last_char s = Some c.
Proof.
  split.
  - intros H. apply endswith_iff in H. destruct H as [p ->].
    now rewrite last_char_append.
  - intros H. apply endswith_iff.
    induction s as [|a s IH]; [discriminate|].
    simpl in H. destruct s as [|b s].
    + injection H as ->. now exists EmptyString.
    + destruct (IH H) as [p Hp]. exists (String a p). simpl. now rewrite <- Hp.
Qed.

(** X3: a page [file.html] in a directory is replaced by the directory, with
    one slash at its end. *)
Theorem ensure_webdir_page (base file : string) :
  rfind "/" file = (-1)%Z ->
  _ensure_webdir (base ++ "/" ++ file ++ ".html")
  = if endswith base "/" then base else (base ++ "/")%string.
Proof.
  intros Hf. unfold _ensure_webdir.
  assert (E : endswith (base ++ "/" ++ file ++ ".html") ".html" = true).
  { apply endswith_iff. exists (base ++ "/" ++ file)%string.
    now rewrite !append_assoc. }
  rewrite E.
  assert (R : rfind "/" (base ++ "/" ++ file ++ ".html") = Z.of_nat (String.length base)).
  { unfold rfind in *. rewrite rfind_index_append.
    change ("/" ++ file ++ ".html")%string with (String "/" (file ++ ".html")).
    cbn [rfind_index]. rewrite rfind_index_append. cbn.
    destruct (rfind_index "/" file); [lia|]. cbn. f_equal. lia. }
  rewrite R. unfold slice_to.
  replace (Z.of_nat (String.length base) <? 0)%Z with false by (symmetry; apply Z.ltb_ge; lia).
  rewrite Nat2Z.id, substring_0_append.
  now destruct (endswith base "/").
Qed.

Lemma ensure_webdir_page_witness :
  _ensure_webdir "https://docs.example.org/en/stable/index.html"
  = "https://docs.example.org/en/stable/".
Proof.
  apply (ensure_webdir_page "https://docs.example.org/en/stable" "index").
  reflexivity.
Defined.

Lemma substring_0_append_le (p t : string) n :
  n <= String.length p -> substring 0 n (p ++ t) = substring 0 n p.
Proof.
  revert n. induction p as [|a p IH]; intros n Hn; simpl in *.
  - assert (n = 0) by lia. subst. now destruct t.
  - destruct n; [reflexivity|]. simpl. f_equal. apply IH. lia.
Qed.

(** X4: a page name without any slash loses its last character, since
    [rfind] answers -1 and the slice [addr[:-1]] is taken. *)
Theorem ensure_webdir_page_without_directory (name : string) :
  rfind "/" name = (-1)%Z ->
  _ensure_webdir (name ++ ".html") = (name ++ ".htm/")%string.
Proof.
  intros Hf. unfold _ensure_webdir.
  rewrite endswith_append_self.
  assert (R : rfind "/" (name ++ ".html") = (-1)%Z).
  { unfold rfind in *. rewrite rfind_index_append. cbn.
    destruct (rfind_index "/" name); [lia|reflexivity]. }
  rewrite R. unfold slice_to.
  change (-1 <? 0)%Z with true. cbv iota.
  replace (String.length (name ++ ".html") - Z.to_nat (- -1))
    with (String.length (name ++ ".htm")).
  2:{ rewrite !length_append. cbn. lia. }
  change ".html" with (".htm" ++ "l")%string.
  rewrite <- append_assoc, substring_0_append.
  assert (E : endswith (name ++ ".htm") "/" = false).
  { destruct (endswith (name ++ ".htm") "/") eqn:E; [|reflexivity].
    apply endswith_last_char in E. rewrite last_char_append in E by discriminate.
    discriminate. }
  rewrite E. cbn. now rewrite append_assoc.
Qed.

Lemma ensure_webdir_page_without_directory_witness :
  _ensure_webdir "index.html" = "index.htm/".
Proof. apply (ensure_webdir_page_without_directory "index"). reflexivity. Defined.

Lemma ensure_webdir_ends_with_slash_witness :
  endswith (_ensure_webdir "https://docs.example.org/en/stable") "/" = true
  /\ _ensure_webdir "https://docs.example.org/en/stable/"
     = "https://docs.example.org/en/stable/".
Proof.
  split.
  - apply (proj1 (ensure_webdir_ends_with_slash _)).
  - apply (proj2 (ensure_webdir_ends_with_slash _)). reflexivity.
Defined.

(* ===================================================================== *)
(** ** [_add_index]: what a registration leaves alone                     *)
(* ===================================================================== *)

(** X5: the first registration of a name wins: an entry of the mapping is
    never changed by [_add_index], a name not yet registered is mapped to
    the address and inventory given without any message, and at most one
    message is logged. *)
Theorem add_index_first_registration_wins
  (mapping : mapping_t) (name addr : string) (objects_inv : option string) :
  (forall n e, sget mapping n = Some e ->
               sget (fst (_add_index mapping name addr objects_inv)) n = Some e)
  /\ (forall n, n <> name ->
        sget (fst (_add_index mapping name addr objects_inv)) n = sget mapping n)
  /\ (sget mapping name = None ->
        sget (fst (_add_index mapping name addr objects_inv)) name
        = Some (addr, objects_inv)
        /\ snd (_add_index mapping name addr objects_inv) = [])
  /\ List.length (snd (_add_index mapping name addr objects_inv)) <= 1.
Proof.
  unfold _add_index.
  destruct (sget mapping name) as [[a o]|] eqn:E.
  - destruct (String.eqb a addr && option_string_eqb o objects_inv); cbn;
      (split; [auto|split; [auto|split; [discriminate|lia]]]).
  - cbn [fst snd List.length]. split; [|split; [|split; [intros _; split|]]].
    + intros n e H. rewrite sget_sset.
      destruct (String.eqb name n) eqn:En; [|exact H].
      apply String.eqb_eq in En. subst n. congruence.
    + intros n Hn. now apply sget_sset_other.
    + apply sget_sset_same.
    + reflexivity.
    + lia.
Qed.

Lemma add_index_first_registration_wins_witness :
  let mp : mapping_t := [("numpy", ("https://numpy.org/doc/stable/", None))] in
  sget (fst (_add_index mp "scipy" "https://docs.scipy.org/doc/scipy/" None)) "numpy"
  = Some ("https://numpy.org/doc/stable/", None)
  /\ sget (fst (_add_index mp "scipy" "https://docs.scipy.org/doc/scipy/" None)) "scipy"
     = Some ("https://docs.scipy.org/doc/scipy/", None).
Proof.
  intros mp.
  pose proof (add_index_first_registration_wins mp "scipy"
                "https://docs.scipy.org/doc/scipy/" None) as (H1 & _ & H3 & _).
  split.
  - apply H1. reflexivity.
  - apply H3. reflexivity.
Defined.

(* ===================================================================== *)
(** ** [_reorder_versions]: the entries are kept, the aliases come first  *)
(* ===================================================================== *)

Lemma sset_keys V (d : sdict V) k v :
  Dict.keys (sset d k v) = if shas d k then Dict.keys d else Dict.keys d ++ [k].
Proof.
  unfold sset, shas, Dict.contains.
  induction d as [|[k0 v0] d IH]; cbn; [reflexivity|].
  destruct (String.eqb k0 k) eqn:E; cbn; [reflexivity|].
  fold (Dict.keys (Dict.set String.eqb d k v)). rewrite IH.
  fold (Dict.keys d). now destruct (Dict.get String.eqb d k).
Qed.

Lemma sset_NoDup V (d : sdict V) k v :
  NoDup (Dict.keys d) -> NoDup (Dict.keys (sset d k v)).
Proof.
  intros H. rewrite sset_keys. destruct (shas d k) eqn:E; [exact H|].
  apply NoDup_app; [exact H|repeat constructor; intros []|].
  intros x Hx [<-|[]]. apply shas_keys in Hx. congruence.
Qed.

Lemma supdate_NoDup V (d o : sdict V) :
  NoDup (Dict.keys d) -> NoDup (Dict.keys (supdate d o)).
Proof.
  unfold supdate, Dict.update. revert d.
  induction o as [|[k v] o IH]; intros d H; cbn; [exact H|].
  apply IH. now apply sset_NoDup.
Qed.

Lemma In_sget V (d : sdict V) k v :
  NoDup (Dict.keys d) -> In (k, v) d -> sget d k = Some v.
Proof.
  unfold sget. induction d as [|[k0 v0] d IH]; cbn; intros Hnd Hin; [destruct Hin|].
  inversion Hnd as [|? ? Hnot Hnd']; subst.
  destruct Hin as [[= -> ->]|Hin].
  - now rewrite String.eqb_refl.
  - destruct (String.eqb k0 k) eqn:E; [|now apply IH].
    apply String.eqb_eq in E. subst k0. exfalso. apply Hnot.
    apply (in_map fst) in Hin. exact Hin.
Qed.

Lemma sset_agrees (vdict rv : versions_t) key u :
  sget vdict key = Some u ->
  (NoDup (Dict.keys rv) /\ forall k v, sget rv k = Some v -> sget vdict k = Some v) ->
  NoDup (Dict.keys (sset rv key u))
  /\ forall k v, sget (sset rv key u) k = Some v -> sget vdict k = Some v.
Proof.
  intros Hu [Hnd Hag]. split; [now apply sset_NoDup|].
  intros k v. rewrite sget_sset. destruct (String.eqb key k) eqn:E.
  - apply String.eqb_eq in E. subst k. now intros [= <-].
  - apply Hag.
Qed.

(** The part of the result built by the first two loops of
    [_reorder_versions] holds entries of the argument only. *)
Lemma reorder_versions_head_agrees (vdict : versions_t) (vs : list Version)
  (vm : Dict.t Version string) (ps : list string) :
  let retval0 :=
    fold_left (fun rv key => match sget vdict key with
                             | Some u => sset rv key u
                             | None => rv
                             end) ps [] in
  let retval1 :=
    fold_left (fun rv version =>
                 match Dict.get veq vm version with
                 | Some label => match sget vdict label with
                                 | Some u => sset rv label u
                                 | None => rv
                                 end
                 | None => rv
                 end) vs retval0 in
  NoDup (Dict.keys retval1)
  /\ forall k v, sget retval1 k = Some v -> sget vdict k = Some v.
Proof.
  intros retval0 retval1.
  assert (H0 : NoDup (Dict.keys retval0)
               /\ forall k v, sget retval0 k = Some v -> sget vdict k = Some v).
  { subst retval0.
    assert (Hnil : NoDup (Dict.keys ([] : versions_t))
                   /\ forall k v, sget ([] : versions_t) k = Some v ->
                                  sget vdict k = Some v)
      by (split; [constructor|discriminate]).
    revert Hnil. generalize ([] : versions_t).
    induction ps as [|key ps IH]; intros rv Hrv; cbn [fold_left]; [exact Hrv|].
    apply IH. destruct (sget vdict key) as [u|] eqn:E; [|exact Hrv].
    now apply sset_agrees. }
  subst retval1. revert H0. generalize retval0. clear retval0.
  induction vs as [|ver vs IH]; intros rv Hrv; cbn [fold_left]; [exact Hrv|].
  apply IH. destruct (Dict.get veq vm ver) as [label|]; [|exact Hrv].
  destruct (sget vdict label) as [u|] eqn:E; [|exact Hrv].
  now apply sset_agrees.
Qed.

Lemma supdate_agrees (vdict rv o : versions_t) :
  NoDup (Dict.keys vdict) -> incl o vdict ->
  (NoDup (Dict.keys rv) /\ forall k v, sget rv k = Some v -> sget vdict k = Some v) ->
  NoDup (Dict.keys (supdate rv o))
  /\ forall k v, sget (supdate rv o) k = Some v -> sget vdict k = Some v.
Proof.
  intros Hnd. unfold supdate, Dict.update. revert rv.
  induction o as [|[k0 v0] o IH]; intros rv Hincl Hrv; cbn [fold_left fst snd];
    [exact Hrv|].
  apply IH; [intros x Hx; apply Hincl; now right|].
  apply sset_agrees; [|exact Hrv].
  apply In_sget; [exact Hnd|]. apply Hincl. now left.
Qed.

Lemma reorder_versions_agrees (vdict : versions_t) :
  NoDup (Dict.keys vdict) ->
  NoDup (Dict.keys (_reorder_versions vdict))
  /\ forall k, sget (_reorder_versions vdict) k = sget vdict k.
Proof.
  intros Hnd.
  assert (H : NoDup (Dict.keys (_reorder_versions vdict))
              /\ forall k v, sget (_reorder_versions vdict) k = Some v ->
                             sget vdict k = Some v).
  { unfold _reorder_versions. apply supdate_agrees; [exact Hnd| |].
    - intros x Hx. apply filter_In in Hx. exact (proj1 Hx).
    - apply reorder_versions_head_agrees. }
  destruct H as [H1 H2]. split; [exact H1|].
  intros k. destruct (sget (_reorder_versions vdict) k) as [v|] eqn:E.
  - symmetry. now apply H2.
  - symmetry. apply sget_None_keys. apply sget_None_keys in E.
    intros Hin. apply E. now apply reorder_versions_keeps_keys.
Qed.

Lemma NoDup_keys_entries V (d : sdict V) : NoDup (Dict.keys d) -> NoDup d.
Proof.
  induction d as [|[k v] d IH]; cbn; intros H; [constructor|].
  inversion H as [|? ? Hnot Hnd]; subst. constructor; [|now apply IH].
  intros Hin. apply Hnot. apply (in_map fst) in Hin. exact Hin.
Qed.

(** X6: for a mapping whose labels are pairwise different, re-ordering
    only permutes the entries: the result holds the same (label, URL)
    pairs, its labels are pairwise different, and every look-up answers as
    before. *)
Theorem reorder_versions_permutes (vdict : versions_t) :
  NoDup (Dict.keys vdict) ->
  Permutation (_reorder_versions vdict) vdict
  /\ NoDup (Dict.keys (_reorder_versions vdict))
  /\ forall k, sget (_reorder_versions vdict) k = sget vdict k.
Proof.
  intros Hnd. destruct (reorder_versions_agrees vdict Hnd) as [H1 H2].
  split; [|split; assumption].
  apply NoDup_Permutation; [now apply NoDup_keys_entries..|].
  intros [k v]. split; intros Hin.
  - apply sget_In. rewrite <- H2. now apply In_sget.
  - apply sget_In. rewrite H2. now apply In_sget.
Qed.

Lemma reorder_versions_permutes_witness :
  Permutation (_reorder_versions tagged_versions) tagged_versions
  /\ sget (_reorder_versions tagged_versions) "2.1.0" = Some "https://p.example/2.1.0/".
Proof.
  assert (Hnd : NoDup (Dict.keys tagged_versions)) by nodup_keys.
  destruct (reorder_versions_permutes tagged_versions Hnd) as (H1 & _ & H3).
  split; [exact H1|]. rewrite H3. reflexivity.
Defined.

Lemma get_veq (d : Dict.t Version string) k v k' :
  Dict.get veq (Dict.set veq d k v) k'
  = if veq k k' then Some v else Dict.get veq d k'.
Proof. apply get_set; [apply veq_sym|apply veq_trans]. Qed.

(** The labels sorted by [_reorder_versions] are labels of the argument
    that are no alias and that parse as a version. *)
Lemma reorder_version_map_labels (vdict : versions_t) ver label :
  Dict.get veq (reorder_version_map vdict) ver = Some label ->
  In label (Dict.keys vdict) /\ is_protected label = false
  /\ exists k, parse label = Some k /\ veq k ver = true.
Proof.
  unfold reorder_version_map.
  assert (Hincl : incl (Dict.keys vdict) (Dict.keys vdict)) by apply incl_refl.
  revert Hincl. generalize (Dict.keys vdict) at 1 3. intros labels Hincl.
  assert (Hnil : Dict.get veq ([] : Dict.t Version string) ver = Some label ->
                 In label (Dict.keys vdict) /\ is_protected label = false
                 /\ exists k, parse label = Some k /\ veq k ver = true)
    by discriminate.
  revert Hnil. generalize ([] : Dict.t Version string).
  induction labels as [|l labels IH]; intros acc Hacc; cbn [fold_left];
    [exact Hacc|].
  apply IH; [intros x Hx; apply Hincl; now right|].
  destruct (negb (is_protected l) && PEP440_RE_match l) eqn:E; [|exact Hacc].
  destruct (parse l) as [k|] eqn:Ep; [|exact Hacc].
  rewrite get_veq. destruct (veq k ver) eqn:Ev; [|exact Hacc].
  intros [= <-]. apply andb_prop in E. destruct E as [E _].
  apply negb_true_iff in E.
  split; [apply Hincl; now left|]. split; [exact E|]. now exists k.
Qed.

Lemma is_protected_In k : is_protected k = true <-> In k protected.
Proof.
  unfold is_protected. rewrite existsb_exists. split.
  - intros (x & Hx & E). apply String.eqb_eq in E. now subst.
  - intros H. exists k. split; [exact H|apply String.eqb_refl].
Qed.

(** X7: in the result the aliases [latest], [main], [master] and [stable]
    that the argument holds come first, in this order, and no alias comes
    after them. *)
Theorem reorder_versions_aliases_first (vdict : versions_t) :
  exists rest,
    Dict.keys (_reorder_versions vdict) = filter (shas vdict) protected ++ rest
    /\ forall k, In k rest -> is_protected k = false.
Proof.
  unfold _reorder_versions.
  match goal with
  | |- context [fold_left ?f protected []] => set (retval0 := fold_left f protected [])
  end.
  assert (H0 : exists rest,
             Dict.keys retval0 = filter (shas vdict) protected ++ rest
             /\ forall k, In k rest -> is_protected k = false).
  { exists []. split; [|intros ? []]. rewrite app_nil_r.
    subst retval0. unfold protected, shas, Dict.contains. cbn [fold_left filter].
    fold (sget vdict "latest"). fold (sget vdict "main").
    fold (sget vdict "master"). fold (sget vdict "stable").
    destruct (sget vdict "latest"), (sget vdict "main"),
      (sget vdict "master"), (sget vdict "stable"); reflexivity. }
  assert (Hstep : forall (rv : versions_t) label u,
             is_protected label = false ->
             (exists rest,
                Dict.keys rv = filter (shas vdict) protected ++ rest
                /\ forall k, In k rest -> is_protected k = false) ->
             exists rest,
               Dict.keys (sset rv label u) = filter (shas vdict) protected ++ rest
               /\ forall k, In k rest -> is_protected k = false).
  { intros rv label u Hl (rest & Hk & Hr). rewrite sset_keys.
    destruct (shas rv label); [now exists rest|].
    exists (rest ++ [label]). rewrite Hk, app_assoc. split; [reflexivity|].
    intros k Hin. apply in_app_or in Hin. destruct Hin as [Hin|[<-|[]]]; auto. }
  set (vm := reorder_version_map vdict).
  match goal with
  | |- context [fold_left ?f (sorted_reverse vlt (Dict.keys vm)) retval0] =>
      set (retval1 := fold_left f (sorted_reverse vlt (Dict.keys vm)) retval0)
  end.
  assert (H1 : exists rest,
             Dict.keys retval1 = filter (shas vdict) protected ++ rest
             /\ forall k, In k rest -> is_protected k = false).
  { subst retval1. revert H0. generalize retval0.
    generalize (sorted_reverse vlt (Dict.keys vm)). intros vs.
    induction vs as [|ver vs IH]; intros rv Hrv; cbn [fold_left]; [exact Hrv|].
    apply IH. destruct (Dict.get veq vm ver) as [label|] eqn:Eg; [|exact Hrv].
    destruct (sget vdict label) as [u|]; [|exact Hrv].
    apply Hstep; [|exact Hrv].
    apply reorder_version_map_labels in Eg. tauto. }
  assert (Hin1 : forall k, In k (Dict.keys vdict) -> is_protected k = true ->
                           shas retval1 k = true).
  { intros k Hk Hp. apply shas_keys. destruct H1 as (rest & -> & _).
    apply in_or_app. left. apply filter_In.
    split; [now apply is_protected_In|now apply shas_keys]. }
  unfold supdate, Dict.update.
  assert (Hf : forall kv, In kv (filter (fun kv => negb (shas retval1 (fst kv))) vdict) ->
                          is_protected (fst kv) = false).
  { intros [k v] Hkv. apply filter_In in Hkv. destruct Hkv as [Hkv Hn]. cbn [fst] in *.
    destruct (is_protected k) eqn:E; [|reflexivity].
    rewrite Hin1 in Hn; [discriminate| |exact E].
    apply (in_map fst) in Hkv. exact Hkv. }
  set (o := filter (fun kv => negb (shas retval1 (fst kv))) vdict) in *.
  clearbody o. revert Hf H1. generalize retval1.
  induction o as [|[k v] o IH]; intros rv Hf Hrv; cbn [fold_left fst snd];
    [exact Hrv|].
  apply IH; [intros kv Hkv; apply Hf; now right|].
  apply Hstep; [|exact Hrv]. apply (Hf (k, v)). now left.
Qed.

Lemma reorder_versions_aliases_first_witness :
  exists rest,
    Dict.keys (_reorder_versions rtd_versions) = ["latest"; "stable"] ++ rest
    /\ forall k, In k rest -> is_protected k = false.
Proof. exact (reorder_versions_aliases_first rtd_versions). Defined.

(* ===================================================================== *)
(** ** [_prepare_versions]: shape and origin of an expansion              *)
(* ===================================================================== *)

Lemma sset_entries V (d : sdict V) k v x u :
  In (x, u) (sset d k v) -> In (x, u) d \/ u = v.
Proof.
  unfold sset. induction d as [|[k0 v0] d IH]; cbn.
  - intros [[= _ <-]|[]]. now right.
  - destruct (String.eqb k0 k); cbn.
    + intros [[= <- <-]|H]; [now right|left; now right].
    + intros [H|H]; [left; now left|].
      destruct (IH H) as [H1|H1]; [left; now right|now right].
Qed.

Lemma get_default_value (versions : versions_t) k dflt :
  Dict.get_default String.eqb versions k dflt = dflt
  \/ In (Dict.get_default String.eqb versions k dflt) (Dict.values versions).
Proof.
  unfold Dict.get_default. fold (sget versions k).
  destruct (sget versions k) as [u|] eqn:E; [right|now left].
  apply sget_In in E. apply (in_map snd) in E. exact E.
Qed.

Lemma url_of_value (versions : versions_t) vm k :
  url_of versions vm k = "" \/ In (url_of versions vm k) (Dict.values versions).
Proof. apply get_default_value. Qed.

Lemma first_nonempty_value (versions : versions_t) order :
  first_nonempty (map (sget versions) order) = ""
  \/ In (first_nonempty (map (sget versions) order)) (Dict.values versions).
Proof.
  induction order as [|key order IH]; cbn; [now left|].
  destruct (sget versions key) as [[|c u]|] eqn:E; try exact IH.
  right. apply sget_In in E. apply (in_map snd) in E. exact E.
Qed.

(** X8: an expansion invents no address: each of its URLs is an URL of
    the mapping expanded, or the empty string. *)
Theorem prepare_versions_urls_from_input (versions : versions_t) (x u : string) :
  In (x, u) (_prepare_versions versions) ->
  u = "" \/ In u (Dict.values versions).
Proof.
  destruct versions as [|e r] eqn:Hv;
    [intros H; right; apply (in_map snd) in H; exact H|].
  rewrite <- Hv. assert (Hne : versions <> []) by (rewrite Hv; discriminate).
  clear Hv e r.
  destruct (visit_order versions) as [|latest rest] eqn:Hvo.
  - rewrite (prepare_versions_aliases_only _ Hne Hvo).
    rewrite !alias_chain_first_nonempty.
    intros [[= _ <-]|[[= _ <-]|[]]].
    + exact (first_nonempty_value versions ["latest"; "stable"; "master"; "main"]).
    + exact (first_nonempty_value versions ["stable"; "latest"; "master"; "main"]).
  - rewrite (prepare_versions_parseable _ _ _ Hvo). cbv zeta.
    set (vm := prepare_version_map versions).
    match goal with
    | |- In _ (fold_left _ _ ?rv0) -> _ =>
        assert (H0 : forall x u, In (x, u) rv0 ->
                                 u = "" \/ In u (Dict.values versions));
        [|revert H0; generalize rv0]
    end.
    { intros x0 u0 H. apply sset_entries in H. destruct H as [H| ->].
      - apply sset_entries in H. destruct H as [[]| ->].
        destruct (get_default_value versions "latest" (url_of versions vm latest))
          as [-> |H]; [apply url_of_value|now right].
      - match goal with
        | |- context [Dict.get_default String.eqb versions "stable" ?d] =>
            destruct (get_default_value versions "stable" d) as [-> |H];
              [apply url_of_value|now right]
        end. }
    generalize (visit_order versions). intros l. revert x u.
    induction l as [|k l IH]; intros x u rv Hrv; cbn [fold_left]; [apply Hrv|].
    apply IH. intros x0 u0. unfold register.
    destruct (contains_dotx (label_of vm k));
      [|destruct (negb (String.eqb (public k) (label_of vm k)))];
      intros H; repeat (apply sset_entries in H; destruct H as [H| ->]);
      try (now apply (Hrv x0)); apply url_of_value.
Qed.

Lemma prepare_versions_urls_from_input_witness :
  "https://p.example/v2.2.0/" = ""
  \/ In "https://p.example/v2.2.0/" (Dict.values release_versions).
Proof.
  apply (prepare_versions_urls_from_input release_versions "2.2.0").
  vm_compute. tauto.
Defined.

Lemma sset_keys_prefix V (d : sdict V) k v :
  exists tail, Dict.keys (sset d k v) = Dict.keys d ++ tail.
Proof.
  rewrite sset_keys. destruct (shas d k); [exists []; now rewrite app_nil_r|].
  now exists [k].
Qed.

Lemma register_keys_prefix versions vm (rv : versions_t) k :
  (exists tail, Dict.keys (register versions vm rv k) = Dict.keys rv ++ tail)
  /\ (NoDup (Dict.keys rv) -> NoDup (Dict.keys (register versions vm rv k))).
Proof.
  unfold register.
  destruct (contains_dotx (label_of vm k));
    [|destruct (negb (String.eqb (public k) (label_of vm k)))];
    (split; [|intros H; repeat apply sset_NoDup; exact H]).
  - destruct (sset_keys_prefix _ rv (label_of vm k) (url_of versions vm k)) as [t1 H1].
    destruct (sset_keys_prefix _ (sset rv (label_of vm k) (url_of versions vm k))
                (replace_dotx (label_of vm k)) (url_of versions vm k)) as [t2 H2].
    exists (t1 ++ t2). now rewrite H2, H1, app_assoc.
  - destruct (sset_keys_prefix _ rv (label_of vm k) (url_of versions vm k)) as [t1 H1].
    destruct (sset_keys_prefix _ (sset rv (label_of vm k) (url_of versions vm k))
                (public k) (url_of versions vm k)) as [t2 H2].
    exists (t1 ++ t2). now rewrite H2, H1, app_assoc.
  - apply sset_keys_prefix.
Qed.

(** X9: the expansion of a non-empty mapping starts with [latest], then
    [stable], and holds no key twice. *)
Theorem prepare_versions_aliases_on_top (versions : versions_t) :
  versions <> [] ->
  (exists rest,
     Dict.keys (_prepare_versions versions) = "latest" :: "stable" :: rest)
  /\ NoDup (Dict.keys (_prepare_versions versions)).
Proof.
  intros Hne.
  destruct (visit_order versions) as [|latest rest] eqn:Hvo.
  - rewrite (prepare_versions_aliases_only _ Hne Hvo). split; [now exists []|].
    nodup_keys.
  - rewrite (prepare_versions_parseable _ _ _ Hvo). cbv zeta.
    match goal with
    | |- context [fold_left _ _ ?rv0] =>
        assert (H0 : (exists rest, Dict.keys rv0 = "latest" :: "stable" :: rest)
                     /\ NoDup (Dict.keys rv0));
        [|revert H0; generalize rv0]
    end.
    { split; [now exists []|nodup_keys]. }
    generalize (visit_order versions). intros l.
    induction l as [|k l IH]; intros rv Hrv; cbn [fold_left]; [exact Hrv|].
    apply IH. destruct Hrv as [(r & Hr) Hnd].
    destruct (register_keys_prefix versions (prepare_version_map versions) rv k)
      as [(t & Ht) Hk].
    split; [|now apply Hk]. exists (r ++ t). now rewrite Ht, Hr.
Qed.

Lemma prepare_versions_aliases_on_top_witness :
  (exists rest,
     Dict.keys (_prepare_versions release_versions) = "latest" :: "stable" :: rest)
  /\ NoDup (Dict.keys (_prepare_versions release_versions)).
Proof. apply (prepare_versions_aliases_on_top release_versions). discriminate. Defined.

Lemma visit_order_unparseable (versions : versions_t) :
  (forall l, In l (Dict.keys versions) -> _string2version l = None) ->
  visit_order versions = [].
Proof.
  intros Hnone. unfold visit_order.
  rewrite (@not_none_all_None _ (Dict.keys (prepare_version_map versions)));
    [reflexivity|].
  intros k Hk. apply prepare_version_map_keys in Hk.
  destruct Hk as (l & Hl & ->). now apply Hnone.
Qed.

(** X10: a non-empty mapping none of whose labels parses as a version
    expands to two entries only: [latest], the first non-empty URL among
    latest, stable, master, main, and [stable], the first non-empty URL
    among stable, latest, master, main (the empty string when there is
    none); every other label is left out. *)
Theorem prepare_versions_without_versions (versions : versions_t) :
  versions <> [] ->
  (forall l, In l (Dict.keys versions) -> _string2version l = None) ->
  _prepare_versions versions
  = [("latest", first_nonempty [sget versions "latest"; sget versions "stable";
                                sget versions "master"; sget versions "main"]);
     ("stable", first_nonempty [sget versions "stable"; sget versions "latest";
                                sget versions "master"; sget versions "main"])].
Proof.
  intros Hne Hnone.
  rewrite (prepare_versions_aliases_only _ Hne (visit_order_unparseable _ Hnone)).
  now rewrite !alias_chain_first_nonempty.
Qed.

Lemma prepare_versions_without_versions_witness :
  _prepare_versions [("main", "https://p.example/main/"); ("devdocs", "https://p.example/dev/")]
  = [("latest", "https://p.example/main/"); ("stable", "https://p.example/main/")].
Proof.
  apply (prepare_versions_without_versions
           [("main", "https://p.example/main/"); ("devdocs", "https://p.example/dev/")]).
  - discriminate.
  - intros l [<-|[<-|[]]]; reflexivity.
Defined.

(* ===================================================================== *)
(** ** The update operations: what a hit merges, what a run keeps         *)
(* ===================================================================== *)

Lemma sget_supdate V (d o : sdict V) k :
  NoDup (Dict.keys o) ->
  sget (supdate d o) k
  = match sget o k with Some v => Some v | None => sget d k end.
Proof.
  unfold supdate, Dict.update. revert d.
  induction o as [|[k0 v0] o IH]; intros d Hnd; cbn [fold_left fst snd];
    [reflexivity|].
  inversion Hnd as [|? ? Hnot Hnd']; subst.
  fold (sset d k0 v0). rewrite IH by exact Hnd'.
  unfold sget at 3. cbn [Dict.get]. fold (sget o k).
  destruct (String.eqb k0 k) eqn:E.
  - apply String.eqb_eq in E. subst k0.
    assert (Ho : sget o k = None) by now apply sget_None_keys.
    rewrite Ho. apply sget_sset_same.
  - destruct (sget o k); [reflexivity|].
    apply sget_sset_other. intros ->. now rewrite String.eqb_refl in E.
Qed.

(** The state after an update that found versions. *)
Lemma update_versions_from_found source versions ev st pkg name :
  versions <> [] ->
  exists st',
    update_versions_from source versions ev st pkg name = Ok (true, st')
    /\ calls st' = calls st ++ [ev]
    /\ versions_of (data st') pkg
       = _reorder_versions (supdate (versions_of (data st) pkg) versions)
    /\ sources_of (data st') pkg = sset (sources_of (data st) pkg) source name
    /\ (forall q, q <> pkg -> sget (data st') q = sget (data st) q).
Proof.
  intros Hne. unfold update_versions_from.
  destruct (ensure_defaults_spec (data st) pkg) as [(rec & H1 & H2 & H3) Hframe].
  destruct versions as [|kv versions]; [contradiction|]. cbn [nonempty].
  unfold getitem. rewrite H1. cbn [bind]. rewrite H2. cbn [bind].
  rewrite sget_sset_other by discriminate. rewrite H3. cbn [bind].
  eexists. split; [reflexivity|]. cbn [data calls].
  split; [reflexivity|]. split; [|split].
  - unfold versions_of at 1. rewrite sget_sset_same. unfold Dict.get_default.
    match goal with
    | |- match Dict.get String.eqb ?d ?k with _ => _ end = _ => fold (sget d k)
    end.
    rewrite sget_sset_other by discriminate. now rewrite sget_sset_same.
  - unfold sources_of at 1. rewrite sget_sset_same. unfold Dict.get_default.
    match goal with
    | |- match Dict.get String.eqb ?d ?k with _ => _ end = _ => fold (sget d k)
    end.
    now rewrite sget_sset_same.
  - intros q Hq. rewrite sget_sset_other by congruence. now apply Hframe.
Qed.

Lemma update_versions_from_merges source versions ev st pkg name :
  NoDup (Dict.keys (versions_of (data st) pkg)) ->
  versions <> [] -> NoDup (Dict.keys versions) ->
  merges_versions source st pkg name versions
    (update_versions_from source versions ev st pkg name).
Proof.
  intros Hnd Hne Hndv.
  destruct (update_versions_from_found source versions ev st pkg name Hne)
    as (st' & Hr & _ & Hv & Hs & Hf).
  exists st'. split; [exact Hr|]. split; [|split; assumption].
  intros label. rewrite Hv.
  destruct (reorder_versions_agrees
              (supdate (versions_of (data st) pkg) versions)) as [_ H].
  { now apply supdate_NoDup. }
  rewrite H. now apply sget_supdate.
Qed.

(** X11: an update that finds versions merges them into the package:
    afterwards a label found is mapped to the URL found, any other label
    is mapped as before, the name looked up is recorded under the key of
    the source, and the other packages are as before. *)
Theorem update_versions_merge_found
  (fenv frtd : list event -> string -> versions_t)
  (fpypi : list event -> string -> Z -> versions_t)
  (st : cstate) (pkg : string) (name : option string) (max_entries : Z) :
  NoDup (Dict.keys (versions_of (data st) pkg)) ->
  (let found := fenv (calls st) (name_or name pkg) in
   found <> [] -> NoDup (Dict.keys found) ->
   merges_versions "environment" st pkg (name_or name pkg) found
     (update_versions_from_environment fenv st pkg name))
  /\ (let found := frtd (calls st) (name_or name pkg) in
      found <> [] -> NoDup (Dict.keys found) ->
      merges_versions "readthedocs" st pkg (name_or name pkg) found
        (update_versions_from_rtd frtd st pkg name))
  /\ (let found := fpypi (calls st) (name_or name pkg) max_entries in
      found <> [] -> NoDup (Dict.keys found) ->
      merges_versions "pypi" st pkg (name_or name pkg) found
        (update_versions_from_pypi fpypi st pkg name max_entries)).
Proof.
  intros Hnd.
  unfold update_versions_from_environment, update_versions_from_rtd,
    update_versions_from_pypi.
  split; [|split]; cbv zeta; intros Hne Hndv; now apply update_versions_from_merges.
Qed.

Lemma update_versions_merge_found_witness :
  let st := mkCstate numpy_recorded_catalog [] in
  let found : versions_t := [("1.26.0", "https://numpy.org/doc/1.26/")] in
  merges_versions "readthedocs" st "numpy" "numpy" found
    (update_versions_from_rtd (fun _ _ => found) st "numpy" None).
Proof.
  intros st found.
  assert (Hnd : NoDup (Dict.keys (versions_of (data st) "numpy"))) by nodup_keys.
  destruct (update_versions_merge_found (fun _ _ => found) (fun _ _ => found)
              (fun _ _ _ => found) st "numpy" None 0 Hnd) as (_ & H & _).
  apply H; [discriminate|nodup_keys].
Defined.

Lemma shas_sget V (d : sdict V) k : shas d k = isSome (sget d k).
Proof. reflexivity. Qed.

(** After an update the package has a record with both sub-mappings, and
    the records of the other packages are not touched. *)
Lemma update_versions_from_complete source versions ev st pkg name :
  exists st',
    update_versions_from source versions ev st pkg name
    = Ok (nonempty versions, st')
    /\ complete_record (data st') pkg
    /\ (complete (data st) -> complete (data st'))
    /\ (forall q, In q (Dict.keys (data st)) -> In q (Dict.keys (data st'))).
Proof.
  assert (Hgen : forall st',
             (exists rec, sget (data st') pkg = Some rec
                          /\ shas rec "versions" = true
                          /\ shas rec "sources" = true) ->
             (forall q, q <> pkg -> sget (data st') q = sget (data st) q) ->
             complete_record (data st') pkg
             /\ (complete (data st) -> complete (data st'))
             /\ (forall q, In q (Dict.keys (data st)) -> In q (Dict.keys (data st')))).
  { intros st' Hrec Hframe. split; [exact Hrec|]. split.
    - intros Hc q Hq. destruct (String.eqb q pkg) eqn:E.
      + apply String.eqb_eq in E. now subst q.
      + assert (Hne : q <> pkg) by (intros ->; now rewrite String.eqb_refl in E).
        unfold complete_record. rewrite (Hframe q Hne). apply Hc.
        apply sget_of_key in Hq. destruct Hq as [v Hv].
        rewrite (Hframe q Hne) in Hv. now apply sget_Some_keys in Hv.
    - intros q Hq. destruct (String.eqb q pkg) eqn:E.
      + apply String.eqb_eq in E. subst q.
        destruct Hrec as (rec & Hr & _). now apply sget_Some_keys in Hr.
      + assert (Hne : q <> pkg) by (intros ->; now rewrite String.eqb_refl in E).
        apply sget_of_key in Hq. destruct Hq as [v Hv].
        rewrite <- (Hframe q Hne) in Hv. now apply sget_Some_keys in Hv. }
  unfold update_versions_from.
  destruct (ensure_defaults_spec (data st) pkg) as [(rec & H1 & H2 & H3) Hframe].
  destruct versions as [|kv versions]; cbn [nonempty].
  - eexists. split; [reflexivity|]. apply Hgen; cbn [data]; [|exact Hframe].
    exists rec. split; [exact H1|]. rewrite !shas_sget, H2, H3. now split.
  - unfold getitem. rewrite H1. cbn [bind]. rewrite H2. cbn [bind].
    rewrite sget_sset_other by discriminate. rewrite H3. cbn [bind].
    eexists. split; [reflexivity|]. apply Hgen; cbn [data].
    + eexists. split; [apply sget_sset_same|].
      rewrite !shas_sget. rewrite sget_sset_same.
      rewrite sget_sset_other by discriminate. rewrite sget_sset_same. now split.
    + intros q Hq. rewrite sget_sset_other by congruence. now apply Hframe.
Qed.

Lemma keeps_labels_frame (d d' : Catalog) pkg :
  (forall label, In label (Dict.keys (versions_of d pkg)) ->
                 In label (Dict.keys (versions_of d' pkg))) ->
  (forall q, q <> pkg -> sget d' q = sget d q) ->
  keeps_labels d d'.
Proof.
  intros Hk Hf q label. destruct (String.eqb q pkg) eqn:E.
  - apply String.eqb_eq in E. subst q. apply Hk.
  - assert (Hne : q <> pkg) by (intros ->; now rewrite String.eqb_refl in E).
    unfold versions_of. now rewrite (Hf q Hne).
Qed.

(** One look-up, whatever its source: it returns, adds one call, and
    loses neither a label nor a package nor a sub-mapping. *)
Lemma update_versions_from_step source versions ev st pkg name :
  exists st',
    update_versions_from source versions ev st pkg name
    = Ok (nonempty versions, st')
    /\ calls_extend st st' 1
    /\ keeps_labels (data st) (data st')
    /\ (complete (data st) -> complete (data st'))
    /\ (forall q, In q (Dict.keys (data st)) -> In q (Dict.keys (data st')))
    /\ In pkg (Dict.keys (data st')).
Proof.
  destruct (update_versions_from_keeps source versions ev st pkg name)
    as (st' & Hr & Hc & Hk & Hf & _).
  destruct (update_versions_from_complete source versions ev st pkg name)
    as (st2 & Hr2 & Hrec & Hcomp & Hkeys).
  rewrite Hr in Hr2. injection Hr2 as <-.
  exists st'. split; [exact Hr|]. split; [exists [ev]; split; [exact Hc|cbn; lia]|].
  split; [now apply (keeps_labels_frame _ _ pkg)|].
  split; [exact Hcomp|]. split; [exact Hkeys|].
  destruct Hrec as (rec & Hs & _). now apply sget_Some_keys in Hs.
Qed.

Section UpdateRuns.
Variable docurls_from_environment : list event -> string -> versions_t.
Variable docurls_from_rtd : list event -> string -> versions_t.
Variable docurls_from_pypi : list event -> string -> Z -> versions_t.

Lemma update_package_ok names max_entries keep_going pkg order st :
  (forall a, In a order -> In a default_order) ->
  exists st',
    update_package docurls_from_environment docurls_from_rtd docurls_from_pypi
      names max_entries keep_going pkg order st = Ok st'
    /\ calls_extend st st' (List.length order)
    /\ keeps_labels (data st) (data st')
    /\ (complete (data st) -> complete (data st'))
    /\ (forall q, In q (Dict.keys (data st)) -> In q (Dict.keys (data st'))).
Proof.
  revert st. induction order as [|action rest IH]; intros st Hrec.
  - exists st. split; [reflexivity|].
    split; [exists []; split; [now rewrite app_nil_r|cbn; lia]|].
    split; [intros q l H; exact H|]. split; auto.
  - assert (Hrest : forall a, In a rest -> In a default_order)
      by (intros a Ha; apply Hrec; now right).
    assert (Hskip : exists st',
               update_package docurls_from_environment docurls_from_rtd
                 docurls_from_pypi names max_entries keep_going pkg rest st = Ok st'
               /\ calls_extend st st' (List.length (action :: rest))
               /\ keeps_labels (data st) (data st')
               /\ (complete (data st) -> complete (data st'))
               /\ (forall q, In q (Dict.keys (data st)) -> In q (Dict.keys (data st')))).
    { destruct (IH st Hrest) as (st' & Hr & (new & Hn & Hl) & H).
      exists st'. split; [exact Hr|]. split; [|exact H].
      exists new. split; [exact Hn|cbn; lia]. }
    assert (Htry : forall source versions ev name,
               exists st',
                 (r <- update_versions_from source versions ev st pkg name ;;
                  let (ok, st1) := r in
                  if ok && negb keep_going then Ok st1
                  else update_package docurls_from_environment docurls_from_rtd
                         docurls_from_pypi names max_entries keep_going pkg rest st1)
                 = Ok st'
                 /\ calls_extend st st' (List.length (action :: rest))
                 /\ keeps_labels (data st) (data st')
                 /\ (complete (data st) -> complete (data st'))
                 /\ (forall q, In q (Dict.keys (data st)) ->
                               In q (Dict.keys (data st')))).
    { intros source versions ev name.
      destruct (update_versions_from_step source versions ev st pkg name)
        as (st1 & Hr & (n1 & Hn1 & Hl1) & Hk1 & Hc1 & Hp1 & _).
      rewrite Hr. cbn [bind].
      destruct (nonempty versions && negb keep_going).
      - exists st1. split; [reflexivity|].
        split; [exists n1; split; [exact Hn1|cbn; lia]|]. now repeat split.
      - destruct (IH st1 Hrest) as (st' & Hr' & (n2 & Hn2 & Hl2) & Hk2 & Hc2 & Hp2).
        exists st'. split; [exact Hr'|]. split.
        + exists (n1 ++ n2). rewrite Hn2, Hn1, app_assoc. split; [reflexivity|].
          rewrite length_app. cbn. lia.
        + split; [intros q l H; apply Hk2, Hk1, H|]. split; auto. }
    cbn [update_package].
    destruct (Hrec action (or_introl eq_refl)) as [<-|[<-|[<-|[]]]];
      cbn [String.eqb Ascii.eqb Bool.eqb];
      destruct (name_for names _ pkg) as [name|]; try exact Hskip;
      unfold update_versions_from_environment, update_versions_from_rtd,
        update_versions_from_pypi; apply Htry.
Qed.

Lemma update_versions_ok names max_entries keep_going pkgs order st :
  (forall a, In a order -> In a default_order) ->
  exists st',
    update_versions docurls_from_environment docurls_from_rtd docurls_from_pypi
      pkgs order names max_entries keep_going st = Ok st'
    /\ calls_extend st st' (List.length pkgs * List.length order)
    /\ keeps_labels (data st) (data st')
    /\ (complete (data st) -> complete (data st'))
    /\ (forall q, In q (Dict.keys (data st)) -> In q (Dict.keys (data st'))).
Proof.
  intros Hrec. revert st. induction pkgs as [|pkg pkgs IH]; intros st.
  - exists st. split; [reflexivity|].
    split; [exists []; split; [now rewrite app_nil_r|cbn; lia]|].
    split; [intros q l H; exact H|]. split; auto.
  - cbn [update_versions].
    destruct (update_package_ok names max_entries keep_going pkg order st Hrec)
      as (st1 & Hr & (n1 & Hn1 & Hl1) & Hk1 & Hc1 & Hp1).
    rewrite Hr. cbn [bind].
    destruct (IH st1) as (st' & Hr' & (n2 & Hn2 & Hl2) & Hk2 & Hc2 & Hp2).
    exists st'. split; [exact Hr'|]. split.
    + exists (n1 ++ n2). rewrite Hn2, Hn1, app_assoc. split; [reflexivity|].
      rewrite length_app. cbn. lia.
    + split; [intros q l H; apply Hk2, Hk1, H|]. split; auto.
Qed.

End UpdateRuns.



(** X13: a source that is none of environment, readthedocs and pypi makes
    [update_versions] raise [RuntimeError] naming it, as soon as the loop
    reaches it for the first package: at once when it comes first, and
    after the recognised sources before it when [keep_going] is set. *)
Theorem update_versions_unrecognised_source
  (fenv frtd : list event -> string -> versions_t)
  (fpypi : list event -> string -> Z -> versions_t)
  (pkg : string) (pkgs known : list string) (action : string) (rest : list string)
  (names : names_t) (pypi_max_entries : Z) (keep_going : bool) (st : cstate) :
  ~ In action default_order ->
  (forall b, In b known -> In b default_order) ->
  keep_going = true \/ known = [] ->
  update_versions fenv frtd fpypi (pkg :: pkgs) (known ++ action :: rest) names
    pypi_max_entries keep_going st
  = Raise (RuntimeError ("Unrecognized source: " ++ action)).
Proof.
  intros Hbad Hknown Hkg. cbn [update_versions].
  assert (H : update_package fenv frtd fpypi names pypi_max_entries keep_going pkg
                (known ++ action :: rest) st
              = Raise (RuntimeError ("Unrecognized source: " ++ action)));
    [|now rewrite H].
  revert st. induction known as [|b known IH]; intros st.
  - cbn [app update_package].
    destruct (String.eqb action "environment") eqn:E1;
      [apply String.eqb_eq in E1; subst; exfalso; apply Hbad; cbn; tauto|].
    destruct (String.eqb action "readthedocs") eqn:E2;
      [apply String.eqb_eq in E2; subst; exfalso; apply Hbad; cbn; tauto|].
    destruct (String.eqb action "pypi") eqn:E3;
      [apply String.eqb_eq in E3; subst; exfalso; apply Hbad; cbn; tauto|].
    reflexivity.
  - destruct Hkg as [-> |Hkg]; [|discriminate].
    assert (IH' : forall st,
               update_package fenv frtd fpypi names pypi_max_entries true pkg
                 (known ++ action :: rest) st
               = Raise (RuntimeError ("Unrecognized source: " ++ action))).
    { apply IH; [intros b' Hb'; apply Hknown; now right|now left]. }
    assert (Htry : forall source versions ev name,
               (r <- update_versions_from source versions ev st pkg name ;;
                let (ok, st1) := r in
                if ok && negb true then Ok st1
                else update_package fenv frtd fpypi names pypi_max_entries true
                       pkg (known ++ action :: rest) st1)
               = Raise (RuntimeError ("Unrecognized source: " ++ action))).
    { intros source versions ev name.
      destruct (update_versions_from_step source versions ev st pkg name)
        as (st1 & Hr & _).
      rewrite Hr. cbn [bind negb]. rewrite andb_false_r. apply IH'. }
    cbn [app update_package].
    destruct (Hknown b (or_introl eq_refl)) as [<-|[<-|[<-|[]]]];
      cbn [String.eqb Ascii.eqb Bool.eqb];
      destruct (name_for names _ pkg) as [name|]; try apply IH';
      unfold update_versions_from_environment, update_versions_from_rtd,
        update_versions_from_pypi; apply Htry.
Qed.

Lemma update_versions_unrecognised_source_witness :
  update_versions (fun _ _ => []) (fun _ _ => rtd_versions) (fun _ _ _ => [])
    ["p"] (["readthedocs"] ++ "conda" :: ["pypi"]) [] 0 true (mkCstate [] [])
  = Raise (RuntimeError "Unrecognized source: conda").
Proof.
  apply (update_versions_unrecognised_source
           (fun _ _ => []) (fun _ _ => rtd_versions) (fun _ _ _ => [])
           "p" [] ["readthedocs"] "conda" ["pypi"] [] 0 true (mkCstate [] [])).
  - cbn. intuition discriminate.
  - intros b [<-|[]]. cbn. tauto.
  - now left.
Defined.

Lemma recorded_sources_ok (items : Catalog) :
  (forall pkg info, In (pkg, info) items -> shas info "sources" = true) ->
  exists rs, recorded_sources items = Ok rs /\ map fst rs = Dict.keys items.
Proof.
  induction items as [|[pkg info] items IH]; intros H; cbn [recorded_sources].
  - now exists [].
  - assert (Hs : shas info "sources" = true) by (apply (H pkg); now left).
    rewrite shas_sget in Hs. unfold getitem.
    destruct (sget info "sources") as [srcs|]; [|discriminate]. cbn [bind].
    destruct IH as (rs & Hr & Hk); [intros p i Hi; apply (H p); now right|].
    rewrite Hr. cbn [bind]. exists ((pkg, srcs) :: rs). split; [reflexivity|].
    cbn. now rewrite Hk.
Qed.

Lemma recorded_sources_missing (items : Catalog) pkg info :
  In (pkg, info) items -> shas info "sources" = false ->
  recorded_sources items = Raise (KeyError "sources").
Proof.
  induction items as [|[p i] items IH]; intros Hin Hs; [destruct Hin|].
  cbn [recorded_sources]. unfold getitem.
  destruct (sget i "sources") as [srcs|] eqn:E; [|reflexivity]. cbn [bind].
  destruct Hin as [[= -> ->]|Hin].
  - rewrite shas_sget, E in Hs. discriminate.
  - now rewrite (IH Hin Hs).
Qed.



(* ===================================================================== *)
(** ** [LookupCatalog]: the view built by [reset] and read by [get]       *)
(* ===================================================================== *)

Lemma complete_record_parts (d : Catalog) pkg :
  complete_record d pkg ->
  exists rec,
    sget d pkg = Some rec
    /\ sget rec "versions" = Some (versions_of d pkg)
    /\ sget rec "sources" = Some (sources_of d pkg).
Proof.
  intros (rec & Hr & Hv & Hs). exists rec. split; [exact Hr|].
  unfold versions_of, sources_of, Dict.get_default. rewrite Hr.
  fold (sget rec "versions"). fold (sget rec "sources").
  rewrite !shas_sget in *.
  destruct (sget rec "versions"); [|discriminate].
  destruct (sget rec "sources"); [|discriminate]. now split.
Qed.

Lemma fold_package_map (names : list string) (pkg : string) (pm : sdict string) n :
  sget (fold_left (fun acc v => sset acc v pkg) names pm) n
  = if existsb (String.eqb n) names then Some pkg else sget pm n.
Proof.
  revert pm. induction names as [|v names IH]; intros pm; cbn [fold_left existsb];
    [reflexivity|].
  rewrite IH. rewrite sget_sset. rewrite (String.eqb_sym n v).
  destruct (existsb (String.eqb n) names); [now rewrite orb_true_r|].
  now rewrite orb_false_r.
Qed.

Lemma existsb_eqb_In n (l : list string) : existsb (String.eqb n) l = true <-> In n l.
Proof.
  rewrite existsb_exists. split.
  - intros (x & Hx & E). apply String.eqb_eq in E. now subst.
  - intros H. exists n. split; [exact H|apply String.eqb_refl].
Qed.

(** The loop of [reset] over packages with complete records. *)
Lemma reset_from_complete (d : Catalog) (items : Catalog) (lk : LookupCatalog) :
  (forall pkg, In pkg (Dict.keys items) -> complete_record d pkg) ->
  exists lk',
    reset_from items d lk = Ok lk'
    /\ (forall q, sget (_version_map lk') q
                  = if existsb (String.eqb q) (Dict.keys items)
                    then Some (_prepare_versions (versions_of d q))
                    else sget (_version_map lk) q)
    /\ (forall n p, sget (_package_map lk') n = Some p ->
          sget (_package_map lk) n = Some p
          \/ (In p (Dict.keys items)
              /\ (n = p \/ In n (Dict.values (sources_of d p)))))
    /\ (forall n, shas (_package_map lk) n = true
                  \/ In n (Dict.keys items)
                  \/ (exists p, In p (Dict.keys items)
                                /\ In n (Dict.values (sources_of d p))) ->
                  shas (_package_map lk') n = true).
Proof.
  revert lk. induction items as [|[pkg info] items IH]; intros lk Hc.
  - exists lk. split; [reflexivity|]. split; [reflexivity|]. split; [auto|].
    intros n [H|[[]|(p & [] & _)]]. exact H.
  - cbn [reset_from].
    destruct (complete_record_parts d pkg) as (rec & Hr & Hv & Hs);
      [apply Hc; now left|].
    unfold getitem. rewrite Hr. cbn [bind]. rewrite Hv. cbn [bind].
    rewrite Hs. cbn [bind].
    match goal with
    | |- context [reset_from items d ?l] =>
        destruct (IH l) as (lk' & Hres & Hvm & Hpm & Hkeys);
          [intros q Hq; apply Hc; now right|]
    end.
    exists lk'. split; [exact Hres|]. cbn [_version_map _package_map] in *.
    split; [|split].
    + intros q. rewrite Hvm. cbn [Dict.keys map fst existsb].
      fold (Dict.keys items).
      destruct (existsb (String.eqb q) (Dict.keys items)).
      * now rewrite orb_true_r.
      * rewrite orb_false_r. rewrite sget_sset. rewrite (String.eqb_sym q pkg).
        destruct (String.eqb pkg q) eqn:E; [|reflexivity].
        apply String.eqb_eq in E. now subst q.
    + intros n p Hn. destruct (Hpm n p Hn) as [H|(Hp & H)].
      * rewrite fold_package_map in H.
        destruct (existsb (String.eqb n) (Dict.values (sources_of d pkg))) eqn:E.
        -- injection H as <-. right. split; [now left|].
           right. now apply existsb_eqb_In.
        -- rewrite sget_sset in H. destruct (String.eqb pkg n) eqn:E1.
           ++ injection H as <-. apply String.eqb_eq in E1. subst n.
              right. split; [now left|now left].
           ++ now left.
      * right. split; [now right|exact H].
    + intros n Hn. apply Hkeys. cbn [Dict.keys map fst In] in Hn.
      fold (Dict.keys items) in Hn.
      destruct Hn as [H|[[<-|H]|(p & [<-|Hp] & H)]].
      * left. rewrite shas_sget, fold_package_map.
        destruct (existsb _ _); [reflexivity|].
        rewrite sget_sset. destruct (String.eqb pkg n); [reflexivity|].
        now rewrite shas_sget in H.
      * left. rewrite shas_sget, fold_package_map.
        destruct (existsb _ _); [reflexivity|].
        now rewrite sget_sset_same.
      * right. now left.
      * left. rewrite shas_sget, fold_package_map.
        apply existsb_eqb_In in H. now rewrite H.
      * right. right. now exists p.
Qed.

Lemma reset_from_raises (d : Catalog) (items : Catalog) (lk : LookupCatalog) pkg :
  In pkg (Dict.keys items) -> In pkg (Dict.keys d) -> ~ complete_record d pkg ->
  exists key, reset_from items d lk = Raise (KeyError key).
Proof.
  revert lk. induction items as [|[p info] items IH]; intros lk Hin Hd Hnc;
    [destruct Hin|].
  cbn [reset_from]. unfold getitem.
  destruct (sget d p) as [rec|] eqn:Hr; [|now eexists]. cbn [bind].
  destruct (sget rec "versions") as [vs|] eqn:Hv; [|now eexists]. cbn [bind].
  destruct (sget rec "sources") as [srcs|] eqn:Hs; [|now eexists]. cbn [bind].
  destruct Hin as [Hp|Hin]; [|now apply IH].
  cbn in Hp. subst p. exfalso. apply Hnc. exists rec. split; [exact Hr|].
  rewrite !shas_sget, Hv, Hs. now split.
Qed.

(** The view of a complete catalog, as a helper shared by the results
    on [get] and on the driver. *)
Lemma reset_complete (d : Catalog) :
  complete d ->
  exists lk,
    reset d = Ok lk
    /\ (forall pkg, sget (_version_map lk) pkg
                    = if shas d pkg
                      then Some (_prepare_versions (versions_of d pkg))
                      else None)
    /\ (forall n p, sget (_package_map lk) n = Some p ->
          In p (Dict.keys d) /\ (n = p \/ In n (Dict.values (sources_of d p))))
    /\ (forall n, known_name d n -> shas (_package_map lk) n = true).
Proof.
  intros Hc. unfold reset.
  destruct (reset_from_complete d d (mkLookup [] []) Hc)
    as (lk & Hr & Hvm & Hpm & Hkeys).
  exists lk. split; [exact Hr|]. split; [|split].
  - intros pkg. rewrite Hvm. cbn [_version_map].
    destruct (shas d pkg) eqn:E.
    + apply shas_keys in E. apply existsb_eqb_In in E. now rewrite E.
    + destruct (existsb (String.eqb pkg) (Dict.keys d)) eqn:E1; [|reflexivity].
      apply existsb_eqb_In in E1. apply shas_keys in E1. congruence.
  - intros n p Hn. destruct (Hpm n p Hn) as [H|H]; [discriminate|exact H].
  - intros n Hn. apply Hkeys. right. exact Hn.
Qed.

(** X15: building the view succeeds when every package has a record with
    both sub-mappings, and raises [KeyError] when one has not. A view
    built maps each package to the expansion of its versions, and a name
    to a package only if the name is that of the package or an external
    name recorded for it; every such name is in the view. *)
Theorem reset_builds_view (d : Catalog) :
  (complete d ->
   exists lk,
     reset d = Ok lk
     /\ (forall pkg, sget (_version_map lk) pkg
                     = if shas d pkg
                       then Some (_prepare_versions (versions_of d pkg))
                       else None)
     /\ (forall n p, sget (_package_map lk) n = Some p ->
           In p (Dict.keys d) /\ (n = p \/ In n (Dict.values (sources_of d p))))
     /\ (forall n, known_name d n -> shas (_package_map lk) n = true))
  /\ (~ complete d -> exists key, reset d = Raise (KeyError key)).
Proof.
  split; [apply reset_complete|]. unfold reset.
  - intros Hnc.
    assert (Hex : exists pkg, In pkg (Dict.keys d) /\ ~ complete_record d pkg).
    { unfold complete in Hnc. clear -Hnc.
      assert (H : forall l : list string,
                 (forall pkg, In pkg l -> complete_record d pkg)
                 \/ exists pkg, In pkg l /\ ~ complete_record d pkg).
      { induction l as [|p l IH]; [left; intros ? []|].
        destruct IH as [IH|(q & Hq & Hn)]; [|right; exists q; split; [now right|exact Hn]].
        assert (Hdec : complete_record d p \/ ~ complete_record d p).
        { unfold complete_record. destruct (sget d p) as [rec|];
            [|right; intros (r & Hr & _); discriminate].
          destruct (shas rec "versions") eqn:E1, (shas rec "sources") eqn:E2;
            try (right; intros (r & [= <-] & H1 & H2); congruence).
          left. now exists rec. }
        destruct Hdec as [Hy|Hn].
        - left. intros q [<-|Hq]; auto.
        - right. exists p. split; [now left|exact Hn]. }
      destruct (H (Dict.keys d)) as [Hall|Hex]; [contradiction|exact Hex]. }
    destruct Hex as (pkg & Hin & Hn).
    now apply (reset_from_raises d d _ pkg).
Qed.

Lemma reset_builds_view_witness :
  (exists lk,
     reset sklearn_catalog = Ok lk
     /\ (forall pkg, sget (_version_map lk) pkg
                     = if shas sklearn_catalog pkg
                       then Some (_prepare_versions (versions_of sklearn_catalog pkg))
                       else None)
     /\ (forall n p, sget (_package_map lk) n = Some p ->
           In p (Dict.keys sklearn_catalog)
           /\ (n = p \/ In n (Dict.values (sources_of sklearn_catalog p))))
     /\ (forall n, known_name sklearn_catalog n -> shas (_package_map lk) n = true))
  /\ exists key, reset [("p", [("versions", [])])] = Raise (KeyError key).
Proof.
  split.
  - apply (proj1 (reset_builds_view sklearn_catalog)).
    intros pkg [<-|[]]. eexists. split; [reflexivity|]. now split.
  - apply (proj2 (reset_builds_view [("p", [("versions", [])])])).
    intros H. destruct (H "p") as (rec & [= <-] & _ & Hs); [now left|].
    discriminate.
Defined.

Lemma get_of_package (d : Catalog) (lk : LookupCatalog) pkg version dflt :
  (forall q, sget (_version_map lk) q
             = if shas d q then Some (_prepare_versions (versions_of d q)) else None) ->
  sget (_package_map lk) pkg = Some pkg ->
  In pkg (Dict.keys d) ->
  get lk pkg version dflt
  = Ok match version with
       | Some v => match sget (_prepare_versions (versions_of d pkg)) v with
                   | Some u => Some u
                   | None => dflt
                   end
       | None => dflt
       end.
Proof.
  intros Hvm Hpm Hin. unfold get.
  rewrite shas_sget, Hpm. cbn [isSome negb]. unfold getitem.
  rewrite Hvm. apply shas_keys in Hin. rewrite Hin. cbn [bind].
  destruct version as [v|]; [|reflexivity].
  rewrite shas_sget.
  destruct (sget (_prepare_versions (versions_of d pkg)) v) as [u|] eqn:E;
    cbn [isSome negb]; [|reflexivity].
  rewrite Hpm. cbn [bind]. rewrite Hvm, Hin. cbn [bind]. now rewrite E.
Qed.

Lemma get_of_unknown (lk : LookupCatalog) n version dflt :
  shas (_package_map lk) n = false -> get lk n version dflt = Ok dflt.
Proof. intros H. unfold get. now rewrite H. Qed.

(** X16: over a catalog with complete records in which no package is
    recorded as an external name of another one, [get] on a package name
    never raises: it answers with the URL that the expansion of the
    package's versions gives to the version asked for, and with the
    default when the expansion has no such key or no version is given;
    a name that is neither a package nor a recorded external name gets
    the default. *)
Theorem get_on_package_names (d : Catalog) :
  complete d -> no_name_clash d ->
  exists lk,
    reset d = Ok lk
    /\ (forall pkg version dflt,
          In pkg (Dict.keys d) ->
          get lk pkg version dflt
          = Ok match version with
               | Some v => match sget (_prepare_versions (versions_of d pkg)) v with
                           | Some u => Some u
                           | None => dflt
                           end
               | None => dflt
               end)
    /\ (forall n version dflt, ~ known_name d n -> get lk n version dflt = Ok dflt).
Proof.
  intros Hc Hclash.
  destruct (reset_complete d Hc) as (lk & Hr & Hvm & Hpm & Hkeys).
  exists lk. split; [exact Hr|]. split.
  - intros pkg version dflt Hin. apply (get_of_package d); [exact Hvm| |exact Hin].
    assert (Hs : shas (_package_map lk) pkg = true) by (apply Hkeys; now left).
    rewrite shas_sget in Hs.
    destruct (sget (_package_map lk) pkg) as [p|] eqn:E; [|discriminate].
    destruct (Hpm _ _ E) as [Hp [->|Hsrc]]; [reflexivity|].
    now rewrite (Hclash pkg p Hin Hp Hsrc).
  - intros n version dflt Hn. apply get_of_unknown.
    destruct (shas (_package_map lk) n) eqn:E; [|reflexivity].
    rewrite shas_sget in E.
    destruct (sget (_package_map lk) n) as [p|] eqn:E1; [|discriminate].
    exfalso. apply Hn. destruct (Hpm _ _ E1) as [Hp [->|Hsrc]].
    + now left.
    + right. now exists p.
Qed.

Lemma get_on_package_names_witness :
  exists lk,
    reset sklearn_catalog = Ok lk
    /\ get lk "sklearn" (Some "stable") None = Ok (Some "https://scikit-learn.org/stable/")
    /\ get lk "sklearn" (Some "1.0") None = Ok None
    /\ get lk "numpy" (Some "stable") None = Ok None.
Proof.
  assert (Hc : complete sklearn_catalog).
  { intros pkg [<-|[]]. eexists. split; [reflexivity|]. now split. }
  assert (Hn : no_name_clash sklearn_catalog).
  { intros pkg q [<-|[]] [<-|[]] _. reflexivity. }
  destruct (get_on_package_names sklearn_catalog Hc Hn) as (lk & Hr & Hg & Hu).
  exists lk. split; [exact Hr|]. split; [|split].
  - apply (Hg "sklearn" (Some "stable") None). now left.
  - apply (Hg "sklearn" (Some "1.0") None). now left.
  - apply Hu. intros [[E|[]]|(p & [<-|[]] & [E|[]])]; discriminate.
Defined.

(* ===================================================================== *)
(** ** The driver: where it stops, what it keeps, that it returns         *)
(* ===================================================================== *)

(** X17: when the user view has no URL for the request and the built-in
    view has one, the round registers that URL through [_add_index] and
    ends: the two views were consulted, no fetcher was called, and the
    user catalog is as before. A warning is logged first when the user
    catalog has the package. *)
Theorem resolve_stops_at_builtin_catalog
  (fenv frtd : list event -> string -> versions_t)
  (fpypi : list event -> string -> Z -> versions_t)
  (builtin_catalog : Catalog) (builtin_lookup : LookupCatalog)
  (st : dstate) (k : request) (addr : string) :
  get (user_lookup st) (fst (unpack k)) (snd (unpack k)) None = Ok None ->
  get builtin_lookup (fst (unpack k)) (snd (unpack k)) None = Ok (Some addr) ->
  exists st',
    resolve fenv frtd fpypi builtin_catalog builtin_lookup st k = Ok st'
    /\ (m st', log st')
       = (let (m', l) := _add_index (m st) (fst (unpack k)) addr None in
          (m', log st
               ++ (if shas (user_catalog st) (fst (unpack k))
                   then [(WARNING, VersionNotInUserCatalog (fst (unpack k))
                                     (snd (unpack k)))]
                   else [])
               ++ l))
    /\ history st'
       = history st ++ [Lookup UserCatalog (fst (unpack k)) (snd (unpack k));
                        Lookup BuiltinCatalog (fst (unpack k)) (snd (unpack k))]
    /\ user_catalog st' = user_catalog st
    /\ user_lookup st' = user_lookup st.
Proof.
  intros Hu Hb. unfold resolve. destruct (unpack k) as [p v]. cbn [fst snd] in *.
  change (user_lookup (consulted st UserCatalog p v)) with (user_lookup st).
  rewrite Hu. cbn [bind].
  change (user_catalog (consulted st UserCatalog p v)) with (user_catalog st).
  destruct (shas (user_catalog st) p);
    rewrite Hb; cbn [bind]; unfold add_index, consulted, logged;
    cbn [user_catalog m log history user_lookup];
    destruct (_add_index (m st) p addr None) as [m' l];
    eexists; (split; [reflexivity|]);
    cbn [user_catalog m log history user_lookup];
    rewrite <- ?app_assoc; cbn [app]; repeat split; reflexivity.
Qed.

Lemma resolve_stops_at_builtin_catalog_witness :
  exists st',
    resolve (fun _ _ => []) (fun _ _ => []) (fun _ _ _ => [])
            numpy_builtin_catalog numpy_builtin_lookup
            (mkDstate [] [] (mkLookup [] []) [] [])
            (Pair "numpy" (Some "latest")) = Ok st'
    /\ (m st', log st')
       = ([("numpy", ("https://numpy.org/doc/stable/", None))], [])
    /\ history st' = [Lookup UserCatalog "numpy" (Some "latest");
                      Lookup BuiltinCatalog "numpy" (Some "latest")]
    /\ user_catalog st' = []
    /\ user_lookup st' = mkLookup [] [].
Proof.
  apply (resolve_stops_at_builtin_catalog
           (fun _ _ => []) (fun _ _ => []) (fun _ _ _ => [])
           numpy_builtin_catalog numpy_builtin_lookup
           (mkDstate [] [] (mkLookup [] []) [] [])
           (Pair "numpy" (Some "latest")) "https://numpy.org/doc/stable/");
    reflexivity.
Defined.

Lemma sset_values V (d : sdict V) k v x :
  In x (Dict.values (sset d k v)) -> In x (Dict.values d) \/ x = v.
Proof.
  unfold Dict.values. intros H. apply in_map_iff in H.
  destruct H as ([k0 v0] & <- & H). cbn [snd].
  apply sset_entries in H. destruct H as [H|H]; [left|now right].
  apply (in_map snd) in H. exact H.
Qed.

Lemma versions_of_absent (d : Catalog) pkg :
  ~ In pkg (Dict.keys d) -> versions_of d pkg = [] /\ sources_of d pkg = [].
Proof.
  intros H. apply sget_None_keys in H. unfold versions_of, sources_of.
  now rewrite H.
Qed.

Lemma key_frame (d d' : Catalog) p q :
  (forall q, q <> p -> sget d' q = sget d q) ->
  q <> p -> (In q (Dict.keys d') <-> In q (Dict.keys d)).
Proof.
  intros Hf Hq. rewrite <- !shas_keys, !shas_sget. now rewrite (Hf q Hq).
Qed.

(** A catalog updated at [p], where [p] itself is the only external name
    that may have been recorded: the properties the driver relies on
    are kept. *)
Lemma update_keeps_sound (d d' : Catalog) p :
  (forall q, q <> p -> sget d' q = sget d q) ->
  In p (Dict.keys d') ->
  (forall x, In x (Dict.values (sources_of d' p)) ->
             x = p \/ In x (Dict.values (sources_of d p))) ->
  plain_name d p -> no_name_clash d ->
  no_name_clash d' /\ forall n, plain_name d n -> plain_name d' n.
Proof.
  intros Hf Hp Hsrc Hplain Hclash.
  assert (Hsame : forall q, q <> p -> sources_of d' q = sources_of d q).
  { intros q Hq. unfold sources_of. now rewrite (Hf q Hq). }
  assert (Hkn : forall n, known_name d' n -> n = p \/ known_name d n).
  { intros n [Hn|(q & Hq & Hn)].
    - destruct (String.eqb n p) eqn:E; [apply String.eqb_eq in E; now left|].
      assert (Hne : n <> p) by (intros ->; now rewrite String.eqb_refl in E).
      right. left. now apply (key_frame d d' p n Hf Hne).
    - destruct (String.eqb q p) eqn:E.
      + apply String.eqb_eq in E. subst q.
        destruct (Hsrc n Hn) as [->|Hn']; [now left|]. right.
        destruct (in_dec string_dec p (Dict.keys d)) as [Hin|Hout].
        * right. now exists p.
        * destruct (versions_of_absent d p Hout) as [_ Hs].
          rewrite Hs in Hn'. destruct Hn'.
      + assert (Hne : q <> p) by (intros ->; now rewrite String.eqb_refl in E).
        right. right. exists q. split; [now apply (key_frame d d' p q Hf Hne)|].
        now rewrite <- (Hsame q Hne). }
  split.
  - intros pkg q Hpkg Hq Hin.
    destruct (String.eqb q p) eqn:E.
    + apply String.eqb_eq in E. subst q.
      destruct (Hsrc pkg Hin) as [->|Hin']; [reflexivity|].
      destruct (in_dec string_dec p (Dict.keys d)) as [Hin0|Hout].
      * destruct (String.eqb pkg p) eqn:E1;
          [apply String.eqb_eq in E1; now subst|].
        assert (Hne : pkg <> p) by (intros ->; now rewrite String.eqb_refl in E1).
        apply (Hclash pkg p); [now apply (key_frame d d' p pkg Hf Hne)| |]; assumption.
      * destruct (versions_of_absent d p Hout) as [_ Hs].
        rewrite Hs in Hin'. destruct Hin'.
    + assert (Hne : q <> p) by (intros ->; now rewrite String.eqb_refl in E).
      rewrite (Hsame q Hne) in Hin.
      assert (Hq0 : In q (Dict.keys d)) by now apply (key_frame d d' p q Hf Hne).
      destruct (String.eqb pkg p) eqn:E1.
      * apply String.eqb_eq in E1. subst pkg.
        destruct Hplain as [Hin0|Hunk].
        -- now apply (Hclash p q).
        -- exfalso. apply Hunk. right. now exists q.
      * assert (Hne1 : pkg <> p) by (intros ->; now rewrite String.eqb_refl in E1).
        apply (Hclash pkg q); [now apply (key_frame d d' p pkg Hf Hne1)| |]; assumption.
  - intros n [Hn|Hn].
    + left. destruct (String.eqb n p) eqn:E;
        [apply String.eqb_eq in E; now subst|].
      assert (Hne : n <> p) by (intros ->; now rewrite String.eqb_refl in E).
      now apply (key_frame d d' p n Hf Hne).
    + destruct (String.eqb n p) eqn:E;
        [apply String.eqb_eq in E; subst; now left|].
      right. intros Hk. destruct (Hkn n Hk) as [->|Hk'];
        [now rewrite String.eqb_refl in E|contradiction].
Qed.

(** What a look-up under the package's own name does to the catalog. *)
Lemma update_versions_from_own_name source versions ev st p :
  exists st',
    update_versions_from source versions ev st p p = Ok (nonempty versions, st')
    /\ calls st' = calls st ++ [ev]
    /\ (complete (data st) -> complete (data st'))
    /\ In p (Dict.keys (data st'))
    /\ (forall q, q <> p -> sget (data st') q = sget (data st) q)
    /\ (forall x, In x (Dict.values (sources_of (data st') p)) ->
                  x = p \/ In x (Dict.values (sources_of (data st) p)))
    /\ keeps_labels (data st) (data st')
    /\ (versions = [] ->
        data st' = _ensure_defaults (data st) p
        /\ versions_of (data st') p = versions_of (data st) p).
Proof.
  destruct (update_versions_from_keeps source versions ev st p p)
    as (st' & Hr & Hc & Hk & Hf & He).
  destruct (update_versions_from_complete source versions ev st p p)
    as (st2 & Hr2 & Hrec & Hcomp & _).
  rewrite Hr in Hr2. injection Hr2 as <-.
  exists st'. split; [exact Hr|]. split; [exact Hc|]. split; [exact Hcomp|].
  split; [destruct Hrec as (rec & Hs & _); now apply sget_Some_keys in Hs|].
  split; [exact Hf|]. split; [|split; [now apply (keeps_labels_frame _ _ p)|]].
  - destruct versions as [|kv versions].
    + destruct (He eq_refl) as (_ & _ & Hs). rewrite Hs. now right.
    + destruct (update_versions_from_found source (kv :: versions) ev st p p)
        as (st3 & Hr3 & _ & _ & Hs & _); [discriminate|].
      rewrite Hr in Hr3. injection Hr3 as <-.
      rewrite Hs. intros x Hx. apply sset_values in Hx. tauto.
  - intros Hv. destruct (He Hv) as (H1 & H2 & _). now split.
Qed.

Lemma option_eta (o : option string) :
  match o with Some u => Some u | None => None end = o.
Proof. now destruct o. Qed.

(** What [get] answers over a consistent catalog for a plain name. *)
Lemma get_consistent (d : Catalog) (lk : LookupCatalog) p v :
  complete d -> no_name_clash d -> reset d = Ok lk -> plain_name d p ->
  get lk p v None = Ok (expansion_url d p v).
Proof.
  intros Hc Hclash Hr Hp.
  destruct (reset_complete d Hc) as (lk0 & Hr0 & Hvm & Hpm & Hkeys).
  rewrite Hr in Hr0. injection Hr0 as <-.
  destruct (in_dec string_dec p (Dict.keys d)) as [Hin|Hout].
  - rewrite (get_of_package d lk p v None Hvm); [|  |exact Hin].
    + unfold expansion_url. destruct v as [v|]; [now rewrite option_eta|reflexivity].
    + assert (Hs : shas (_package_map lk) p = true) by (apply Hkeys; now left).
      rewrite shas_sget in Hs.
      destruct (sget (_package_map lk) p) as [q|] eqn:E; [|discriminate].
      destruct (Hpm _ _ E) as [Hq [->|Hsrc]]; [reflexivity|].
      now rewrite (Hclash p q Hin Hq Hsrc).
  - destruct Hp as [Hin|Hunk]; [contradiction|].
    rewrite get_of_unknown.
    + destruct (versions_of_absent d p Hout) as [Hv _].
      unfold expansion_url. rewrite Hv. now destruct v.
    + destruct (shas (_package_map lk) p) eqn:E; [|reflexivity].
      rewrite shas_sget in E.
      destruct (sget (_package_map lk) p) as [q|] eqn:E1; [|discriminate].
      exfalso. apply Hunk. destruct (Hpm _ _ E1) as [Hq [->|Hsrc]].
      * now left.
      * right. now exists q.
Qed.

(** One fetch stage from a consistent state. *)
Lemma fetch_stage_consistent (update : cstate -> result (bool * cstate))
  source versions ev (st : dstate) p v :
  update (mkCstate (user_catalog st) (history st))
  = update_versions_from source versions ev
      (mkCstate (user_catalog st) (history st)) p p ->
  consistent st -> plain_name (user_catalog st) p ->
  exists st',
    fetch_stage update st p v = Ok (expansion_url (user_catalog st') p v, st')
    /\ consistent st'
    /\ m st' = m st /\ log st' = log st
    /\ history st' = history st ++ [ev; Lookup UserCatalog p v]
    /\ In p (Dict.keys (user_catalog st'))
    /\ keeps_labels (user_catalog st) (user_catalog st')
    /\ (forall n, plain_name (user_catalog st) n -> plain_name (user_catalog st') n)
    /\ (versions = [] ->
        user_catalog st' = _ensure_defaults (user_catalog st) p
        /\ expansion_url (user_catalog st') p v
           = expansion_url (user_catalog st) p v).
Proof.
  intros Hupd (Hc & Hclash & Hview) Hplain. unfold fetch_stage. rewrite Hupd.
  destruct (update_versions_from_own_name source versions ev
              (mkCstate (user_catalog st) (history st)) p)
    as (cs & Hr & Hcalls & Hcomp & Hin & Hf & Hsrc & Hkeep & Hempty).
  cbn [data calls] in *. rewrite Hr. cbn [bind snd].
  destruct (update_keeps_sound (user_catalog st) (data cs) p Hf Hin Hsrc Hplain Hclash)
    as [Hclash' Hplain'].
  destruct (reset_complete (data cs) (Hcomp Hc)) as (lk & Hreset & _).
  rewrite Hreset. cbn [bind]. unfold consulted. cbn [m user_catalog user_lookup log history].
  rewrite (get_consistent (data cs) lk p v (Hcomp Hc) Hclash' Hreset (or_introl Hin)).
  cbn [bind].
  exists (mkDstate (m st) (data cs) lk (log st) (calls cs ++ [Lookup UserCatalog p v])).
  split; [reflexivity|].
  cbn [m user_catalog user_lookup log history].
  split; [repeat split; auto|]. split; [reflexivity|]. split; [reflexivity|].
  split; [rewrite Hcalls, <- app_assoc; reflexivity|].
  split; [exact Hin|]. split; [exact Hkeep|]. split; [exact Hplain'|].
  intros Hv. destruct (Hempty Hv) as [H1 H2]. split; [exact H1|].
  unfold expansion_url. now rewrite H2.
Qed.

Lemma add_index_frame (mapping : mapping_t) name addr o :
  (forall n e, sget mapping n = Some e ->
               sget (fst (_add_index mapping name addr o)) n = Some e)
  /\ (forall n, n <> name ->
        sget (fst (_add_index mapping name addr o)) n = sget mapping n).
Proof.
  unfold _add_index. destruct (sget mapping name) as [[a o']|] eqn:E.
  - destruct (String.eqb a addr && option_string_eqb o' o); cbn [fst]; auto.
  - cbn [fst]. split.
    + intros n e H. rewrite sget_sset.
      destruct (String.eqb name n) eqn:En; [|exact H].
      apply String.eqb_eq in En. subst n. congruence.
    + intros n Hn. now apply sget_sset_other.
Qed.

Lemma driver_keeps_refl asked st : driver_keeps asked st st.
Proof.
  repeat split; auto; try (exists []; now rewrite app_nil_r).
  intros q l H. exact H.
Qed.

Lemma driver_keeps_trans a1 a2 st1 st2 st3 :
  driver_keeps a1 st1 st2 -> driver_keeps a2 st2 st3 ->
  driver_keeps (a1 ++ a2) st1 st3.
Proof.
  intros (A1 & A2 & (l1 & A3) & (h1 & A4) & A5 & A6)
         (B1 & B2 & (l2 & B3) & (h2 & B4) & B5 & B6).
  split; [auto|]. split.
  - intros n Hn. rewrite B2, A2; [reflexivity| |];
      intros H; apply Hn; apply in_or_app; tauto.
  - split; [exists (l1 ++ l2); now rewrite B3, A3, app_assoc|].
    split; [exists (h1 ++ h2); now rewrite B4, A4, app_assoc|].
    split; [intros q l H; apply B5, A5, H|auto].
Qed.

(** A state that differs from [st0] by messages, history and an update
    of the user catalog. *)
Lemma driver_keeps_stage asked (st st0 st' : dstate) l h :
  driver_keeps asked st st0 ->
  m st' = m st0 -> log st' = log st0 ++ l -> history st' = history st0 ++ h ->
  keeps_labels (user_catalog st0) (user_catalog st') ->
  (forall q, In q (Dict.keys (user_catalog st0)) ->
             In q (Dict.keys (user_catalog st'))) ->
  driver_keeps asked st st'.
Proof.
  intros (A1 & A2 & (l1 & A3) & (h1 & A4) & A5 & A6) Hm Hl Hh Hk Hq.
  split; [intros n e H; rewrite Hm; auto|].
  split; [intros n H; rewrite Hm; auto|].
  split; [exists (l1 ++ l); now rewrite Hl, A3, app_assoc|].
  split; [exists (h1 ++ h); now rewrite Hh, A4, app_assoc|].
  split; [intros q lb H; apply Hk, A5, H|auto].
Qed.

Lemma driver_keeps_add_index (st st0 : dstate) p a :
  driver_keeps [p] st st0 -> m st0 = m st ->
  driver_keeps [p] st (add_index st0 p a).
Proof.
  intros (A1 & A2 & (l1 & A3) & (h1 & A4) & A5 & A6) Hm. unfold add_index.
  destruct (add_index_frame (m st0) p a None) as [F1 F2].
  destruct (_add_index (m st0) p a None) as [m' l] eqn:E. cbn [fst] in *.
  repeat split; cbn [m log history user_catalog]; auto.
  - intros n Hn. rewrite F2, Hm; [reflexivity|]. intros ->. apply Hn. now left.
  - exists (l1 ++ l). now rewrite A3, app_assoc.
  - now exists h1.
Qed.

Section DriverRuns.
Variable docurls_from_environment : list event -> string -> versions_t.
Variable docurls_from_rtd : list event -> string -> versions_t.
Variable docurls_from_pypi : list event -> string -> Z -> versions_t.
Variable builtin_catalog : Catalog.
Variable builtin_lookup : LookupCatalog.
Hypothesis builtin_complete : complete builtin_catalog.
Hypothesis builtin_no_clash : no_name_clash builtin_catalog.
Hypothesis builtin_view : reset builtin_catalog = Ok builtin_lookup.

(** One round from a consistent state returns, in a consistent state. *)
Lemma resolve_consistent (st : dstate) (k : request) :
  consistent st ->
  plain_name (user_catalog st) (fst (unpack k)) ->
  plain_name builtin_catalog (fst (unpack k)) ->
  exists st',
    resolve docurls_from_environment docurls_from_rtd docurls_from_pypi
      builtin_catalog builtin_lookup st k = Ok st'
    /\ consistent st'
    /\ driver_keeps [fst (unpack k)] st st'
    /\ (forall n, plain_name (user_catalog st) n -> plain_name (user_catalog st') n).
Proof.
  intros Hcons Hplain Hbplain. unfold resolve.
  destruct (unpack k) as [p v]. cbn [fst snd] in *.
  assert (Hdone : forall st0 a,
             consistent st0 -> driver_keeps [p] st st0 -> m st0 = m st ->
             (forall n, plain_name (user_catalog st) n ->
                        plain_name (user_catalog st0) n) ->
             exists st',
               Ok (add_index st0 p a) = Ok st'
               /\ consistent st'
               /\ driver_keeps [p] st st'
               /\ (forall n, plain_name (user_catalog st) n ->
                             plain_name (user_catalog st') n)).
  { intros st0 a Hc0 Hk0 Hm0 Hp0. exists (add_index st0 p a).
    split; [reflexivity|]. split; [|split; [now apply driver_keeps_add_index|]].
    - unfold add_index. now destruct (_add_index (m st0) p a None).
    - unfold add_index. now destruct (_add_index (m st0) p a None). }
  assert (Hlog : forall st0 lv msg,
             consistent st0 /\ driver_keeps [p] st st0 /\ m st0 = m st
             /\ (forall n, plain_name (user_catalog st) n ->
                           plain_name (user_catalog st0) n) ->
             consistent (logged st0 lv msg)
             /\ driver_keeps [p] st (logged st0 lv msg)
             /\ m (logged st0 lv msg) = m st
             /\ (forall n, plain_name (user_catalog st) n ->
                           plain_name (user_catalog (logged st0 lv msg)) n)).
  { intros st0 lv msg (Hc0 & Hk0 & Hm0 & Hp0). split; [exact Hc0|].
    split; [|split; assumption].
    apply (driver_keeps_stage [p] st st0 _ [(lv, msg)] []); auto.
    - cbn. now rewrite app_nil_r.
    - intros q l H; exact H. }
  assert (Hcon : forall st0 which,
             consistent st0 /\ driver_keeps [p] st st0 /\ m st0 = m st
             /\ (forall n, plain_name (user_catalog st) n ->
                           plain_name (user_catalog st0) n) ->
             consistent (consulted st0 which p v)
             /\ driver_keeps [p] st (consulted st0 which p v)
             /\ m (consulted st0 which p v) = m st
             /\ (forall n, plain_name (user_catalog st) n ->
                           plain_name (user_catalog (consulted st0 which p v)) n)).
  { intros st0 which (Hc0 & Hk0 & Hm0 & Hp0). split; [exact Hc0|].
    split; [|split; assumption].
    apply (driver_keeps_stage [p] st st0 _ [] [Lookup which p v]); auto.
    - cbn. now rewrite app_nil_r.
    - intros q l H; exact H. }
  assert (Hfetch : forall update source versions ev st0,
             update (mkCstate (user_catalog st0) (history st0))
             = update_versions_from source versions ev
                 (mkCstate (user_catalog st0) (history st0)) p p ->
             consistent st0 /\ driver_keeps [p] st st0 /\ m st0 = m st
             /\ (forall n, plain_name (user_catalog st) n ->
                           plain_name (user_catalog st0) n) ->
             exists addr st1,
               fetch_stage update st0 p v = Ok (addr, st1)
               /\ consistent st1 /\ driver_keeps [p] st st1 /\ m st1 = m st
               /\ (forall n, plain_name (user_catalog st) n ->
                             plain_name (user_catalog st1) n)).
  { intros update source versions ev st0 Hupd (Hc0 & Hk0 & Hm0 & Hp0).
    destruct (fetch_stage_consistent update source versions ev st0 p v Hupd Hc0
                (Hp0 p Hplain))
      as (st1 & Hr & Hc1 & Hm1 & Hl1 & Hh1 & Hin1 & Hkl1 & Hpl1 & _).
    exists (expansion_url (user_catalog st1) p v), st1.
    split; [exact Hr|]. split; [exact Hc1|]. split; [|split; [congruence|auto]].
    apply (driver_keeps_stage [p] st st0 st1 [] [ev; Lookup UserCatalog p v]); auto.
    - now rewrite app_nil_r.
    - intros q Hq. specialize (Hkl1 q). clear -Hq Hc1 Hc0 Hr Hkl1 Hin1 Hupd.
      unfold fetch_stage in Hr. rewrite Hupd in Hr.
      destruct (update_versions_from_step source versions ev
                  (mkCstate (user_catalog st0) (history st0)) p p)
        as (cs & Hu & _ & _ & _ & Hkeys & _).
      rewrite Hu in Hr. cbn [bind snd] in Hr.
      destruct (reset (data cs)) as [lk|]; [|discriminate]. cbn [bind] in Hr.
      destruct (get lk p v None); [|discriminate]. cbn [bind] in Hr.
      injection Hr as _ <-. cbn [consulted user_catalog]. now apply Hkeys. }
  assert (H0 : consistent st /\ driver_keeps [p] st st /\ m st = m st
               /\ (forall n, plain_name (user_catalog st) n ->
                             plain_name (user_catalog st) n)).
  { split; [exact Hcons|]. split; [apply driver_keeps_refl|]. split; auto. }
  apply (Hcon _ UserCatalog) in H0.
  set (st1 := consulted st UserCatalog p v) in *.
  destruct Hcons as (Hc & Hclash & Hview).
  change (user_lookup st1) with (user_lookup st).
  rewrite (get_consistent _ _ p v Hc Hclash Hview Hplain). cbn [bind].
  destruct (expansion_url (user_catalog st) p v) as [a|];
    [destruct H0 as (A & B & C & D); now apply Hdone|].
  assert (H1 : consistent (if shas (user_catalog st1) p
                           then logged st1 WARNING (VersionNotInUserCatalog p v)
                           else st1)
               /\ driver_keeps [p] st (if shas (user_catalog st1) p
                                       then logged st1 WARNING (VersionNotInUserCatalog p v)
                                       else st1)
               /\ m (if shas (user_catalog st1) p
                     then logged st1 WARNING (VersionNotInUserCatalog p v)
                     else st1) = m st
               /\ (forall n, plain_name (user_catalog st) n ->
                             plain_name (user_catalog
                                           (if shas (user_catalog st1) p
                                            then logged st1 WARNING
                                                   (VersionNotInUserCatalog p v)
                                            else st1)) n)).
  { destruct (shas (user_catalog st1) p); [now apply Hlog|exact H0]. }
  clear H0. revert H1.
  generalize (if shas (user_catalog st1) p
              then logged st1 WARNING (VersionNotInUserCatalog p v) else st1).
  clear st1. intros st1 H1.
  apply (Hcon _ BuiltinCatalog) in H1.
  rewrite (get_consistent _ _ p v builtin_complete builtin_no_clash builtin_view
             Hbplain). cbn [bind].
  destruct (expansion_url builtin_catalog p v) as [a|];
    [destruct H1 as (A & B & C & D); now apply Hdone|].
  set (st2 := consulted st1 BuiltinCatalog p v) in *.
  assert (H2 : let s := if shas builtin_catalog p
                        then logged st2 INFO (VersionNotInBuiltinCatalog p v)
                        else st2 in
               consistent s /\ driver_keeps [p] st s /\ m s = m st
               /\ (forall n, plain_name (user_catalog st) n ->
                             plain_name (user_catalog s) n)).
  { destruct (shas builtin_catalog p); [now apply Hlog|exact H1]. }
  clear H1. cbv zeta in H2. revert H2.
  generalize (if shas builtin_catalog p
              then logged st2 INFO (VersionNotInBuiltinCatalog p v) else st2).
  clear st2 st1. intros st2 H2.
  destruct (Hfetch (fun cs => update_versions_from_environment
                                docurls_from_environment cs p None)
              "environment"
              (docurls_from_environment (history st2) p)
              (FetchEnvironment p) st2 eq_refl H2)
    as (addr3 & st3 & Hr3 & H3).
  rewrite Hr3. cbn [bind].
  destruct addr3 as [a|]; [destruct H3 as (A & B & C & D); now apply Hdone|].
  apply (Hlog _ INFO (NotInEnvironment p)) in H3.
  destruct (Hfetch (fun cs => update_versions_from_rtd docurls_from_rtd cs p None)
              "readthedocs"
              (docurls_from_rtd (history (logged st3 INFO (NotInEnvironment p))) p)
              (FetchRtd p) (logged st3 INFO (NotInEnvironment p)) eq_refl H3)
    as (addr4 & st4 & Hr4 & H4).
  rewrite Hr4. cbn [bind].
  destruct addr4 as [a|]; [destruct H4 as (A & B & C & D); now apply Hdone|].
  apply (Hlog _ INFO (NotAtReadthedocs p)) in H4.
  destruct (Hfetch (fun cs => update_versions_from_pypi docurls_from_pypi cs p None 0)
              "pypi"
              (docurls_from_pypi (history (logged st4 INFO (NotAtReadthedocs p))) p 0)
              (FetchPypi p 0) (logged st4 INFO (NotAtReadthedocs p)) eq_refl H4)
    as (addr5 & st5 & Hr5 & H5).
  rewrite Hr5. cbn [bind].
  destruct addr5 as [a|]; [destruct H5 as (A & B & C & D); now apply Hdone|].
  apply (Hlog _ INFO (NotAtPypi p)) in H5.
  eexists. split; [reflexivity|].
  match goal with
  | |- consistent (logged ?s ?lv ?msg) /\ _ =>
      destruct (Hlog s lv msg H5) as (A & B & _ & D)
  end.
  split; [exact A|]. split; [exact B|exact D].
Qed.

Lemma resolve_all_consistent (ks : list request) (st : dstate) :
  consistent st ->
  (forall k, In k ks ->
     plain_name (user_catalog st) (fst (unpack k))
     /\ plain_name builtin_catalog (fst (unpack k))) ->
  exists st',
    resolve_all docurls_from_environment docurls_from_rtd docurls_from_pypi
      builtin_catalog builtin_lookup st ks = Ok st'
    /\ consistent st'
    /\ driver_keeps (asked_names ks) st st'.
Proof.
  revert st. induction ks as [|k ks IH]; intros st Hcons Hplain.
  - exists st. split; [reflexivity|]. split; [exact Hcons|apply driver_keeps_refl].
  - cbn [resolve_all].
    destruct (Hplain k (or_introl eq_refl)) as [Hu Hb].
    destruct (resolve_consistent st k Hcons Hu Hb) as (st1 & Hr & Hc1 & Hk1 & Hp1).
    rewrite Hr. cbn [bind].
    destruct (IH st1 Hc1) as (st' & Hr' & Hc' & Hk').
    { intros k' Hk'. destruct (Hplain k' (or_intror Hk')) as [Hu' Hb'].
      split; [now apply Hp1|exact Hb']. }
    exists st'. split; [exact Hr'|]. split; [exact Hc'|].
    exact (driver_keeps_trans _ _ _ _ _ Hk1 Hk').
Qed.

End DriverRuns.



Lemma sset_same V (d : sdict V) k v : sget d k = Some v -> sset d k v = d.
Proof.
  unfold sget, sset. induction d as [|[k0 v0] d IH]; cbn; [discriminate|].
  destruct (String.eqb k0 k); [now intros [= ->]|].
  intros H. now rewrite IH.
Qed.

Lemma setdefault_present V (d : sdict V) k v :
  shas d k = true -> Dict.setdefault String.eqb d k v = d.
Proof. unfold Dict.setdefault, shas. now intros ->. Qed.

Lemma ensure_defaults_complete (d : Catalog) pkg :
  complete_record d pkg -> _ensure_defaults d pkg = d.
Proof.
  intros (rec & Hr & Hv & Hs). unfold _ensure_defaults.
  rewrite setdefault_present by (rewrite shas_sget, Hr; reflexivity).
  rewrite Hr. rewrite (setdefault_present _ rec "versions") by assumption.
  rewrite setdefault_present by assumption.
  now apply sset_same.
Qed.

Lemma ensure_defaults_idempotent (d : Catalog) pkg :
  _ensure_defaults (_ensure_defaults d pkg) pkg = _ensure_defaults d pkg.
Proof.
  apply ensure_defaults_complete.
  destruct (ensure_defaults_spec d pkg) as [(rec & H1 & H2 & H3) _].
  exists rec. split; [exact H1|]. rewrite !shas_sget, H2, H3. now split.
Qed.

(** X19: a request that nothing answers. From a consistent state, when
    neither view has a URL for the request and the three fetchers find
    nothing, the round asks the environment, readthedocs and PyPI in this
    order, looking the package up in the rebuilt user view after each;
    it leaves the mapping as it was, logs the three misses and then one
    error naming the package and version, and leaves in the user catalog
    an entry for the package with the default sub-mappings. *)
Theorem resolve_not_found
  (fenv frtd : list event -> string -> versions_t)
  (fpypi : list event -> string -> Z -> versions_t)
  (builtin_catalog : Catalog) (builtin_lookup : LookupCatalog)
  (st : dstate) (k : request) :
  let p := fst (unpack k) in
  let v := snd (unpack k) in
  consistent st -> plain_name (user_catalog st) p ->
  get (user_lookup st) p v None = Ok None ->
  get builtin_lookup p v None = Ok None ->
  (forall h, fenv h p = []) -> (forall h, frtd h p = []) ->
  (forall h, fpypi h p 0%Z = []) ->
  exists st',
    resolve fenv frtd fpypi builtin_catalog builtin_lookup st k = Ok st'
    /\ m st' = m st
    /\ user_catalog st' = _ensure_defaults (user_catalog st) p
    /\ log st'
       = log st
         ++ (if shas (user_catalog st) p
             then [(WARNING, VersionNotInUserCatalog p v)] else [])
         ++ (if shas builtin_catalog p
             then [(INFO, VersionNotInBuiltinCatalog p v)] else [])
         ++ [(INFO, NotInEnvironment p); (INFO, NotAtReadthedocs p);
             (INFO, NotAtPypi p); (ERROR, CannotFindEntry (shown_name p v))]
    /\ history st'
       = history st
         ++ [Lookup UserCatalog p v; Lookup BuiltinCatalog p v;
             FetchEnvironment p; Lookup UserCatalog p v;
             FetchRtd p; Lookup UserCatalog p v;
             FetchPypi p 0; Lookup UserCatalog p v].
Proof.
  unfold resolve. destruct (unpack k) as [p v]. cbn [fst snd].
  intros Hcons Hplain Hu Hb Henv Hrtd Hpypi.
  assert (Hnone : expansion_url (user_catalog st) p v = None).
  { destruct Hcons as (Hc & Hclash & Hview).
    rewrite (get_consistent _ _ p v Hc Hclash Hview Hplain) in Hu. congruence. }
  change (user_lookup (consulted st UserCatalog p v)) with (user_lookup st).
  rewrite Hu. cbn [bind].
  change (user_catalog (consulted st UserCatalog p v)) with (user_catalog st).
  rewrite Hb. cbn [bind].
  set (l1 := if shas (user_catalog st) p
             then [(WARNING, VersionNotInUserCatalog p v)] else []).
  set (l2 := if shas builtin_catalog p
             then [(INFO, VersionNotInBuiltinCatalog p v)] else []).
  set (st2 := mkDstate (m st) (user_catalog st) (user_lookup st)
                (log st ++ l1 ++ l2)
                (history st ++ [Lookup UserCatalog p v; Lookup BuiltinCatalog p v])).
  match goal with
  | |- context [fetch_stage ?u ?s p v] =>
      replace s with st2
  end.
  2:{ subst st2 l1 l2. unfold consulted, logged.
      destruct (shas (user_catalog st) p), (shas builtin_catalog p);
        cbn [m user_catalog user_lookup log history];
        rewrite <- ?app_assoc; cbn [app]; rewrite ?app_nil_r; reflexivity. }
  assert (Hc2 : consistent st2) by exact Hcons.
  destruct (fetch_stage_consistent
              (fun cs => update_versions_from_environment fenv cs p None)
              "environment" (fenv (history st2) p) (FetchEnvironment p) st2 p v
              eq_refl Hc2 Hplain)
    as (st3 & Hr3 & Hc3 & Hm3 & Hl3 & Hh3 & Hin3 & _ & Hp3 & He3).
  destruct (He3 (Henv _)) as [Hd3 Hx3].
  rewrite Hr3, Hx3. cbn [user_catalog st2]. rewrite Hnone. cbn [bind].
  set (st3' := logged st3 INFO (NotInEnvironment p)).
  assert (Hc3' : consistent st3') by exact Hc3.
  destruct (fetch_stage_consistent
              (fun cs => update_versions_from_rtd frtd cs p None)
              "readthedocs" (frtd (history st3') p) (FetchRtd p) st3' p v
              eq_refl Hc3' (or_introl Hin3))
    as (st4 & Hr4 & Hc4 & Hm4 & Hl4 & Hh4 & Hin4 & _ & Hp4 & He4).
  destruct (He4 (Hrtd _)) as [Hd4 Hx4].
  rewrite Hr4, Hx4. cbn [user_catalog st3' logged]. rewrite Hx3.
  cbn [user_catalog st2]. rewrite Hnone. cbn [bind].
  set (st4' := logged st4 INFO (NotAtReadthedocs p)).
  assert (Hc4' : consistent st4') by exact Hc4.
  destruct (fetch_stage_consistent
              (fun cs => update_versions_from_pypi fpypi cs p None 0)
              "pypi" (fpypi (history st4') p 0%Z) (FetchPypi p 0) st4' p v
              eq_refl Hc4' (or_introl Hin4))
    as (st5 & Hr5 & Hc5 & Hm5 & Hl5 & Hh5 & Hin5 & _ & Hp5 & He5).
  destruct (He5 (Hpypi _)) as [Hd5 Hx5].
  rewrite Hr5, Hx5. cbn [user_catalog st4' logged]. rewrite Hx4.
  cbn [user_catalog st3' logged]. rewrite Hx3.
  cbn [user_catalog st2]. rewrite Hnone. cbn [bind].
  eexists. split; [reflexivity|].
  subst st4' st3'. unfold logged in *. subst st2.
  cbn [m user_catalog log history] in *.
  split; [now rewrite Hm5, Hm4, Hm3|]. split; [|split].
  - rewrite Hd5, Hd4, Hd3. now rewrite !ensure_defaults_idempotent.
  - rewrite Hl5, Hl4, Hl3. rewrite <- !app_assoc. reflexivity.
  - rewrite Hh5, Hh4, Hh3. rewrite <- !app_assoc. reflexivity.
Qed.

Lemma resolve_not_found_witness :
  exists st',
    resolve (fun _ _ => []) (fun _ _ => []) (fun _ _ _ => [])
            numpy_builtin_catalog numpy_builtin_lookup
            (mkDstate [] [] (mkLookup [] []) [] []) (Pair "p" (Some "1.0")) = Ok st'
    /\ m st' = []
    /\ user_catalog st' = [("p", empty_record)]
    /\ log st' = [(INFO, NotInEnvironment "p"); (INFO, NotAtReadthedocs "p");
                  (INFO, NotAtPypi "p"); (ERROR, CannotFindEntry "p@1.0")]
    /\ history st'
       = [Lookup UserCatalog "p" (Some "1.0"); Lookup BuiltinCatalog "p" (Some "1.0");
          FetchEnvironment "p"; Lookup UserCatalog "p" (Some "1.0");
          FetchRtd "p"; Lookup UserCatalog "p" (Some "1.0");
          FetchPypi "p" 0; Lookup UserCatalog "p" (Some "1.0")].
Proof.
  apply (resolve_not_found (fun _ _ => []) (fun _ _ => []) (fun _ _ _ => [])
           numpy_builtin_catalog numpy_builtin_lookup
           (mkDstate [] [] (mkLookup [] []) [] []) (Pair "p" (Some "1.0"))).
  - split; [intros pkg []|]. split; [intros pkg q []|reflexivity].
  - right. intros [[]|(q & [] & _)].
  - reflexivity.
  - reflexivity.
  - reflexivity.
  - reflexivity.
  - reflexivity.
Defined.

(** X20: [_ensure_defaults] gives the package a record with both
    sub-mappings, holding the versions and sources the package had (none
    for a new package); it touches no other package, and a catalog in
    which the package already has such a record is returned as it is. *)
Theorem ensure_defaults_completes (d : Catalog) (pkg : string) :
  complete_record (_ensure_defaults d pkg) pkg
  /\ versions_of (_ensure_defaults d pkg) pkg = versions_of d pkg
  /\ sources_of (_ensure_defaults d pkg) pkg = sources_of d pkg
  /\ (forall q, q <> pkg -> sget (_ensure_defaults d pkg) q = sget d q)
  /\ (complete_record d pkg -> _ensure_defaults d pkg = d).
Proof.
  destruct (ensure_defaults_spec d pkg) as [(rec & H1 & H2 & H3) Hf].
  split; [exists rec; split; [exact H1|]; rewrite !shas_sget, H2, H3; now split|].
  split; [apply versions_of_ensure_defaults|].
  split; [apply sources_of_ensure_defaults|].
  split; [exact Hf|apply ensure_defaults_complete].
Qed.

Lemma ensure_defaults_completes_witness :
  _ensure_defaults sklearn_catalog "sklearn" = sklearn_catalog.
Proof.
  apply (ensure_defaults_completes sklearn_catalog "sklearn").
  eexists. split; [reflexivity|]. now split.
Defined.

(* ===================================================================== *)
(** ** [Catalog.dump] and [Catalog.load]: the file written is read back   *)
(* ===================================================================== *)

Lemma escape_all_app cs t1 t2 :
  JSON.escape_all cs (t1 ++ t2) = JSON.escape_all cs t1 ++ t2.
Proof.
  induction cs as [|c cs IH]; cbn [JSON.escape_all]; [reflexivity|].
  now rewrite IH, app_assoc.
Qed.

Lemma encode_string_app s t1 t2 :
  JSON.encode_string s (t1 ++ t2) = JSON.encode_string s t1 ++ t2.
Proof.
  unfold JSON.encode_string. cbn [app].
  now rewrite (escape_all_app _ (JSON.dquote :: t1) t2).
Qed.

Lemma newline_indent_app level t1 t2 :
  JSON.newline_indent level (t1 ++ t2) = JSON.newline_indent level t1 ++ t2.
Proof.
  unfold JSON.newline_indent. cbn [app]. f_equal.
  induction (2 * level) as [|n IH]; cbn [JSON.spaces app]; [reflexivity|].
  now rewrite IH.
Qed.

Lemma encode_members_app V (ev : V -> list ascii -> list ascii) level ms t1 t2 :
  (forall v t1 t2, ev v (t1 ++ t2) = ev v t1 ++ t2) ->
  JSON.encode_members ev level ms (t1 ++ t2)
  = JSON.encode_members ev level ms t1 ++ t2.
Proof.
  intros Hev. induction ms as [|[k v] ms IH]; cbn [JSON.encode_members];
    [reflexivity|].
  destruct ms as [|e ms].
  - rewrite <- encode_string_app. cbn [app]. now rewrite Hev.
  - rewrite IH. rewrite <- encode_string_app. cbn [app].
    rewrite <- Hev. cbn [app]. now rewrite newline_indent_app.
Qed.

Lemma encode_object_app V (ev : nat -> V -> list ascii -> list ascii) level d t1 t2 :
  (forall level v t1 t2, ev level v (t1 ++ t2) = ev level v t1 ++ t2) ->
  JSON.encode_object ev level d (t1 ++ t2) = JSON.encode_object ev level d t1 ++ t2.
Proof.
  intros Hev. unfold JSON.encode_object. destruct d as [|e d]; [reflexivity|].
  cbn [app]. f_equal.
  rewrite <- newline_indent_app. f_equal.
  rewrite <- encode_members_app by apply Hev. f_equal.
  apply (newline_indent_app level ("}"%char :: t1) t2).
Qed.

Lemma encode_catalog_app (c : Catalog) t :
  JSON.encode_catalog c ++ t = JSON.encode_object JSON.encode_record 0 c t.
Proof.
  unfold JSON.encode_catalog. rewrite <- encode_object_app; [reflexivity|].
  intros level v t1 t2. unfold JSON.encode_record.
  apply encode_object_app. intros level' v' t1' t2'. unfold JSON.encode_versions.
  apply encode_object_app. intros _ s t1'' t2''. apply encode_string_app.
Qed.

Lemma list_ascii_of_string_app (s t : string) :
  list_ascii_of_string (s ++ t) = list_ascii_of_string s ++ list_ascii_of_string t.
Proof. induction s as [|c s IH]; cbn; [reflexivity|now rewrite IH]. Qed.

(** The text that [dump] writes is read back as the catalog. *)
Lemma loads_dumped (c : Catalog) :
  wf_catalog c ->
  JSON.loads (JSON.dumps c ++ String JSON.newline "") = Ok c.
Proof.
  intros Hwf. apply wf_catalog_codec in Hwf.
  unfold JSON.loads, JSON.dumps.
  rewrite list_ascii_of_string_app, list_ascii_of_string_of_list_ascii.
  cbn [list_ascii_of_string]. rewrite encode_catalog_app.
  change (JSON.encode_object JSON.encode_record 0 c [JSON.newline])
    with (enc 0 c [JSON.newline]).
  change JSON.decode_catalog with (@dec Catalog _).
  rewrite enc_head, dec_enc by exact Hwf. reflexivity.
Qed.

(** X21: what [dump] writes, [load] reads back: when [dump] returns, the
    file holds the text of [dumps] followed by one newline, and loading
    it gives the catalog dumped, whatever the loading catalog held. [dump]
    returns when the file is new, and when the backup path is accepted. *)
Theorem dump_load_roundtrip
  (suffix : string -> string) (with_suffix : string -> string -> option string)
  (fs : files_t) (c self : Catalog) (path : string) :
  wf_catalog c ->
  sget fs path = None \/ with_suffix path (suffix path ++ "~")%string <> None ->
  exists fs',
    Catalog_dump suffix with_suffix fs c path = Done fs'
    /\ sget fs' path = Some (Catalog_dumps c ++ String JSON.newline "")%string
    /\ Catalog_load fs' self path = Done c.
Proof.
  intros Hwf Hok. unfold Catalog_dump, Catalog_load.
  assert (H : forall fs0 : files_t,
             exists fs',
               Done (sset fs0 path (JSON.dumps c ++ String JSON.newline "")%string)
               = Done fs'
               /\ sget fs' path = Some (Catalog_dumps c ++ String JSON.newline "")%string
               /\ match sget fs' path with
                  | Some contents => match JSON.loads contents with
                                     | Ok d => Done d
                                     | Raise e => Failed (Other e)
                                     end
                  | None => Failed (FileNotFoundError path)
                  end = Done c).
  { intros fs0. eexists. split; [reflexivity|]. rewrite sget_sset_same.
    split; [reflexivity|]. now rewrite loads_dumped. }
  destruct (sget fs path) as [old|] eqn:E.
  - destruct Hok as [Hok|Hok]; [discriminate|].
    destruct (with_suffix path (suffix path ++ "~")%string) as [backup|];
      [apply H|contradiction].
  - apply H.
Qed.

Lemma dump_load_roundtrip_witness :
  exists fs',
    Catalog_dump (fun _ => ".json") (fun p s => Some (p ++ "~")%string)
      [] sklearn_catalog "catalog.json" = Done fs'
    /\ sget fs' "catalog.json"
       = Some (Catalog_dumps sklearn_catalog ++ String JSON.newline "")%string
    /\ Catalog_load fs' [] "catalog.json" = Done sklearn_catalog.
Proof.
  apply (dump_load_roundtrip (fun _ => ".json") (fun p s => Some (p ++ "~")%string)
           [] sklearn_catalog [] "catalog.json").
  - split; [nodup_keys|].
    intros pkg rec [[= <- <-]|[]].
    split; [nodup_keys|].
    intros key d [[= <- <-]|[[= <- <-]|[]]]; nodup_keys.
  - now left.
Defined.

(** X22: [dump] over an existing file first copies it to the backup
    path, so that afterwards the backup holds the previous contents, the
    file holds the new text, and every other file is as before; when
    [with_suffix] refuses the backup suffix, [dump] raises [ValueError].
    [load] of a missing file raises [FileNotFoundError]. *)
Theorem dump_backs_up
  (suffix : string -> string) (with_suffix : string -> string -> option string)
  (fs : files_t) (c : Catalog) (path old : string) :
  sget fs path = Some old ->
  (forall backup,
     with_suffix path (suffix path ++ "~")%string = Some backup ->
     backup <> path ->
     exists fs',
       Catalog_dump suffix with_suffix fs c path = Done fs'
       /\ sget fs' backup = Some old
       /\ sget fs' path = Some (Catalog_dumps c ++ String JSON.newline "")%string
       /\ forall q, q <> path -> q <> backup -> sget fs' q = sget fs q)
  /\ (with_suffix path (suffix path ++ "~")%string = None ->
      Catalog_dump suffix with_suffix fs c path = Failed ValueError)
  /\ (forall missing, sget fs missing = None ->
        Catalog_load fs c missing = Failed (FileNotFoundError missing)).
Proof.
  intros Hold. unfold Catalog_dump, Catalog_load. rewrite Hold.
  split; [|split].
  - intros backup -> Hne. eexists. split; [reflexivity|].
    split; [|split].
    + rewrite sget_sset_other by congruence. apply sget_sset_same.
    + apply sget_sset_same.
    + intros q H1 H2. now rewrite !sget_sset_other by congruence.
  - now intros ->.
  - now intros missing ->.
Qed.

Lemma dump_backs_up_witness :
  let fs : files_t := [("catalog.json", "{}")] in
  exists fs',
    Catalog_dump (fun _ => ".json") (fun p s => Some (p ++ "~")%string)
      fs sklearn_catalog "catalog.json" = Done fs'
    /\ sget fs' "catalog.json~" = Some "{}"
    /\ sget fs' "catalog.json"
       = Some (Catalog_dumps sklearn_catalog ++ String JSON.newline "")%string
    /\ forall q, q <> "catalog.json" -> q <> "catalog.json~" -> sget fs' q = sget fs q.
Proof.
  intros fs.
  apply (proj1 (dump_backs_up (fun _ => ".json") (fun p s => Some (p ++ "~")%string)
                  fs sklearn_catalog "catalog.json" "{}" eq_refl)).
  - reflexivity.
  - discriminate.
Defined.

Lemma append_newline_differs (s : string) :
  String.eqb (s ++ String JSON.newline "") s = false.
Proof.
  destruct (String.eqb (s ++ String JSON.newline "") s) eqn:E; [|reflexivity].
  apply String.eqb_eq in E. apply (f_equal String.length) in E.
  rewrite length_append in E. cbn in E. lia.
Qed.

(** X23: the saving step at the end of [populate_intersphinx_mapping]
    writes nothing without a configured path or with an empty catalog;
    otherwise it compares the file with the text of [dumps], which has no
    final newline, so that a file written by [dump] for the very same
    catalog is backed up and written again. *)
Theorem save_user_catalog_writes_again
  (suffix : string -> string) (with_suffix : string -> string -> option string)
  (fs : files_t) (user_catalog : Catalog) (file backup : string) :
  user_catalog <> [] ->
  sget fs file = Some (Catalog_dumps user_catalog ++ String JSON.newline "")%string ->
  with_suffix file (suffix file ++ "~")%string = Some backup ->
  backup <> file ->
  (exists fs',
     save_user_catalog suffix with_suffix fs (Some file) user_catalog
     = Done (fs', true)
     /\ sget fs' file = sget fs file
     /\ sget fs' backup = sget fs file)
  /\ save_user_catalog suffix with_suffix fs None user_catalog = Done (fs, false)
  /\ save_user_catalog suffix with_suffix fs (Some file) [] = Done (fs, false).
Proof.
  intros Hne Hfile Hb Hbf. split; [|split; reflexivity].
  unfold save_user_catalog. destruct user_catalog as [|e r]; [contradiction|].
  cbn [nonempty]. rewrite Hfile, append_newline_differs. cbn [negb].
  unfold Catalog_dump. rewrite Hfile, Hb.
  eexists. split; [reflexivity|]. split.
  - now rewrite sget_sset_same.
  - rewrite sget_sset_other by congruence. now rewrite sget_sset_same.
Qed.

Lemma save_user_catalog_writes_again_witness :
  let text := (Catalog_dumps sklearn_catalog ++ String JSON.newline "")%string in
  let fs : files_t := [("catalog.json", text)] in
  exists fs',
    save_user_catalog (fun _ => ".json") (fun p s => Some (p ++ "~")%string)
      fs (Some "catalog.json") sklearn_catalog = Done (fs', true)
    /\ sget fs' "catalog.json" = sget fs "catalog.json"
    /\ sget fs' "catalog.json~" = sget fs "catalog.json".
Proof.
  intros text fs.
  apply (proj1 (save_user_catalog_writes_again
                  (fun _ => ".json") (fun p s => Some (p ++ "~")%string)
                  fs sklearn_catalog "catalog.json" "catalog.json~"
                  ltac:(discriminate) eq_refl eq_refl ltac:(discriminate))).
Defined.

(* ===================================================================== *)
(** ** [_parse_requirements]: one name per token                          *)
(* ===================================================================== *)

Lemma is_token_cons c r :
  is_token (String c r) = true ->
  is_space c = false /\ (r = EmptyString \/ is_token r = true).
Proof.
  unfold is_token. cbn. intros H. apply andb_prop in H. destruct H as [H1 H2].
  apply negb_true_iff in H1. split; [exact H1|].
  destruct r as [|c' r]; [now left|right]. exact H2.
Qed.

Lemma split_ws_inside a b r :
  is_space a = false -> is_space b = false ->
  split_ws (String a (String b r))
  = match split_ws (String b r) with
    | w :: ws => String a w :: ws
    | [] => [String a EmptyString]
    end.
Proof.
  intros Ha Hb.
  change (split_ws (String a (String b r)))
    with (if is_space a then split_ws (String b r)
          else if is_space b then String a EmptyString :: split_ws (String b r)
               else match split_ws (String b r) with
                    | w :: ws => String a w :: ws
                    | [] => [String a EmptyString]
                    end).
  now rewrite Ha, Hb.
Qed.

Lemma split_ws_token t c rest :
  is_token t = true -> is_space c = true ->
  split_ws (t ++ String c rest) = t :: split_ws rest.
Proof.
  induction t as [|a t IH]; intros Ht Hc; [discriminate|].
  destruct (is_token_cons _ _ Ht) as [Ha [-> |Ht']].
  - cbn [append split_ws]. now rewrite Ha, Hc.
  - specialize (IH Ht' Hc). destruct t as [|b t]; [discriminate|].
    destruct (is_token_cons _ _ Ht') as [Hb _].
    change (String a (String b t) ++ String c rest)%string
      with (String a (String b (t ++ String c rest))).
    rewrite (split_ws_inside _ _ _ Ha Hb).
    change (String b (t ++ String c rest))
      with (String b t ++ String c rest)%string.
    now rewrite IH.
Qed.

Lemma split_ws_last t : is_token t = true -> split_ws t = [t].
Proof.
  induction t as [|a t IH]; intros Ht; [discriminate|].
  destruct (is_token_cons _ _ Ht) as [Ha [-> |Ht']].
  - cbn [split_ws]. now rewrite Ha.
  - specialize (IH Ht'). destruct t as [|b t]; [discriminate|].
    destruct (is_token_cons _ _ Ht') as [Hb _].
    rewrite (split_ws_inside _ _ _ Ha Hb). now rewrite IH.
Qed.

Lemma rstrip_token t : is_token t = true -> rstrip t = t.
Proof.
  induction t as [|a t IH]; intros Ht; [discriminate|].
  destruct (is_token_cons _ _ Ht) as [Ha [-> |Ht']].
  - cbn. now rewrite Ha.
  - cbn [rstrip]. rewrite (IH Ht'). destruct t; [discriminate|reflexivity].
Qed.

Lemma strip_token t : is_token t = true -> strip t = t.
Proof.
  intros Ht. unfold strip.
  assert (H : lstrip t = t).
  { destruct t as [|a t]; [reflexivity|].
    destruct (is_token_cons _ _ Ht) as [Ha _]. cbn. now rewrite Ha. }
  rewrite H. now apply rstrip_token.
Qed.

Lemma parse_requirements_token (t rest : string) (c : ascii) :
  is_token t = true -> is_space c = true ->
  _parse_requirements (t ++ String c rest)
  = (if startswith t "#" then [] else [before_separator t])
    ++ _parse_requirements rest
  /\ _parse_requirements t
     = (if startswith t "#" then [] else [before_separator t])
  /\ _parse_requirements (String c rest) = _parse_requirements rest.
Proof.
  intros Ht Hc. unfold _parse_requirements. split; [|split].
  - rewrite (split_ws_token _ _ _ Ht Hc). cbn [filter].
    rewrite (strip_token _ Ht).
    destruct (startswith t "#"); cbn [negb map app]; [reflexivity|].
    now rewrite (strip_token _ Ht).
  - rewrite (split_ws_last _ Ht). cbn [filter].
    rewrite (strip_token _ Ht).
    destruct (startswith t "#"); cbn [negb map app]; [reflexivity|].
    now rewrite (strip_token _ Ht).
  - cbn [split_ws]. now rewrite Hc.
Qed.

(** X24: [_parse_requirements] works token by token: white space
    separates tokens, a token that starts with [#] is dropped (the words
    after it are tokens of their own), and any other token gives what
    comes before its first [=]. *)
Theorem parse_requirements_by_token (t rest : string) (c : ascii) :
  is_token t = true -> is_space c = true ->
  _parse_requirements (t ++ String c rest)
  = (if startswith t "#" then [] else [before_separator t])
    ++ _parse_requirements rest
  /\ _parse_requirements t
     = (if startswith t "#" then [] else [before_separator t])
  /\ _parse_requirements (String c rest) = _parse_requirements rest.
Proof. apply parse_requirements_token. Qed.

Lemma parse_requirements_by_token_witness :
  _parse_requirements "# docs numpy>=1.20"
  = [] ++ _parse_requirements "docs numpy>=1.20"
  /\ _parse_requirements "numpy>=1.20" = ["numpy>"].
Proof.
  split.
  - apply (parse_requirements_by_token "#" "docs numpy>=1.20" " "); reflexivity.
  - apply (proj1 (proj2 (parse_requirements_by_token "numpy>=1.20" "" " "
                           eq_refl eq_refl))).
Defined.

Lemma before_separator_name name tail :
  all_chars (fun c => negb (is_space c)) name = true ->
  all_chars (fun c => negb (Ascii.eqb c "=")) name = true ->
  (tail = EmptyString \/ exists r, tail = String "=" r) ->
  before_separator (name ++ tail) = name.
Proof.
  intros H1 H2 Ht. induction name as [|a name IH]; cbn [append].
  - destruct Ht as [-> |(r & ->)]; reflexivity.
  - cbn in H1, H2. apply andb_prop in H1, H2.
    destruct H1 as [A1 B1], H2 as [A2 B2].
    apply negb_true_iff in A1, A2. cbn [before_separator].
    rewrite A1, A2. cbn [orb]. now rewrite IH.
Qed.

Lemma all_chars_append p s t :
  all_chars p (s ++ t) = all_chars p s && all_chars p t.
Proof.
  induction s as [|a s IH]; cbn; [reflexivity|]. now rewrite IH, andb_assoc.
Qed.

Lemma prefix_hash_append (s t : string) :
  s <> EmptyString -> startswith (s ++ t) "#" = startswith s "#".
Proof.
  destruct s as [|a s]; [contradiction|]. intros _.
  unfold startswith. cbn [String.prefix append].
  destruct (ascii_dec "#" a); [|reflexivity].
  generalize (s ++ t)%string. intros u. now destruct s, u.
Qed.

(** X25: a requirements file with one package per line, each a name or a
    name pinned with [==] to a version without white space, is parsed
    into the names, in order. *)
Theorem parse_requirements_pinned_lines (lines : list (string * option string)) :
  (forall name pin, In (name, pin) lines ->
     is_requirement_name name = true
     /\ forall version, pin = Some version ->
          all_chars (fun c => negb (is_space c)) version = true) ->
  _parse_requirements (requirement_lines lines) = map fst lines.
Proof.
  induction lines as [|[name pin] lines IH]; intros H; [reflexivity|].
  cbn [requirement_lines map fst].
  destruct (H name pin (or_introl eq_refl)) as [Hn Hp].
  unfold is_requirement_name in Hn. apply andb_prop in Hn. destruct Hn as [Hn H3].
  apply andb_prop in Hn. destruct Hn as [H1 H2]. apply negb_true_iff in H3.
  assert (Hne : name <> EmptyString) by (intros ->; discriminate).
  assert (Hsp : all_chars (fun c => negb (is_space c)) name = true).
  { unfold is_token in H1. apply andb_prop in H1. tauto. }
  assert (Htok : is_token (requirement_line name pin) = true).
  { destruct pin as [version|]; [|exact H1]. cbn [requirement_line].
    unfold is_token. apply andb_true_intro. split.
    - destruct name; [contradiction|reflexivity].
    - rewrite all_chars_append, Hsp. cbn. now apply Hp. }
  assert (Hc : is_space JSON.newline = true) by reflexivity.
  destruct (parse_requirements_token _ (requirement_lines lines) _ Htok Hc)
    as [-> _].
  rewrite IH by (intros n p Hin; apply H; now right).
  assert (Hh : startswith (requirement_line name pin) "#" = false).
  { destruct pin as [version|]; [|exact H3]. cbn [requirement_line].
    now rewrite prefix_hash_append. }
  rewrite Hh. cbn [app]. f_equal.
  destruct pin as [version|]; cbn [requirement_line].
  - apply before_separator_name; [exact Hsp|exact H2|right; now eexists].
  - rewrite <- (before_separator_name name EmptyString Hsp H2 (or_introl eq_refl)) at 2.
    f_equal. clear. induction name as [|a n IH]; cbn; [reflexivity|now rewrite <- IH].
Qed.

Lemma parse_requirements_pinned_lines_witness :
  _parse_requirements
    (requirement_lines [("numpy", Some "1.26.0"); ("sphinx", None); ("scipy", Some "1.11")])
  = ["numpy"; "sphinx"; "scipy"].
Proof.
  apply (parse_requirements_pinned_lines
           [("numpy", Some "1.26.0"); ("sphinx", None); ("scipy", Some "1.11")]).
  intros name pin [[= <- <-]|[[= <- <-]|[[= <- <-]|[]]]];
    (split; [reflexivity|]); intros version; try discriminate;
    intros [= <-]; reflexivity.
Defined.

(* ===================================================================== *)
(** ** The fetchers: what they return, how often they ask                 *)
(* ===================================================================== *)

Lemma count_gets_app t1 t2 : count_gets (t1 ++ t2) = count_gets t1 + count_gets t2.
Proof.
  induction t1 as [|[p|u|u] t1 IH]; cbn [count_gets app]; auto.
  rewrite IH. reflexivity.
Qed.

Lemma directories_set (K : Type) (keq : K -> K -> bool) (versions : Dict.t K string)
  label addr :
  directories versions ->
  directories (Dict.set keq versions label (_ensure_webdir addr)).
Proof.
  intros H. induction versions as [|[k u] versions IH]; cbn [Dict.set].
  - intros l u [[= _ <-]|[]]. apply ensure_webdir_endswith.
  - destruct (keq k label).
    + intros l u' [[= _ <-]|Hin]; [apply ensure_webdir_endswith|].
      apply (H l). now right.
    + intros l u' [[= <- <-]|Hin]; [apply (H k); now left|].
      apply IH in Hin; [exact Hin|]. intros l' u'' Hin'. apply (H l'). now right.
Qed.

Lemma directories_nil (K : Type) : directories ([] : Dict.t K string).
Proof. intros l u []. Qed.

Section WorldFacts.
Variable metadata : string -> option package_metadata.
Variable head : string -> option bool.
Variable get_page : string -> page.
Variable get_json : string -> outcome (option pypi_reply).

Lemma first_documentation_spec md urls trace versions t' :
  first_documentation head md urls trace = (Returns versions, t') ->
  directories versions /\ List.length versions <= 1.
Proof.
  revert trace. induction urls as [|k rest IH]; intros trace; cbn [first_documentation].
  - intros [= <- <-]. split; [apply directories_nil|cbn; lia].
  - destruct (startswith k "documentation, " || startswith k "Documentation, ");
      [|apply IH].
    unfold and_then, requests_head.
    destruct (head _) as [[|]|]; [|apply IH|discriminate].
    destruct (md_version md); intros [= <- <-]; (split; [|cbn; lia]);
      intros l u [[= _ <-]|[]]; apply ensure_webdir_endswith.
Qed.

Lemma docurls_from_environment_spec package trace versions t' :
  docurls_from_environment metadata head package trace = (Returns versions, t') ->
  directories versions /\ List.length versions <= 1.
Proof.
  unfold docurls_from_environment.
  destruct (metadata package) as [md|];
    [|intros [= <- <-]; split; [apply directories_nil|cbn; lia]].
  destruct (project_url md) as [urls|];
    [|intros [= <- <-]; split; [apply directories_nil|cbn; lia]].
  apply first_documentation_spec.
Qed.

Lemma rtd_links_directories links d versions :
  rtd_links links d = Returns versions -> directories d -> directories versions.
Proof.
  revert d. induction links as [|k links IH]; intros d; cbn [rtd_links].
  - now intros [= <-].
  - destruct (link_href k) as [href|]; [|discriminate].
    destruct (startswith href "http"); intros H Hd; [|now apply (IH d)].
    apply (IH _ H). now apply directories_set.
Qed.

Lemma docurls_from_rtd_directories package trace versions t' :
  docurls_from_rtd get_page package trace = (Returns versions, t') ->
  directories versions.
Proof.
  unfold docurls_from_rtd. destruct (get_page _) as [|e|links].
  - intros [= <- <-]. apply directories_nil.
  - discriminate.
  - intros [= H _]. apply (rtd_links_directories _ _ _ H). apply directories_nil.
Qed.

Lemma record_documentation_spec data versions trace :
  exists r sent,
    record_documentation head data versions trace = (r, trace ++ sent)
    /\ count_gets sent = 0
    /\ (forall v, r = Returns v -> directories versions -> directories v).
Proof.
  unfold record_documentation, and_then, read, raise, ret, requests_head.
  destruct (project_urls data) as [[urls|]|e].
  - destruct (py_or _ _) as [addr|].
    + destruct (head _) as [[|]|].
      * destruct (info_version data) as [version|e];
          eexists _, [_]; (split; [reflexivity|]); (split; [reflexivity|]).
        -- intros v [= <-] H. now apply directories_set.
        -- discriminate.
      * eexists _, [_]. split; [reflexivity|]. split; [reflexivity|].
        now intros v [= <-] H.
      * eexists _, [_]. split; [reflexivity|]. split; [reflexivity|]. discriminate.
    + eexists _, []. rewrite app_nil_r. split; [reflexivity|].
      split; [reflexivity|]. now intros v [= <-] H.
  - eexists _, []. rewrite app_nil_r. split; [reflexivity|].
    split; [reflexivity|]. discriminate.
  - eexists _, []. rewrite app_nil_r. split; [reflexivity|].
    split; [reflexivity|]. discriminate.
Qed.

Lemma probe_releases_spec package version_map probes versions trace :
  exists r sent,
    probe_releases head get_json package version_map probes versions trace
    = (r, trace ++ sent)
    /\ count_gets sent <= List.length probes
    /\ (forall v, r = Returns v ->
        count_gets sent = List.length probes
        /\ (directories versions -> directories v)).
Proof.
  revert versions trace. induction probes as [|k probes IH]; intros versions trace;
    cbn [probe_releases].
  - exists (Returns versions), []. rewrite app_nil_r. split; [reflexivity|].
    split; [cbn; lia|]. intros v [= <-]. now split.
  - match goal with |- context [_get_json _ ?u] => set (url := u) end.
    unfold and_then at 1. unfold _get_json at 1.
    destruct (get_json url) as [[data|]|e].
    + unfold and_then at 1.
      destruct (record_documentation_spec data versions (trace ++ [Get url]))
        as (r1 & s1 & E1 & C1 & D1).
      rewrite E1. destruct r1 as [v1|e1].
      * destruct (IH v1 ((trace ++ [Get url]) ++ s1)) as (r2 & s2 & E2 & C2 & D2).
        rewrite E2. exists r2, ([Get url] ++ s1 ++ s2).
        rewrite !app_assoc. split; [reflexivity|].
        rewrite !count_gets_app. cbn [count_gets List.length].
        split; [lia|]. intros v Hv. destruct (D2 v Hv) as [A B].
        split; [lia|]. intros Hd. apply B. now apply (D1 v1).
      * exists (Raises e1), ([Get url] ++ s1). rewrite !app_assoc.
        split; [reflexivity|]. rewrite !count_gets_app. cbn [count_gets List.length].
        split; [lia|]. discriminate.
    + destruct (IH versions (trace ++ [Get url])) as (r2 & s2 & E2 & C2 & D2).
      rewrite E2. exists r2, ([Get url] ++ s2). rewrite !app_assoc.
      split; [reflexivity|]. rewrite !count_gets_app. cbn [count_gets List.length].
      split; [lia|]. intros v Hv. destruct (D2 v Hv) as [A B]. split; [lia|exact B].
    + exists (Raises e), [Get url]. split; [reflexivity|].
      cbn [count_gets List.length]. split; [lia|]. discriminate.
Qed.

End WorldFacts.

Lemma insert_length (A : Type) (lt : A -> A -> bool) x l :
  List.length (insert lt x l) = S (List.length l).
Proof.
  induction l as [|z l IH]; cbn [insert List.length]; [reflexivity|].
  destruct (lt z x); cbn [List.length]; [now rewrite IH|reflexivity].
Qed.

Lemma sorted_reverse_length (A : Type) (lt : A -> A -> bool) l :
  List.length (sorted_reverse lt l) = List.length l.
Proof.
  unfold sorted_reverse. rewrite length_rev. rewrite <- (length_rev l).
  generalize (rev l). intros l'. induction l' as [|x l' IH]; [reflexivity|].
  unfold sorted in *. cbn [fold_right List.length]. now rewrite insert_length, IH.
Qed.

Lemma docurls_from_pypi_spec (head : string -> option bool)
  (get_json : string -> outcome (option pypi_reply))
  (package : string) (max_entries : pyval) (trace : list web_request) :
  exists r sent,
    docurls_from_pypi head get_json package max_entries trace
    = (r, trace ++ Get ("https://pypi.org/pypi/" ++ package ++ "/json")%string :: sent)
    /\ (forall data,
          get_json ("https://pypi.org/pypi/" ++ package ++ "/json")%string
          = Returns data ->
          match data with
          | None => r = Returns [] /\ sent = []
          | Some data =>
              forall v, r = Returns v ->
                exists labels limited,
                  releases data = Returns labels
                  /\ ge_zero max_entries = Returns limited
                  /\ count_gets sent
                     = List.length
                         (if limited
                          then slice_upto (Dict.keys (releases_version_map labels))
                                 max_entries
                          else Dict.keys (releases_version_map labels))
          end)
    /\ (forall e,
          get_json ("https://pypi.org/pypi/" ++ package ++ "/json")%string = Raises e ->
          r = Raises e /\ sent = [])
    /\ (forall n, max_entries = PyInt n -> (0 <= n)%Z -> count_gets sent <= Z.to_nat n)
    /\ (forall s, max_entries = PyStr s -> count_gets sent = 0)
    /\ (forall v, r = Returns v -> directories v).
Proof.
  set (url := ("https://pypi.org/pypi/" ++ package ++ "/json")%string).
  unfold docurls_from_pypi. fold url.
  unfold and_then at 1. unfold _get_json at 1.
  destruct (get_json url) as [[data|]|e].
  - unfold and_then at 1.
    destruct (record_documentation_spec head data [] (trace ++ [Get url]))
      as (r1 & s1 & E1 & C1 & D1).
    rewrite E1. destruct r1 as [v1|e1].
    + unfold and_then at 1. unfold read at 1.
      destruct (releases data) as [labels|e2] eqn:Er.
      * unfold and_then at 1. unfold read at 1.
        destruct max_entries as [n|s]; cbn [ge_zero].
        -- match goal with
           | |- context [probe_releases _ _ _ ?vm ?probes ?v ?t] =>
               destruct (probe_releases_spec head get_json package vm probes v t)
                 as (r2 & s2 & E2 & C2 & D2);
               rewrite E2
           end.
           exists r2, (s1 ++ s2).
           replace (trace ++ Get url :: s1 ++ s2) with ((trace ++ [Get url]) ++ s1 ++ s2)
             by (rewrite <- !app_assoc; reflexivity).
           rewrite app_assoc.
           split; [reflexivity|]. rewrite count_gets_app, C1. cbn [Nat.add].
           split; [|split; [discriminate|split; [|split; [discriminate|]]]].
           ++ intros d [= <-] v Hv. destruct (D2 v Hv) as [A _].
              exists labels, (0 <=? n)%Z. split; [exact Er|]. split; [reflexivity|].
              rewrite A. cbn [slice_upto].
              destruct (0 <=? n)%Z;
                rewrite ?length_firstn, ?sorted_reverse_length; reflexivity.
           ++ intros n' [= <-] Hn. apply Z.leb_le in Hn. rewrite Hn in C2.
              cbn [slice_upto] in C2. rewrite length_firstn in C2. lia.
           ++ intros v Hv. destruct (D2 v Hv) as [_ B]. apply B.
              apply (D1 v1 eq_refl). apply directories_nil.
        -- exists (Raises TypeError), s1.
           replace (trace ++ Get url :: s1) with ((trace ++ [Get url]) ++ s1)
             by (rewrite <- !app_assoc; reflexivity).
           split; [reflexivity|].
           split; [intros d [= <-]; discriminate|].
           split; [discriminate|]. split; [discriminate|].
           split; [intros _ _; exact C1|discriminate].
      * exists (Raises e2), s1.
        replace (trace ++ Get url :: s1) with ((trace ++ [Get url]) ++ s1)
          by (rewrite <- !app_assoc; reflexivity).
        split; [reflexivity|].
        split; [intros d [= <-]; discriminate|].
        split; [discriminate|]. rewrite C1.
        split; [intros; lia|]. split; [reflexivity|discriminate].
    + exists (Raises e1), s1.
      replace (trace ++ Get url :: s1) with ((trace ++ [Get url]) ++ s1)
        by (rewrite <- !app_assoc; reflexivity).
      split; [reflexivity|].
      split; [intros d [= <-]; discriminate|].
      split; [discriminate|]. rewrite C1.
      split; [intros; lia|]. split; [reflexivity|discriminate].
  - exists (Returns []), []. split; [reflexivity|].
    split; [intros d [= <-]; now split|].
    split; [discriminate|]. cbn [count_gets].
    split; [intros; lia|]. split; [reflexivity|].
    intros v [= <-]. apply directories_nil.
  - exists (Raises e), []. split; [reflexivity|].
    split; [discriminate|].
    split; [intros e' [= <-]; now split|]. cbn [count_gets].
    split; [intros; lia|]. split; [reflexivity|discriminate].
Qed.

(** X26: the three fetchers return directories only: every URL of a
    dictionary they return went through [_ensure_webdir] and ends in a
    slash; and the environment gives at most one entry. *)
Theorem fetchers_return_directories
  (metadata : string -> option package_metadata) (head : string -> option bool)
  (get_page : string -> page) (get_json : string -> outcome (option pypi_reply))
  (package : string) (max_entries : pyval) (trace : list web_request) :
  (forall versions trace',
     docurls_from_environment metadata head package trace = (Returns versions, trace') ->
     directories versions /\ List.length versions <= 1)
  /\ (forall versions trace',
        docurls_from_rtd get_page package trace = (Returns versions, trace') ->
        directories versions)
  /\ (forall versions trace',
        docurls_from_pypi head get_json package max_entries trace
        = (Returns versions, trace') ->
        directories versions).
Proof.
  split; [|split].
  - intros versions trace'. apply docurls_from_environment_spec.
  - intros versions trace'. apply docurls_from_rtd_directories.
  - intros versions trace' E.
    destruct (docurls_from_pypi_spec head get_json package max_entries trace)
      as (r & sent & Er & _ & _ & _ & _ & Hd).
    rewrite Er in E. injection E as -> _. now apply Hd.
Qed.

(** X27: on every run of [docurls_from_pypi], returning or raising, and
    for every [max_entries], an integer or a string, the first request is
    the one for the JSON of the package at pypi.org, so that pypi.org is
    asked at least once. When that request gives nothing, the function
    returns no version and asks nothing else. With an integer
    [max_entries] that is not negative it asks for JSON at most
    [1 + max_entries] times. With a string it asks for JSON once, and
    returns only when the first request gave nothing. A run that returns
    after a first reply has read the releases, was given an integer, and
    has asked for JSON once more per release probed: the
    [max_entries] first ones, or all of them when [max_entries] is
    negative. *)
Theorem docurls_from_pypi_requests
  (head : string -> option bool) (get_json : string -> outcome (option pypi_reply))
  (package : string) (max_entries : pyval) (trace : list web_request) :
  exists r sent,
    docurls_from_pypi head get_json package max_entries trace
    = (r, trace ++ Get ("https://pypi.org/pypi/" ++ package ++ "/json")%string :: sent)
    /\ 1 <= count_gets (Get ("https://pypi.org/pypi/" ++ package ++ "/json")%string :: sent)
    /\ (get_json ("https://pypi.org/pypi/" ++ package ++ "/json")%string = Returns None ->
        r = Returns [] /\ sent = [])
    /\ (forall n, max_entries = PyInt n -> (0 <= n)%Z ->
        count_gets (Get ("https://pypi.org/pypi/" ++ package ++ "/json")%string :: sent)
        <= 1 + Z.to_nat n)
    /\ (forall s, max_entries = PyStr s ->
        count_gets (Get ("https://pypi.org/pypi/" ++ package ++ "/json")%string :: sent) = 1
        /\ forall v, r = Returns v ->
             get_json ("https://pypi.org/pypi/" ++ package ++ "/json")%string
             = Returns None)
    /\ (forall data v,
          get_json ("https://pypi.org/pypi/" ++ package ++ "/json")%string
          = Returns (Some data) ->
          r = Returns v ->
          exists labels n,
            releases data = Returns labels
            /\ max_entries = PyInt n
            /\ count_gets
                 (Get ("https://pypi.org/pypi/" ++ package ++ "/json")%string :: sent)
               = 1 + (if (0 <=? n)%Z
                      then Nat.min (Z.to_nat n)
                             (List.length (Dict.keys (releases_version_map labels)))
                      else List.length (Dict.keys (releases_version_map labels)))).
Proof.
  destruct (docurls_from_pypi_spec head get_json package max_entries trace)
    as (r & sent & Er & Hdata & Hraise & Hint & Hstr & _).
  exists r, sent. split; [exact Er|]. cbn [count_gets].
  split; [lia|]. split; [intros E; apply (Hdata _ E)|].
  split; [intros n -> Hn; pose proof (Hint n eq_refl Hn); lia|].
  split.
  - intros s ->. split; [now rewrite (Hstr s eq_refl)|].
    intros v ->.
    destruct (get_json ("https://pypi.org/pypi/" ++ package ++ "/json")%string)
      as [[data|]|e] eqn:E; [| reflexivity |].
    + destruct (Hdata _ eq_refl v eq_refl) as (labels & limited & _ & Hl & _).
      discriminate Hl.
    + destruct (Hraise e eq_refl) as [Hr _]. discriminate Hr.
  - intros data v E ->.
    destruct (Hdata _ E v eq_refl) as (labels & limited & Hrel & Hl & Hc).
    destruct max_entries as [n|s]; [|discriminate Hl].
    exists labels, n. split; [exact Hrel|]. split; [reflexivity|].
    rewrite Hc. injection Hl as <-. cbn [slice_upto].
    destruct (0 <=? n)%Z; [now rewrite length_firstn|reflexivity].
Qed.

(** Runs of the fetchers that raise, or that take [None] as a label. *)
Lemma docurls_from_pypi_string_max_entries :
  let reply :=
    mkReply (Returns (Some [("Documentation", "https://p.example/doc/index.html")]))
      (Returns "2.0") (Returns ["1.0"; "2.0"; "1.5"]) in
  docurls_from_pypi (fun _ => Some true) (fun _ => Returns (Some reply)) "p"
    (PyStr "1") []
  = (Raises TypeError,
     [Get "https://pypi.org/pypi/p/json"; Head "https://p.example/doc//objects.inv"]).
Proof. vm_compute. reflexivity. Qed.

Lemma docurls_from_pypi_head_raises :
  let reply :=
    mkReply (Returns (Some [("Documentation", "https://p.example/doc/index.html")]))
      (Returns "2.0") (Returns ["1.0"; "2.0"; "1.5"]) in
  docurls_from_pypi (fun _ => None) (fun _ => Returns (Some reply)) "p" (PyInt 0) []
  = (Raises RequestException,
     [Get "https://pypi.org/pypi/p/json"; Head "https://p.example/doc//objects.inv"]).
Proof. vm_compute. reflexivity. Qed.

Lemma docurls_from_pypi_null_project_urls :
  let reply := mkReply (Returns None) (Returns "2.0") (Returns ["2.0"]) in
  docurls_from_pypi (fun _ => Some true) (fun _ => Returns (Some reply)) "p" (PyInt 0) []
  = (Raises AttributeError, [Get "https://pypi.org/pypi/p/json"]).
Proof. vm_compute. reflexivity. Qed.

Lemma docurls_from_pypi_all_releases :
  let reply :=
    mkReply (Returns (Some [("Documentation", "https://p.example/doc/index.html")]))
      (Returns "2.0") (Returns ["1.0"; "2.0"; "1.5"]) in
  docurls_from_pypi (fun _ => Some true) (fun _ => Returns (Some reply)) "p"
    (PyInt (-1)) []
  = (Returns [(Some "2.0", "https://p.example/doc/")],
     [Get "https://pypi.org/pypi/p/json"; Head "https://p.example/doc//objects.inv";
      Get "https://pypi.org/pypi/p/2.0/json"; Head "https://p.example/doc//objects.inv";
      Get "https://pypi.org/pypi/p/1.5/json"; Head "https://p.example/doc//objects.inv";
      Get "https://pypi.org/pypi/p/1.0/json"; Head "https://p.example/doc//objects.inv"]).
Proof. vm_compute. reflexivity. Qed.

Lemma docurls_from_environment_without_version :
  let md :=
    mkMetadata (Some ["Homepage, https://p.example";
                      "Documentation, https://p.example/doc"]) HeaderNone in
  docurls_from_environment (fun _ => Some md) (fun _ => Some true) "p" []
  = (Returns [(None, "https://p.example/doc/")],
     [Metadata "p"; Head "https://p.example/doc//objects.inv"])
  /\ docurls_from_environment (fun _ => Some md) (fun _ => None) "p" []
     = (Raises RequestException,
        [Metadata "p"; Head "https://p.example/doc//objects.inv"]).
Proof. split; vm_compute; reflexivity. Qed.

Lemma docurls_from_rtd_links :
  docurls_from_rtd
    (fun _ => Links [mkLink (Some "latest") (Some "https://p.readthedocs.io/en/latest");
                     mkLink None (Some "https://p.readthedocs.io/en/stable/");
                     mkLink (Some "x") (Some "/projects/p/")]) "p" []
  = (Returns [(Some "latest", "https://p.readthedocs.io/en/latest/");
              (None, "https://p.readthedocs.io/en/stable/")],
     [Get "https://readthedocs.org/projects/p/versions/"])
  /\ docurls_from_rtd
       (fun _ => Links [mkLink (Some "latest") (Some "https://p.readthedocs.io/en/latest");
                        mkLink (Some "x") None]) "p" []
     = (Raises (Exn (KeyError "href")),
        [Get "https://readthedocs.org/projects/p/versions/"])
  /\ docurls_from_rtd (fun _ => Unparsable ParserError) "p" []
     = (Raises ParserError, [Get "https://readthedocs.org/projects/p/versions/"]).
Proof. repeat split; vm_compute; reflexivity. Qed.

(* ===================================================================== *)
(** ** The loop of [check-packages]                                       *)
(* ===================================================================== *)

Lemma count_found_snoc out r :
  count_found (out ++ [r]) = count_found out + (if is_found r then 1 else 0).
Proof.
  unfold count_found. rewrite filter_app, length_app. cbn [filter].
  now destruct (is_found r).
Qed.

(** A look-up in a catalog by the loop. *)
Lemma catalog_stage (d : Catalog) (mk : string -> versions_t -> report)
  (p : string) (st : check_state) :
  (forall v, is_found (mk p v) = true) ->
  exists r st',
    (if shas d p then
       rec <~ subscript (getitem d p) ;;
       versions <~ subscript (getitem rec "versions") ;;
       u <~ print (mk p versions) ;;
       ret true
     else ret false) st = (r, st')
    /\ snd st' = snd st
    /\ match r with
       | Returns true =>
           shas d p = true /\ count_found (fst st') = count_found (fst st) + 1
       | Returns false => shas d p = false /\ st' = st
       | Raises _ => shas d p = true /\ ~ complete d /\ st' = st
       end.
Proof.
  intros Hmk. destruct (shas d p) eqn:Ed.
  - unfold and_then, subscript, print, ret, getitem.
    destruct (sget d p) as [rec|] eqn:Er.
    + destruct (sget rec "versions") as [versions|] eqn:Ev.
      * eexists _, _. split; [reflexivity|]. cbn [fst snd]. split; [reflexivity|].
        split; [reflexivity|]. rewrite count_found_snoc, Hmk. reflexivity.
      * eexists _, _. split; [reflexivity|]. split; [reflexivity|].
        split; [reflexivity|]. split; [|reflexivity].
        intros Hc. destruct (complete_record_parts d p) as (rec' & Hr' & Hv' & _).
        { apply Hc. now apply shas_keys. }
        congruence.
    + rewrite shas_sget, Er in Ed. discriminate.
  - eexists _, _. split; [reflexivity|]. split; [reflexivity|]. now split.
Qed.

(** The call of a fetcher by the loop. *)
Lemma fetcher_stage (c : run (list web_request) found_t) (mk : found_t -> report)
  (enabled : bool) (st : check_state) :
  (forall v, is_found (mk v) = true) ->
  exists r st',
    (if enabled then
       versions <~ fetch c ;;
       if nonempty versions then
         u <~ print (mk versions) ;;
         ret true
       else ret false
     else ret false) st = (r, st')
    /\ match r with
       | Returns true => count_found (fst st') = count_found (fst st) + 1
       | _ => fst st' = fst st
       end.
Proof.
  intros Hmk. destruct enabled.
  - unfold and_then, fetch, print, ret.
    destruct (c (snd st)) as [[versions|e] trace].
    + destruct (nonempty versions).
      * eexists _, _. split; [reflexivity|]. cbn [fst].
        rewrite count_found_snoc, Hmk. reflexivity.
      * eexists _, _. split; reflexivity.
    + eexists _, _. split; reflexivity.
  - eexists _, _. split; reflexivity.
Qed.

Section CheckFacts.
Variable metadata : string -> option package_metadata.
Variable head : string -> option bool.
Variable get_page : string -> page.
Variable get_json : string -> outcome (option pypi_reply).
Variable args : check_args.
Variable builtin_catalog : Catalog.
Variable user_catalog : Catalog.
Hypothesis stop_at_first : keep_going args = false.

Lemma check_package_first_find p st :
  exists r st',
    check_package metadata head get_page get_json args builtin_catalog
      user_catalog p st = (r, st')
    /\ count_found (fst st) <= count_found (fst st') <= count_found (fst st) + 1
    /\ (forall e, r = Raises e -> count_found (fst st') = count_found (fst st))
    /\ (complete user_catalog -> complete builtin_catalog ->
        shas user_catalog p = true \/ shas builtin_catalog p = true ->
        r = Returns tt
        /\ snd st' = snd st
        /\ count_found (fst st') = count_found (fst st) + 1).
Proof.
  unfold check_package. rewrite stop_at_first. cbn [negb].
  unfold and_then at 1.
  destruct (catalog_stage user_catalog FoundInUserCatalog p st (fun _ => eq_refl))
    as (r1 & st1 & E1 & T1 & H1).
  rewrite E1. destruct r1 as [[|]|e1]; cbn [andb].
  - destruct H1 as [_ H1]. eexists _, _. split; [reflexivity|].
    split; [lia|]. split; [discriminate|]. intros _ _ _. now split.
  - destruct H1 as [Hu ->]. clear E1 T1.
    unfold and_then at 1.
    destruct (catalog_stage builtin_catalog FoundInBuiltinCatalog p st
                (fun _ => eq_refl)) as (r2 & st2 & E2 & T2 & H2).
    rewrite E2. destruct r2 as [[|]|e2]; cbn [andb].
    + destruct H2 as [_ H2]. eexists _, _. split; [reflexivity|].
      split; [lia|]. split; [discriminate|]. intros _ _ _. now split.
    + destruct H2 as [Hb ->]. clear E2 T2.
      assert (Hno : forall P : Prop,
                 complete user_catalog -> complete builtin_catalog ->
                 shas user_catalog p = true \/ shas builtin_catalog p = true -> P).
      { intros P _ _ [H|H]; congruence. }
      unfold and_then at 1.
      destruct (fetcher_stage (docurls_from_environment metadata head p)
                  (FoundInEnvironment p) (negb (no_environment args)) st
                  (fun _ => eq_refl)) as (r3 & st3 & E3 & H3).
      rewrite E3. destruct r3 as [[|]|e3]; cbn [andb].
      * eexists _, _. split; [reflexivity|]. split; [lia|].
        split; [discriminate|apply Hno].
      * unfold and_then at 1.
        destruct (fetcher_stage (docurls_from_rtd get_page p)
                    (FoundAtReadthedocs p) (negb (no_rtd args)) st3
                    (fun _ => eq_refl)) as (r4 & st4 & E4 & H4).
        rewrite E4. destruct r4 as [[|]|e4]; cbn [andb].
        -- eexists _, _. split; [reflexivity|]. rewrite H4, H3. split; [lia|].
           split; [discriminate|apply Hno].
        -- destruct (negb (no_pypi args)).
           ++ unfold and_then, print, fetch, ret. cbn [fst snd].
              destruct (docurls_from_pypi head get_json p (pypi_max_entries args)
                          (snd st4)) as [[versions|e5] trace5].
              ** destruct (nonempty versions);
                   (eexists _, _; split; [reflexivity|]); cbn [fst];
                   rewrite ?count_found_snoc, H4, H3; cbn [is_found];
                   (split; [lia|]); (split; [discriminate|apply Hno]).
              ** eexists _, _. split; [reflexivity|]. cbn [fst].
                 rewrite ?count_found_snoc, H4, H3. cbn [is_found].
                 split; [lia|]. split; [intros; lia|apply Hno].
           ++ eexists _, _. split; [reflexivity|]. rewrite H4, H3.
              split; [lia|]. split; [discriminate|apply Hno].
        -- eexists _, _. split; [reflexivity|]. rewrite H4, H3. split; [lia|].
           split; [reflexivity|apply Hno].
      * eexists _, _. split; [reflexivity|]. rewrite H3. split; [lia|].
        split; [reflexivity|apply Hno].
    + destruct H2 as (Hb & Hc & ->). eexists _, _. split; [reflexivity|].
      split; [lia|]. split; [reflexivity|]. intros _ Hcb. now destruct Hc.
  - destruct H1 as (Hu & Hc & ->). eexists _, _. split; [reflexivity|].
    split; [lia|]. split; [reflexivity|]. intros Hcu. now destruct Hc.
Qed.

Lemma check_packages_first_find packages st :
  exists r st',
    check_packages metadata head get_page get_json args builtin_catalog
      user_catalog packages st = (r, st')
    /\ count_found (fst st') <= count_found (fst st) + List.length packages
    /\ (forall e, r = Raises e ->
        count_found (fst st') < count_found (fst st) + List.length packages)
    /\ (complete user_catalog -> complete builtin_catalog ->
        (forall p, In p packages ->
           shas user_catalog p = true \/ shas builtin_catalog p = true) ->
        r = Returns tt
        /\ snd st' = snd st
        /\ count_found (fst st') = count_found (fst st) + List.length packages).
Proof.
  revert st. induction packages as [|p rest IH]; intros st.
  - exists (Returns tt), st. split; [reflexivity|]. cbn [List.length].
    split; [lia|]. split; [discriminate|]. intros _ _ _.
    split; [reflexivity|]. split; [reflexivity|lia].
  - cbn [check_packages]. unfold and_then at 1.
    destruct (check_package_first_find p st) as (r1 & st1 & E1 & C1 & R1 & K1).
    rewrite E1. destruct r1 as [[]|e1].
    + destruct (IH st1) as (r2 & st2 & E2 & C2 & R2 & K2).
      exists r2, st2. split; [exact E2|]. cbn [List.length]. split; [lia|].
      split; [intros e He; specialize (R2 e He); lia|].
      intros Hu Hb Hall.
      destruct (K1 Hu Hb (Hall p (or_introl eq_refl))) as (_ & T1 & N1).
      destruct (K2 Hu Hb) as (-> & T2 & N2); [intros q Hq; apply Hall; now right|].
      split; [reflexivity|]. split; [congruence|lia].
    + exists (Raises e1), st1. split; [reflexivity|]. cbn [List.length].
      specialize (R1 e1 eq_refl). split; [lia|]. split; [intros; lia|].
      intros Hu Hb Hall.
      destruct (K1 Hu Hb (Hall p (or_introl eq_refl))) as (Hr & _). discriminate Hr.
Qed.

End CheckFacts.



(** A run of the loop with [--pypi-max-entries] given on the command
    line: the look-up at pypi.org of the first package that is in no
    catalog raises, and the packages after it are not looked up. *)
Lemma check_packages_string_max_entries :
  let reply :=
    mkReply (Returns (Some [("Documentation", "https://p.example/doc/index.html")]))
      (Returns "2.0") (Returns ["1.0"; "2.0"; "1.5"]) in
  check_packages (fun _ => None) (fun _ => Some true) (fun _ => NoPage)
    (fun _ => Returns (Some reply))
    (mkCheckArgs false false false false (PyStr "2")) numpy_builtin_catalog
    sklearn_catalog ["sklearn"; "p"; "numpy"] ([], [])
  = (Raises TypeError,
     ([FoundInUserCatalog "sklearn" [("stable", "https://scikit-learn.org/stable/")];
       LookingUpPypi "p"],
      [Metadata "p"; Get "https://readthedocs.org/projects/p/versions/";
       Get "https://pypi.org/pypi/p/json"; Head "https://p.example/doc//objects.inv"]))
  /\ check_packages (fun _ => None) (fun _ => Some true) (fun _ => NoPage)
       (fun _ => Returns (Some reply))
       (mkCheckArgs false false false false (PyInt 0)) numpy_builtin_catalog
       sklearn_catalog ["sklearn"; "p"; "numpy"] ([], [])
     = (Returns tt,
        ([FoundInUserCatalog "sklearn" [("stable", "https://scikit-learn.org/stable/")];
          LookingUpPypi "p";
          FoundAtPypi "p" [(Some "2.0", "https://p.example/doc/")];
          FoundInBuiltinCatalog "numpy"
            [("stable", "https://numpy.org/doc/stable/");
             ("devdocs", "https://numpy.org/devdocs/")]],
         [Metadata "p"; Get "https://readthedocs.org/projects/p/versions/";
          Get "https://pypi.org/pypi/p/json"; Head "https://p.example/doc//objects.inv"])).
Proof. split; vm_compute; reflexivity. Qed.

(* ===================================================================== *)
(** ** [_reorder_versions] is idempotent when releases are distinct       *)
(* ===================================================================== *)

(** The dictionary of releases, from the list of labels. *)
Lemma reorder_version_map_snoc (labels : list string) (l : string)
  (acc : Dict.t Version string) :
  fold_left
    (fun vm k =>
       if negb (is_protected k) && PEP440_RE_match k then
         match parse k with
         | Some ver => Dict.set veq vm ver k
         | None => vm
         end
       else vm) (labels ++ [l]) acc
  = let vm := fold_left
                (fun vm k =>
                   if negb (is_protected k) && PEP440_RE_match k then
                     match parse k with
                     | Some ver => Dict.set veq vm ver k
                     | None => vm
                     end
                   else vm) labels acc in
    if is_release l then
      match parse l with
      | Some ver => Dict.set veq vm ver l
      | None => vm
      end
    else vm.
Proof. now rewrite fold_left_app. Qed.

Lemma vm_of_sound labels :
  (forall ver l, Dict.get veq (version_map_of labels) ver = Some l ->
     In l labels /\ is_release l = true
     /\ exists k, parse l = Some k /\ veq k ver = true)
  /\ (forall k, In k (Dict.keys (version_map_of labels)) ->
        exists l, In l labels /\ is_release l = true /\ parse l = Some k).
Proof.
  induction labels as [|x labels IH] using rev_ind.
  - split; [discriminate|intros k []].
  - destruct IH as [IH1 IH2]. unfold version_map_of. rewrite reorder_version_map_snoc.
    cbv zeta. fold (version_map_of labels).
    assert (Hold1 : forall ver l, Dict.get veq (version_map_of labels) ver = Some l ->
               In l (labels ++ [x]) /\ is_release l = true
               /\ exists k, parse l = Some k /\ veq k ver = true).
    { intros ver l H. destruct (IH1 ver l H) as (A & B & C).
      split; [apply in_or_app; now left|now split]. }
    assert (Hold2 : forall k, In k (Dict.keys (version_map_of labels)) ->
               exists l, In l (labels ++ [x]) /\ is_release l = true
                         /\ parse l = Some k).
    { intros k H. destruct (IH2 k H) as (l & A & B & C).
      exists l. split; [apply in_or_app; now left|now split]. }
    destruct (is_release x) eqn:Ex; [|now split].
    destruct (parse x) as [kx|] eqn:Ep; [|now split].
    split.
    + intros ver l. rewrite get_veq. destruct (veq kx ver) eqn:Ev; [|apply Hold1].
      intros [= <-]. split; [apply in_or_app; right; now left|].
      split; [exact Ex|now exists kx].
    + intros k Hk. apply keys_set_inv in Hk. destruct Hk as [Hk| ->]; [now apply Hold2|].
      exists x. split; [apply in_or_app; right; now left|now split].
Qed.

Lemma vm_of_complete labels :
  distinct_releases labels ->
  forall l k, In l labels -> is_release l = true -> parse l = Some k ->
    Dict.get veq (version_map_of labels) k = Some l /\ In k (Dict.keys (version_map_of labels)).
Proof.
  induction labels as [|x labels IH] using rev_ind; intros Hd l k Hin Hr Hp;
    [destruct Hin|].
  assert (Hd' : distinct_releases labels).
  { intros l1 l2 k1 k2 H1 H2. apply Hd; apply in_or_app; now left. }
  specialize (IH Hd').
  unfold version_map_of. rewrite reorder_version_map_snoc. cbv zeta. fold (version_map_of labels).
  apply in_app_or in Hin. destruct Hin as [Hin|[<-|[]]].
  - destruct (IH l k Hin Hr Hp) as [Hg Hk].
    destruct (is_release x) eqn:Ex; [|now split].
    destruct (parse x) as [kx|] eqn:Ep; [|now split].
    split; [|now apply keys_set_keep].
    rewrite get_veq. destruct (veq kx k) eqn:Ev; [|exact Hg].
    f_equal. apply (Hd x l kx k); auto; apply in_or_app; [right; now left|now left].
  - rewrite Hr, Hp. split; [rewrite get_veq; now rewrite veq_refl|].
    destruct (keys_set_cases _ _ veq (version_map_of labels) k x)
      as [(k0 & Hk0 & Hv & Hkeys)|(_ & Hkeys)]; rewrite Hkeys.
    + destruct (proj2 (vm_of_sound labels) k0 Hk0) as (l0 & Hl0 & Hr0 & Hp0).
      assert (l0 = x).
      { apply (Hd l0 x k0 k); auto; apply in_or_app; [now left|right; now left]. }
      subst l0. rewrite Hp in Hp0. injection Hp0 as <-. exact Hk0.
    + apply in_or_app. right. now left.
Qed.

Lemma veq_get (d : Dict.t Version string) a b :
  veq a b = true -> Dict.get veq d a = Dict.get veq d b.
Proof.
  intros H. induction d as [|[k v] d IH]; cbn [Dict.get]; [reflexivity|].
  rewrite IH.
  replace (veq k b) with (veq k a); [reflexivity|].
  rewrite (veq_sym k a), (veq_sym k b).
  apply (keq_congr _ veq veq_sym veq_trans). exact H.
Qed.

Lemma vm_of_keys_distinct labels :
  ForallOrdPairs (fun a b => veq a b = false) (Dict.keys (version_map_of labels)).
Proof.
  unfold version_map_of.
  assert (H : distinct_keys veq (Dict.keys ([] : Dict.t Version string)))
    by constructor.
  revert H. generalize ([] : Dict.t Version string).
  induction labels as [|l labels IH]; cbn [fold_left]; intros acc H; [exact H|].
  apply IH. destruct (negb (is_protected l) && PEP440_RE_match l); [|exact H].
  destruct (parse l); [|exact H].
  apply (distinct_keys_set _ _ veq). exact H.
Qed.

(** Two lists of labels with the same members give the same look-ups
    and the same versions. *)
Lemma vm_of_same_members labels1 labels2 :
  (forall l, In l labels1 <-> In l labels2) ->
  distinct_releases labels1 ->
  (forall ver, Dict.get veq (version_map_of labels1) ver = Dict.get veq (version_map_of labels2) ver)
  /\ (forall k, In k (Dict.keys (version_map_of labels1)) <-> In k (Dict.keys (version_map_of labels2))).
Proof.
  intros Hsame Hd1.
  assert (Hd2 : distinct_releases labels2).
  { intros l1 l2 k1 k2 H1 H2. apply Hd1; now apply Hsame. }
  assert (Hdir : forall la lb, (forall l, In l la <-> In l lb) ->
             distinct_releases lb ->
             forall ver l, Dict.get veq (version_map_of la) ver = Some l ->
                           Dict.get veq (version_map_of lb) ver = Some l).
  { intros la lb Hs Hdb ver l H.
    destruct (proj1 (vm_of_sound la) ver l H) as (Hin & Hr & k & Hp & Hv).
    rewrite <- (veq_get _ k ver Hv).
    apply (vm_of_complete lb Hdb l k); auto. now apply Hs. }
  split.
  - intros ver.
    destruct (Dict.get veq (version_map_of labels1) ver) as [l|] eqn:E1.
    + symmetry. now apply (Hdir labels1 labels2).
    + destruct (Dict.get veq (version_map_of labels2) ver) as [l|] eqn:E2; [|reflexivity].
      apply (Hdir labels2 labels1) in E2; [congruence| |exact Hd1].
      intros l0. symmetry. apply Hsame.
  - intros k. split; intros Hk.
    + destruct (proj2 (vm_of_sound labels1) k Hk) as (l & Hin & Hr & Hp).
      apply (vm_of_complete labels2 Hd2 l k); auto. now apply Hsame.
    + destruct (proj2 (vm_of_sound labels2) k Hk) as (l & Hin & Hr & Hp).
      apply (vm_of_complete labels1 Hd1 l k); auto. now apply Hsame.
Qed.


(** Two strictly increasing lists with the same members are equal. *)
Lemma strictly_sorted_unique (l1 l2 : list Version) :
  StronglySorted (fun a b => vlt a b = true) l1 ->
  StronglySorted (fun a b => vlt a b = true) l2 ->
  (forall x, In x l1 <-> In x l2) -> l1 = l2.
Proof.
  intros H1. revert l2. induction H1 as [|a r1 Hs1 IH Ha]; intros l2 H2 Hsame.
  - destruct l2 as [|b r2]; [reflexivity|].
    destruct (proj2 (Hsame b) (or_introl eq_refl)).
  - destruct H2 as [|b r2 Hs2 Hb].
    + destruct (proj1 (Hsame a) (or_introl eq_refl)).
    + rewrite Forall_forall in Ha, Hb.
      assert (Hab : a = b).
      { destruct (proj1 (Hsame a) (or_introl eq_refl)) as [Hba|Hin]; [now symmetry|].
        destruct (proj2 (Hsame b) (or_introl eq_refl)) as [Hab|Hin']; [exact Hab|].
        pose proof (Hb a Hin) as Hlt1. pose proof (Ha b Hin') as Hlt2.
        apply vlt_asym in Hlt1. congruence. }
      subst b. f_equal. apply IH; [exact Hs2|].
      intros x. split; intros Hx.
      * destruct (proj1 (Hsame x) (or_intror Hx)) as [<-|Hx']; [|exact Hx'].
        pose proof (Ha a Hx) as Hlt. rewrite vlt_irrefl in Hlt. discriminate.
      * destruct (proj2 (Hsame x) (or_intror Hx)) as [<-|Hx']; [|exact Hx'].
        pose proof (Hb a Hx) as Hlt. rewrite vlt_irrefl in Hlt. discriminate.
Qed.

Lemma pairwise_distinct_rev (l : list Version) :
  ForallOrdPairs (fun a b => veq a b = false) l ->
  ForallOrdPairs (fun a b => veq a b = false) (rev l).
Proof.
  induction 1 as [|a l Ha Hl IH]; cbn [rev]; [constructor|].
  clear Hl. revert IH. generalize (rev_involutive l).
  assert (Hin : forall x, In x (rev l) -> veq x a = false).
  { intros x Hx. apply in_rev in Hx. rewrite Forall_forall in Ha.
    rewrite veq_sym. now apply Ha. }
  revert Hin. generalize (rev l). intros r Hin _ Hr.
  induction Hr as [|b r Hb Hr IH]; cbn [app].
  - constructor; constructor.
  - constructor.
    + apply Forall_app. split; [exact Hb|].
      constructor; [apply Hin; now left|constructor].
    + apply IH. intros x Hx. apply Hin. now right.
Qed.

(** Sorting does not depend on the order of versions no two of which
    are equal. *)
Lemma sorted_reverse_same_members (l1 l2 : list Version) :
  ForallOrdPairs (fun a b => veq a b = false) l1 ->
  ForallOrdPairs (fun a b => veq a b = false) l2 ->
  (forall x, In x l1 <-> In x l2) ->
  sorted_reverse vlt l1 = sorted_reverse vlt l2.
Proof.
  intros H1 H2 Hsame. unfold sorted_reverse. f_equal.
  apply strictly_sorted_unique.
  - now apply sorted_strict, pairwise_distinct_rev.
  - now apply sorted_strict, pairwise_distinct_rev.
  - intros x. rewrite !sorted_In, <- !in_rev. apply Hsame.
Qed.

Lemma fold_left_ext_in A B (f g : A -> B -> A) (l : list B) (a : A) :
  (forall a b, In b l -> f a b = g a b) -> fold_left f l a = fold_left g l a.
Proof.
  revert a. induction l as [|b l IH]; intros a H; cbn [fold_left]; [reflexivity|].
  rewrite (H a b (or_introl eq_refl)). apply IH.
  intros a' b' Hb'. apply H. now right.
Qed.

(** The head of the result depends on the mapping only through its
    look-ups and the members of its keys. *)
Lemma reorder_head_same (v w : versions_t) :
  (forall k, sget w k = sget v k) ->
  distinct_releases (Dict.keys v) ->
  reorder_head w = reorder_head v.
Proof.
  intros Hget Hd.
  assert (Hkeys : forall l, In l (Dict.keys v) <-> In l (Dict.keys w)).
  { intros l. rewrite <- !shas_keys, !shas_sget. now rewrite Hget. }
  destruct (vm_of_same_members (Dict.keys v) (Dict.keys w) Hkeys Hd) as [Hg Hk].
  unfold reorder_head.
  change (reorder_version_map w) with (version_map_of (Dict.keys w)).
  change (reorder_version_map v) with (version_map_of (Dict.keys v)).
  rewrite (sorted_reverse_same_members (Dict.keys (version_map_of (Dict.keys w)))
             (Dict.keys (version_map_of (Dict.keys v))));
    [|apply vm_of_keys_distinct|apply vm_of_keys_distinct
     |intros x; symmetry; apply Hk].
  rewrite (fold_left_ext_in _ _
             (fun rv key => match sget w key with
                            | Some u => sset rv key u
                            | None => rv
                            end)
             (fun rv key => match sget v key with
                            | Some u => sset rv key u
                            | None => rv
                            end))
    by (intros a b _; now rewrite Hget).
  apply fold_left_ext_in. intros a b _. rewrite <- Hg.
  destruct (Dict.get veq (version_map_of (Dict.keys v)) b); [|reflexivity].
  now rewrite Hget.
Qed.

Lemma reorder_versions_unfold (v : versions_t) :
  _reorder_versions v
  = supdate (reorder_head v)
      (filter (fun kv => negb (shas (reorder_head v) (fst kv))) v).
Proof. reflexivity. Qed.

Lemma filter_idem A (p : A -> bool) (l : list A) :
  filter p (filter p l) = filter p l.
Proof.
  induction l as [|a l IH]; cbn [filter]; [reflexivity|].
  destruct (p a) eqn:E; cbn [filter]; [rewrite E; now f_equal|exact IH].
Qed.

Lemma filter_none A (p : A -> bool) (l : list A) :
  (forall a, In a l -> p a = false) -> filter p l = [].
Proof.
  induction l as [|a l IH]; intros H; cbn [filter]; [reflexivity|].
  rewrite (H a (or_introl eq_refl)). apply IH. intros b Hb. apply H. now right.
Qed.

Lemma filter_keys_NoDup V (p : string * V -> bool) (d : sdict V) :
  NoDup (Dict.keys d) -> NoDup (map fst (filter p d)).
Proof.
  induction d as [|[k u] d IH]; cbn [filter]; intros Hnd; [constructor|].
  cbn [Dict.keys map fst] in Hnd. inversion Hnd as [|? ? Hnot Hnd']; subst.
  destruct (p (k, u)); [|now apply IH].
  cbn [map fst]. constructor; [|now apply IH].
  intros Hin. apply Hnot. apply in_map_iff in Hin.
  destruct Hin as ([k' u'] & Hk & Hin). cbn in Hk. subst k'.
  apply filter_In in Hin. destruct Hin as [Hin _].
  apply (in_map fst) in Hin. exact Hin.
Qed.

(** The result as a concatenation: the head, then the entries of the
    mapping that the head does not hold, in their order. *)
Lemma reorder_versions_split (v : versions_t) :
  NoDup (Dict.keys v) ->
  _reorder_versions v
  = reorder_head v ++ filter (fun kv => negb (shas (reorder_head v) (fst kv))) v.
Proof.
  intros Hnd. rewrite reorder_versions_unfold.
  unfold supdate, Dict.update. apply fold_sset_fresh.
  unfold Dict.keys. rewrite map_app. apply NoDup_app.
  - apply (reorder_versions_head_agrees v).
  - now apply filter_keys_NoDup.
  - intros k H1 H2. apply in_map_iff in H2.
    destruct H2 as ([k' u'] & Hk & Hin). cbn in Hk. subst k'.
    apply filter_In in Hin. destruct Hin as [_ Hin]. cbn [fst] in Hin.
    apply negb_true_iff in Hin.
    assert (Hs : shas (reorder_head v) k = true) by now apply shas_keys.
    congruence.
Qed.

(** X29: for a mapping whose labels are pairwise different and whose
    releases are pairwise different as versions, re-ordering twice is
    re-ordering once. *)
Theorem reorder_versions_idempotent (vdict : versions_t) :
  NoDup (Dict.keys vdict) -> distinct_releases (Dict.keys vdict) ->
  _reorder_versions (_reorder_versions vdict) = _reorder_versions vdict.
Proof.
  intros Hnd Hd.
  destruct (reorder_versions_agrees vdict Hnd) as [Hnd' Hget].
  rewrite (reorder_versions_unfold (_reorder_versions vdict)).
  rewrite (reorder_head_same vdict (_reorder_versions vdict) Hget Hd).
  rewrite (reorder_versions_split vdict Hnd) at 1.
  rewrite filter_app, filter_idem.
  rewrite (filter_none _ _ (reorder_head vdict)).
  - cbn [app]. symmetry. apply reorder_versions_unfold.
  - intros [k u] Hin. cbn [fst]. apply negb_false_iff. apply shas_keys.
    apply (in_map fst) in Hin. exact Hin.
Qed.

Lemma reorder_versions_idempotent_witness :
  _reorder_versions (_reorder_versions rtd_versions) = _reorder_versions rtd_versions.
Proof.
  apply (reorder_versions_idempotent rtd_versions).
  - nodup_keys.
  - intros l1 l2 k1 k2 [<-|[<-|[<-|[]]]] [<-|[<-|[<-|[]]]]; try reflexivity;
      discriminate.
Defined.

(* ===================================================================== *)
(** ** [_reorder_versions]: the shape of the result                       *)
(* ===================================================================== *)

Lemma is_release_parse l : is_release l = true -> exists k, parse l = Some k.
Proof.
  unfold is_release, PEP440_RE_match, parse. intros H.
  apply andb_prop in H. destruct H as [_ H].
  destruct (regex_match l) as [k|]; [now exists k|discriminate].
Qed.

Lemma reorder_aliases_keys (vdict : versions_t) :
  Dict.keys (fold_left (fun rv key => match sget vdict key with
                                      | Some u => sset rv key u
                                      | None => rv
                                      end) protected [])
  = filter (shas vdict) protected.
Proof.
  unfold protected, shas, Dict.contains. cbn [fold_left filter].
  fold (sget vdict "latest"). fold (sget vdict "main").
  fold (sget vdict "master"). fold (sget vdict "stable").
  destruct (sget vdict "latest"), (sget vdict "main"),
    (sget vdict "master"), (sget vdict "stable"); reflexivity.
Qed.

(** The second loop appends one label per version visited. *)
Lemma reorder_releases_keys (vdict : versions_t) (todo done : list Version)
  (rv : versions_t) (labs : list string) :
  distinct_releases (Dict.keys vdict) ->
  NoDup (done ++ todo) ->
  (forall v, In v todo -> In v (Dict.keys (reorder_version_map vdict))) ->
  Dict.keys rv = filter (shas vdict) protected ++ labs ->
  Forall2 (fun l v => parse l = Some v) labs done ->
  exists labs',
    Dict.keys
      (fold_left
         (fun rv version =>
            match Dict.get veq (reorder_version_map vdict) version with
            | Some label =>
                match sget vdict label with
                | Some u => sset rv label u
                | None => rv
                end
            | None => rv
            end) todo rv)
    = filter (shas vdict) protected ++ labs ++ labs'
    /\ Forall2 (fun l v => parse l = Some v /\ is_release l = true
                           /\ In l (Dict.keys vdict)) labs' todo.
Proof.
  intros Hd. revert done rv labs.
  induction todo as [|v todo IH]; intros done rv labs Hnd Hin Hkeys Hdone;
    cbn [fold_left].
  - exists []. rewrite app_nil_r. split; [exact Hkeys|constructor].
  - change (reorder_version_map vdict) with (version_map_of (Dict.keys vdict)) in *.
    destruct (proj2 (vm_of_sound (Dict.keys vdict)) v (Hin v (or_introl eq_refl)))
      as (l & Hl & Hr & Hp).
    destruct (vm_of_complete (Dict.keys vdict) Hd l v Hl Hr Hp) as [Hg _].
    rewrite Hg. destruct (sget_of_key _ vdict l Hl) as [u Hu]. rewrite Hu.
    assert (Hfresh : ~ In l (Dict.keys rv)).
    { rewrite Hkeys. intros Hx. apply in_app_or in Hx. destruct Hx as [Hx|Hx].
      - apply filter_In in Hx. destruct Hx as [Hx _].
        apply is_protected_In in Hx. unfold is_release in Hr.
        rewrite Hx in Hr. discriminate.
      - assert (Hv : In v done).
        { clear -Hdone Hx Hp. induction Hdone as [|l0 v0 labs done H0 Hd IH];
            [destruct Hx|].
          destruct Hx as [->|Hx]; [left; congruence|right; now apply IH]. }
        apply NoDup_remove_2 in Hnd. apply Hnd. apply in_or_app. now left. }
    rewrite (sset_fresh rv l u Hfresh).
    destruct (IH (done ++ [v]) (rv ++ [(l, u)]) (labs ++ [l])) as (labs' & Hk' & Hf').
    + now rewrite <- app_assoc.
    + intros v' Hv'. apply Hin. now right.
    + unfold Dict.keys. rewrite map_app. fold (Dict.keys rv). rewrite Hkeys.
      now rewrite <- app_assoc.
    + apply Forall2_app; [exact Hdone|]. constructor; [exact Hp|constructor].
    + exists (l :: labs'). split.
      * rewrite Hk'. now rewrite <- !app_assoc.
      * constructor; [now repeat split|exact Hf'].
Qed.

Lemma sorted_labels (labs : list string) (vs : list Version) :
  Forall2 (fun l v => parse l = Some v) labs vs ->
  StronglySorted (fun a b => vlt b a = true) vs ->
  StronglySorted (fun a b => label_lt b a = true) labs.
Proof.
  intros HF. induction HF as [|l v labs vs Hp HF IH]; intros Hs; [constructor|].
  inversion Hs as [|? ? Hs' Hall]; subst. constructor; [now apply IH|].
  clear -HF Hall Hp. induction HF as [|l' v' labs vs Hp' HF IH]; [constructor|].
  inversion Hall as [|? ? Hv' Hall']; subst.
  constructor; [|now apply IH].
  unfold label_lt. now rewrite Hp, Hp'.
Qed.

Lemma sorted_reverse_decreasing (l : list Version) :
  ForallOrdPairs (fun a b => veq a b = false) l ->
  StronglySorted (fun a b => vlt b a = true) (sorted_reverse vlt l).
Proof.
  intros H. unfold sorted_reverse.
  apply (StronglySorted_rev _ (fun a b => vlt a b = true)).
  now apply sorted_strict, pairwise_distinct_rev.
Qed.

Lemma decreasing_NoDup (l : list Version) :
  StronglySorted (fun a b => vlt b a = true) l -> NoDup l.
Proof.
  induction 1 as [|a l Hs IH Ha]; constructor; [|exact IH].
  intros Hin. rewrite Forall_forall in Ha. specialize (Ha a Hin).
  rewrite vlt_irrefl in Ha. discriminate.
Qed.

(** X30: the shape of the result for a mapping whose labels are pairwise
    different and whose releases are pairwise different as versions:
    first the aliases latest, main, master, stable that the mapping has,
    then all its releases, in strictly decreasing order of version, then
    the other labels, which are neither aliases nor releases. *)
Theorem reorder_versions_shape (vdict : versions_t) :
  NoDup (Dict.keys vdict) -> distinct_releases (Dict.keys vdict) ->
  exists releases others,
    Dict.keys (_reorder_versions vdict)
    = filter (shas vdict) protected ++ releases ++ others
    /\ Forall (fun l => is_release l = true) releases
    /\ StronglySorted (fun a b => label_lt b a = true) releases
    /\ Forall (fun l => is_release l = false /\ is_protected l = false) others.
Proof.
  intros Hnd Hd. rewrite (reorder_versions_split vdict Hnd).
  set (S := sorted_reverse vlt (Dict.keys (reorder_version_map vdict))).
  assert (HS : StronglySorted (fun a b => vlt b a = true) S).
  { apply sorted_reverse_decreasing. apply (vm_of_keys_distinct (Dict.keys vdict)). }
  destruct (reorder_releases_keys vdict S []
              (fold_left (fun rv key => match sget vdict key with
                                        | Some u => sset rv key u
                                        | None => rv
                                        end) protected [])
              [] Hd (decreasing_NoDup S HS))
    as (labs & Hk & HF).
  { intros v Hv. unfold S, sorted_reverse in Hv.
    apply in_rev in Hv. apply sorted_In in Hv. now apply in_rev in Hv. }
  { rewrite app_nil_r. apply reorder_aliases_keys. }
  { constructor. }
  assert (Hk' : Dict.keys (reorder_head vdict)
                = filter (shas vdict) protected ++ labs) by exact Hk.
  clear Hk. rename Hk' into Hk.
  exists labs, (Dict.keys (filter (fun kv => negb (shas (reorder_head vdict) (fst kv)))
                                  vdict)).
  split; [unfold Dict.keys at 1; rewrite map_app; fold (Dict.keys (reorder_head vdict));
          now rewrite Hk, <- app_assoc|].
  split; [|split].
  - clear -HF. induction HF as [|l v labs vs (_ & Hr & _) HF IH]; constructor; auto.
  - apply (sorted_labels labs S); [|exact HS].
    clear -HF. induction HF as [|l v labs vs (Hp & _) HF IH]; constructor; auto.
  - apply Forall_forall. intros l Hl. unfold Dict.keys in Hl.
    apply in_map_iff in Hl. destruct Hl as ([l' u] & Hl' & Hin). cbn in Hl'. subst l'.
    apply filter_In in Hin. destruct Hin as [Hin Hout]. cbn [fst] in Hout.
    apply negb_true_iff in Hout. apply (in_map fst) in Hin. cbn [fst] in Hin.
    fold (Dict.keys vdict) in Hin.
    assert (Hnot : ~ In l (Dict.keys (reorder_head vdict))).
    { intros H. apply shas_keys in H. congruence. }
    rewrite Hk in Hnot. split.
    + destruct (is_release l) eqn:Er; [|reflexivity]. exfalso. apply Hnot.
      apply in_or_app. right.
      destruct (is_release_parse l Er) as [k Hp].
      destruct (vm_of_complete (Dict.keys vdict) Hd l k Hin Er Hp) as [_ Hkin].
      assert (HkS : In k S).
      { unfold S, sorted_reverse. apply in_rev. rewrite rev_involutive.
        apply sorted_In. now apply in_rev in Hkin. }
      clear -HF HkS Hp Hd Hin Er.
      induction HF as [|l0 v0 labs vs (Hp0 & Hr0 & Hin0) HF IH]; [destruct HkS|].
      destruct HkS as [->|HkS]; [left|right; now apply IH].
      apply (Hd l0 l k k); auto. apply veq_refl.
    + destruct (is_protected l) eqn:Ep; [|reflexivity]. exfalso. apply Hnot.
      apply in_or_app. left. apply filter_In.
      split; [now apply is_protected_In|now apply shas_keys].
Qed.

Lemma reorder_versions_shape_witness :
  exists releases others,
    Dict.keys (_reorder_versions release_versions)
    = filter (shas release_versions) protected ++ releases ++ others
    /\ Forall (fun l => is_release l = true) releases
    /\ StronglySorted (fun a b => label_lt b a = true) releases
    /\ Forall (fun l => is_release l = false /\ is_protected l = false) others.
Proof.
  apply (reorder_versions_shape release_versions).
  - nodup_keys.
  - intros l1 l2 k1 k2 [<-|[<-|[]]] [<-|[<-|[]]]; try reflexivity;
      intros _ _ [= <-] [= <-]; discriminate.
Defined.
